(** * keydra: the AWS IAM provider (src/keydra/providers/aws_iam.py)

    A shallow embedding of [keydra.providers.aws_iam] and the properties its
    specification states about it.

    - Python dicts are insertion-ordered association lists with the usual
      [get] / item assignment / [pop].
    - The boto3 IAM client is an oracle: a function from the history of the
      session and the call being made to either a [ClientError] code or the
      typed response of that call.  Every call is appended to the history,
      with its outcome; so is every [LOGGER.warn].  [LOGGER.info] and
      [LOGGER.debug] leave no trace.
    - Methods of [Client] are computations in a state-and-exception monad
      over that history and the one mutable field of the object,
      [_account_id].
    - [validate_spec] and [redact_result] work on dynamically typed values;
      [rotate] works on a descriptor that has the shape of its schema.
    - Timestamps are integers. *)

From Stdlib Require Import ZArith.
From stdpp Require Import gmap strings list.


Open Scope Z_scope.

Set Warnings "-clear-no-such-hyp".

(** ** Python values *)

(** The dynamically typed values a YAML or JSON document can hold.  Mappings
    have string keys. *)
#[warnings="-register-all"]
Inductive pyval :=
| PNone
| PBool (b : bool)
| PInt (n : Z)
| PStr (s : string)
| PList (l : list pyval)
| PDict (d : list (string * pyval)).

Inductive pytype := NoneType | Tbool | Tint | Tstr | Tlist | Tdict.

Global Instance pytype_eq_dec : EqDecision pytype.
Proof. solve_decision. Defined.

(** [type(v)] *)
Definition type_of (v : pyval) : pytype :=
  match v with
  | PNone => NoneType
  | PBool _ => Tbool
  | PInt _ => Tint
  | PStr _ => Tstr
  | PList _ => Tlist
  | PDict _ => Tdict
  end.

(** [bool(v)]: what [if v] and [v and ...] test. *)
Definition truthy (v : pyval) : bool :=
  match v with
  | PNone => false
  | PBool b => b
  | PInt n => negb (n =? 0)
  | PStr s => negb (bool_decide (s = ""))
  | PList l => negb (bool_decide (l = []))
  | PDict d => negb (bool_decide (d = []))
  end.

(** ** Python dicts *)

Section dict.
Context {V : Type}.

(** [d.get(k)], with [None] for a missing key. *)
Fixpoint dict_get (d : list (string * V)) (k : string) : option V :=
  match d with
  | [] => None
  | (k', v) :: d' => if decide (k' = k) then Some v else dict_get d' k
  end.

(** [k in d] *)
Definition dict_in (k : string) (d : list (string * V)) : bool :=
  bool_decide (is_Some (dict_get d k)).

(** [d[k] = v]: an existing key keeps its place, a new one goes last. *)
Fixpoint dict_set (d : list (string * V)) (k : string) (v : V)
  : list (string * V) :=
  match d with
  | [] => [(k, v)]
  | (k', v') :: d' =>
      if decide (k' = k) then (k', v) :: d' else (k', v') :: dict_set d' k v
  end.

(** [d.pop(k)] on a key that is there. *)
Fixpoint dict_pop (d : list (string * V)) (k : string) : list (string * V) :=
  match d with
  | [] => []
  | (k', v') :: d' =>
      if decide (k' = k) then d' else (k', v') :: dict_pop d' k
  end.

Definition dict_keys (d : list (string * V)) : list string := d.*1.
Definition dict_values (d : list (string * V)) : list V := d.*2.

(** [{key(x): x for x in l}] *)
Definition dict_comprehension (key : V → string) (l : list V)
  : list (string * V) :=
  foldl (λ d x, dict_set d (key x) x) [] l.
End dict.

(** ** Exceptions *)

Inductive exception :=
| ClientError (code : string)
| RotationException (e : exception)
| DistributionException (msg : string)
| AttributeError (msg : string)
| TypeError (msg : string).

(** ** Formatted messages

    [template.format(args)], kept as the template and its arguments. *)
Inductive fmt_arg :=
| FStr (s : string)
| FType (t : pytype)
| FKeys (ks : list string).

Inductive pystr :=
| Lit (s : string)
| Format (template : string) (args : list fmt_arg).

Definition PW_FIELD : string := "secret".

(** ** [Client.redact_result] *)

(** [PW_FIELD in s] for a string [s]. *)
Fixpoint is_substring (p s : string) : bool :=
  String.prefix p s ||
  match s with
  | EmptyString => false
  | String _ s' => is_substring p s'
  end.

Definition is_str (s : string) (v : pyval) : bool :=
  match v with
  | PStr s' => bool_decide (s' = s)
  | _ => false
  end.

(** [PW_FIELD in result['value']] followed by the item assignment.  Only a
    dict supports both; a string or a list supports the test alone; the other
    values support neither. *)
Definition redact_result (result : list (string * pyval))
  : exception + list (string * pyval) :=
  match dict_get result "value" with
  | None => inr result
  | Some (PDict value) =>
      if dict_in PW_FIELD value
      then inr (dict_set result "value"
                  (PDict (dict_set value PW_FIELD (PStr "***"))))
      else inr result
  | Some (PStr s) =>
      if is_substring PW_FIELD s
      then inl (TypeError "'str' object does not support item assignment")
      else inr result
  | Some (PList l) =>
      if existsb (is_str PW_FIELD) l
      then inl (TypeError "list indices must be integers or slices, not str")
      else inr result
  | Some _ => inl (TypeError "argument is not iterable")
  end.

(** ** [Client.validate_spec] *)

Section validate_spec.
(** [BaseProvider.validate_spec], from keydra.providers.base. *)
Variable BaseProvider_validate_spec : list (string * pyval) → bool * pystr.

Definition allowed_options : list (string * pytype) :=
  [("tags", Tdict); ("groups", Tlist); ("policies", Tlist)].

(** The loop over [allowed_options.items()]; [Some] is its early return. *)
Fixpoint check_options (config : list (string * pyval))
    (options : list (string * pytype)) : option (bool * pystr) :=
  match options with
  | [] => None
  | (oname, otype) :: options' =>
      let provided_option := default PNone (dict_get config oname) in
      if truthy provided_option
         && negb (bool_decide (type_of provided_option = otype))
      then Some (false, Format "{} must be a {}" [FStr oname; FType otype])
      else check_options config options'
  end.

(** [spec['config'].keys() - allowed_options.keys()] *)
Definition unknown_vals (config : list (string * pyval)) : list string :=
  filter (λ k, k ∉ dict_keys allowed_options) (dict_keys config).

Definition validate_spec (spec : list (string * pyval))
  : exception + bool * pystr :=
  let '(valid, msg) := BaseProvider_validate_spec spec in
  if negb valid then inr (false, msg)
  else
    match dict_get spec "config" with
    | None => inr (true, Lit "All good!")
    | Some (PDict config) =>
        match check_options config allowed_options with
        | Some r => inr r
        | None =>
            if negb (bool_decide (unknown_vals config = []))
            then inr (false,
                      Format "Unsupported values in provider config: {}"
                        [FKeys (unknown_vals config)])
            else inr (true, Lit "All good!")
        end
    | Some _ => inl (AttributeError "object has no attribute 'get'")
    end.
End validate_spec.

(** ** The IAM service *)

(** [TagTypeDef] *)
Record Tag := { Key : string; Value : string }.

Global Instance Tag_eq_dec : EqDecision Tag.
Proof. solve_decision. Defined.

(** One entry of [list_access_keys(...)['AccessKeyMetadata']], with the field
    [last_used] that [_pick_best_candidate] writes into it.  The field is
    missing until then; nothing reads it before it is written. *)
Record access_key := {
  AccessKeyId : string;
  UserName : string;
  Status : string;
  CreateDate : Z;
  last_used : option Z;
}.

Definition set_last_used (key : access_key) (d : option Z) : access_key :=
  {| AccessKeyId := AccessKeyId key; UserName := UserName key;
     Status := Status key; CreateDate := CreateDate key; last_used := d |}.

(** [create_access_key(...)['AccessKey']] *)
Record new_access_key := {
  new_AccessKeyId : string;
  SecretAccessKey : string;
}.

(** One entry of [list_attached_user_policies(...)['AttachedPolicies']]; the
    code reads it with [p.get('PolicyArn', None)]. *)
Record attached_policy := {
  PolicyName : string;
  PolicyArn : option string;
}.

(** The calls the module makes on its boto3 clients, with their keyword
    arguments.  [get_caller_identity] goes to the STS client. *)
Inductive call :=
| get_user (user_name : string)
| tag_user (user_name : string) (tags : list Tag)
| create_user (user_name : string) (tags : list Tag)
| list_access_keys (user_name : string)
| get_access_key_last_used (access_key_id : string)
| delete_access_key (access_key_id user_name : string)
| update_access_key (access_key_id status user_name : string)
| create_access_key (user_name : string)
| list_groups_for_user (user_name : string)
| remove_user_from_group (user_name group_name : string)
| add_user_to_group (user_name group_name : string)
| list_attached_user_policies (user_name : string)
| attach_user_policy (user_name : string) (policy_arn : option string)
| detach_user_policy (user_name : string) (policy_arn : option string)
| get_caller_identity.

(** What the code reads from the response of each call.  [get_user]: the
    user's ['Tags'], if any.  [get_access_key_last_used]: the
    ['LastUsedDate'], if any.  [list_groups_for_user]: the ['GroupName'] of
    each entry of ['Groups'].  [get_caller_identity]: the ['Account'], if
    any. *)
Definition response (c : call) : Type :=
  match c with
  | get_user _ => option (list Tag)
  | list_access_keys _ => list access_key
  | get_access_key_last_used _ => option Z
  | create_access_key _ => new_access_key
  | list_groups_for_user _ => list string
  | list_attached_user_policies _ => list attached_policy
  | get_caller_identity => option string
  | _ => unit
  end.

(** The places where the module calls [LOGGER.warn]. *)
Inductive warning :=
| user_does_not_exist (iam_user : string)
| not_able_to_list_groups (iam_user e : string)
| not_able_to_remove_user (iam_user group e : string)
| not_able_to_add_user (iam_user group e : string)
| failed_detaching_policy (policy_arn : option string) (username e : string)
| failed_attaching_policy (policy_arn : option string) (username e : string)
| failed_to_fetch_policies (username e : string).

Inductive event :=
| Called (c : call) (ok : bool)
| Logged (w : warning).

(** The service: given what happened so far, a call raises [ClientError]
    with some code, or answers. *)
Definition service := ∀ (history : list event) (c : call), string + response c.

(** ** The monad of [Client] methods *)

(** [_account_id] is the field of that name; [trace] is the session so far. *)
Record state := {
  trace : list event;
  _account_id : option string;
}.

Definition M (A : Type) : Type := state → (exception + A) * state.

Global Instance M_ret : MRet M := λ A a st, (inr a, st).

Global Instance M_bind : MBind M := λ A B k m st,
  match m st with
  | (inl e, st') => (inl e, st')
  | (inr a, st') => k a st'
  end.

Definition raise {A} (e : exception) : M A := λ st, (inl e, st).

(** [try: body  except ClientError as e: handler(e)] *)
Definition try_except {A} (body : M A) (handler : string → M A) : M A :=
  λ st,
    match body st with
    | (inl (ClientError e), st') => handler e st'
    | r => r
    end.

Definition record (ev : event) (st : state) : state :=
  {| trace := trace st ++ [ev]; _account_id := _account_id st |}.

(** [LOGGER.warn(...)] *)
Definition warn (w : warning) : M unit := λ st, (inr (), record (Logged w) st).

(** [for x in l: body(x)] *)
Fixpoint for_each {A} (l : list A) (body : A → M unit) : M unit :=
  match l with
  | [] => mret ()
  | x :: l' => body x ;; for_each l' body
  end.

(** [[f(x) for x in l]] *)
Fixpoint for_map {A B} (l : list A) (f : A → M B) : M (list B) :=
  match l with
  | [] => mret []
  | x :: l' => y ← f x; ys ← for_map l' f; mret (y :: ys)
  end.

(** ** The secret descriptor *)

(** [config.groups]: a list of group names, or one group name. *)
Inductive groups_value :=
| Scalar (g : string)
| Groups (l : list string).

(** The descriptor [rotate] works on, in the shape of its schema:
    [{key: str, config?: {tags?: {str: str}, groups?: [str] | str,
    policies?: [str]}}]. *)
Record provider_config := {
  tags : option (list (string * string));
  groups : option groups_value;
  policies : option (list string);
}.

Record secret := {
  key : string;
  config : option provider_config;
}.

(** ** [_explain_secret] *)

Definition _explain_secret (aws_secret : new_access_key)
  : list (string * string) :=
  [("provider", "iam");
   ("key", new_AccessKeyId aws_secret);
   (PW_FIELD, SecretAccessKey aws_secret)].

(** An order in which [for] loops visit Python sets: to each set, the list
    of its elements as a loop goes through them. *)
Definition set_order : Type :=
  ∀ A (EqA : EqDecision A) (CA : Countable A), gset A → list A.

(** ** [class Client] *)

Section Client.
(** [self._client] and the STS client. *)
Variable svc : service.

(** The order in which the [for] loops visit sets. *)
Variable iter : set_order.
Arguments iter {_ _ _} _.

Definition invoke (c : call) : M (response c) := λ st,
  match svc (trace st) c with
  | inl e => (inl (ClientError e), record (Called c false) st)
  | inr r => (inr r, record (Called c true) st)
  end.

Definition read_account_id : M (option string) :=
  λ st, (inr (_account_id st), st).

Definition write_account_id (a : option string) : M unit :=
  λ st, (inr (), {| trace := trace st; _account_id := a |}).

Definition _get_aws_account_id : M (option string) :=
  cached ← read_account_id;
  (if cached is None
   then account ← invoke get_caller_identity; write_account_id account
   else mret ());;
  read_account_id.

Definition _fetch_access_keys (user : string)
  : M (list (string * access_key)) :=
  r ← invoke (list_access_keys user);
  mret (dict_comprehension AccessKeyId r).

(** The loop of [_pick_best_candidate] over [keys_by_id.items()].  The
    records are shared with [keys_by_id], so [key['last_used'] = ...]
    updates the dict too.  [reason] is only logged. *)
Fixpoint pick_loop (items keys_by_id : list (string * access_key))
    (candidate : option access_key)
  : M (list (string * access_key) * option access_key) :=
  match items with
  | [] => mret (keys_by_id, candidate)
  | (kid, key) :: items' =>
      d ← invoke (get_access_key_last_used kid);
      let key := set_last_used key d in
      let keys_by_id := dict_set keys_by_id kid key in
      if bool_decide (Status key ≠ "Active")
      then mret (keys_by_id, Some key)
      else
        let candidate := default key candidate in
        match last_used key, last_used candidate with
        | Some t, Some tc =>
            if bool_decide (t < tc)
            then pick_loop items' keys_by_id (Some key)
            else pick_loop items' keys_by_id (Some candidate)
        | _, _ => pick_loop items' keys_by_id (Some candidate)
        end
  end.

(** Returns the dict as the loop left it, and the candidate. *)
Definition _pick_best_candidate (keys_by_id : list (string * access_key))
  : M (list (string * access_key) * option access_key) :=
  pick_loop keys_by_id keys_by_id None.

Definition _create_access_key (user : string) : M new_access_key :=
  invoke (create_access_key user).

Definition _delete_access_key (user key_id : string) : M unit :=
  invoke (delete_access_key key_id user).

Definition _update_access_key (user key_id : string) (active : bool)
  : M unit :=
  let active_string := if active then "Active" else "Inactive" in
  invoke (update_access_key key_id active_string user).

Definition expected_tags (options : option provider_config) : list Tag :=
  {| Key := "managedby"; Value := "keydra" |} ::
  match options ≫= tags with
  | Some t => (λ '(k, v), {| Key := k; Value := v |}) <$> t
  | None => []
  end.

(** The [return] inside the [try] is the [true] that skips
    [create_user]. *)
Definition _create_user_if_not_available (iam_user : string)
    (options : option provider_config) : M unit :=
  let expected_tags := expected_tags options in
  returned ← try_except
    (existing_user ← invoke (get_user iam_user);
     (if bool_decide (existing_user ≠ Some expected_tags)
      then invoke (tag_user iam_user expected_tags)
      else mret ());;
     mret true)
    (λ _, warn (user_does_not_exist iam_user);; mret false);
  if returned : bool then mret ()
  else invoke (create_user iam_user expected_tags).

Definition _update_user_group_membership (iam_user : string)
    (groups : groups_value) : M unit :=
  let groups := match groups with Groups l => l | Scalar g => [g] end in
  let rightful_groups : gset string := list_to_set groups in
  listed ← try_except
    (r ← invoke (list_groups_for_user iam_user);
     mret (Some (list_to_set r : gset string)))
    (λ e, warn (not_able_to_list_groups iam_user e);; mret None);
  match listed with
  | None => mret ()
  | Some current_groups =>
      let group_set := current_groups ∪ rightful_groups in
      for_each (iter (group_set ∖ rightful_groups)) (λ group,
        try_except (invoke (remove_user_from_group iam_user group))
          (λ e, warn (not_able_to_remove_user iam_user group e)));;
      for_each (iter (group_set ∖ current_groups)) (λ group,
        try_except (invoke (add_user_to_group iam_user group))
          (λ e, warn (not_able_to_add_user iam_user group e)))
  end.

(** [f'{x}'] for an [x] that may be [None]. *)
Definition fstr (x : option string) : string := default "None" x.

Definition _make_policy_arn (policy_name_with_path : string) : M string :=
  account ← _get_aws_account_id;
  mret ("arn:aws:iam::" +:+ fstr account +:+ ":policy/"
        +:+ policy_name_with_path).

Definition _detach_policy_from_user (policy_arn : option string)
    (username : string) : M unit :=
  try_except (invoke (detach_user_policy username policy_arn))
    (λ e, warn (failed_detaching_policy policy_arn username e)).

Definition _attach_policy_to_user (policy_arn : option string)
    (username : string) : M unit :=
  try_except (invoke (attach_user_policy username policy_arn))
    (λ e, warn (failed_attaching_policy policy_arn username e)).

Definition _update_user_policies (username : string)
    (expected_policies : gset string) : M unit :=
  arns ← for_map (iter expected_policies) _make_policy_arn;
  let expected_policy_arns : gset (option string) :=
    list_to_set (Some <$> arns) in
  fetched ← try_except
    (r ← invoke (list_attached_user_policies username);
     mret (Some (list_to_set (PolicyArn <$> r) : gset (option string))))
    (λ e, warn (failed_to_fetch_policies username e);; mret None);
  match fetched with
  | None => mret ()
  | Some current_policy_arns =>
      let union_policy_arns := expected_policy_arns ∪ current_policy_arns in
      for_each (iter (union_policy_arns ∖ current_policy_arns))
        (λ policy_arn, _attach_policy_to_user policy_arn username);;
      for_each (iter (union_policy_arns ∖ expected_policy_arns))
        (λ policy_arn, _detach_policy_from_user policy_arn username)
  end.

(** The branch [if len(keys_by_id) > 1] of [rotate]; returns [keys_by_id] as
    the branch leaves it. *)
Definition kill_one (keys_by_id : list (string * access_key))
  : M (list (string * access_key)) :=
  '(keys_by_id, r_candidate) ← _pick_best_candidate keys_by_id;
  match r_candidate with
  | Some r_candidate =>
      _delete_access_key (UserName r_candidate) (AccessKeyId r_candidate);;
      mret (dict_pop keys_by_id (AccessKeyId r_candidate))
  | None => mret keys_by_id
  end.

(** The body of the [try] in [rotate]. *)
Definition rotate_body (secret : secret) : M (list (string * string)) :=
  _create_user_if_not_available (key secret) (config secret);;
  keys_by_id ← _fetch_access_keys (key secret);
  keys_by_id ←
    (if bool_decide (1 < length keys_by_id)%nat
     then kill_one keys_by_id
     else mret keys_by_id);
  (if bool_decide (length keys_by_id = 1%nat)
   then
     match dict_values keys_by_id with
     | r_candidate :: _ =>
         _update_access_key (UserName r_candidate)
           (AccessKeyId r_candidate) false
     | [] => mret ()
     end
   else mret ());;
  _update_user_group_membership (key secret)
    (default (Groups []) (config secret ≫= groups));;
  _update_user_policies (key secret)
    (list_to_set (default [] (config secret ≫= policies)));;
  aws_secret ← _create_access_key (key secret);
  mret (_explain_secret aws_secret).

(** One attempt of [rotate]; the decorator [exponential_backoff_retry], from
    keydra.providers.base, runs it again when it raises. *)
Definition rotate (secret : secret) : M (list (string * string)) :=
  try_except (rotate_body secret)
    (λ e, raise (RotationException (ClientError e))).

Definition distribute {S D} (secret : S) (destination : D) : M unit :=
  raise (DistributionException "IAM does not support distribution").

Definition has_creds : bool := false.
End Client.

(** * Properties *)

(** ** Dicts *)

Section dict_facts.
Context {V : Type}.
Implicit Types (d : list (string * V)) (k : string) (v : V).

Lemma dict_get_set_eq d k v : dict_get (dict_set d k v) k = Some v.
Proof.
  induction d as [|[k' v'] d IH]; simpl.
  - by rewrite decide_True.
  - destruct (decide (k' = k)) as [->|Hne]; simpl.
    + by rewrite decide_True.
    + by rewrite decide_False.
Qed.

Lemma dict_get_set_ne d k k' v :
  k ≠ k' → dict_get (dict_set d k v) k' = dict_get d k'.
Proof.
  intros Hne. induction d as [|[k0 v0] d IH]; simpl.
  - by rewrite decide_False.
  - destruct (decide (k0 = k)) as [->|Hne0]; simpl.
    + by rewrite !decide_False.
    + by rewrite IH.
Qed.

Lemma dict_keys_set_present d k v :
  is_Some (dict_get d k) → dict_keys (dict_set d k v) = dict_keys d.
Proof.
  unfold dict_keys. induction d as [|[k0 v0] d IH]; simpl.
  - by intros [? ?].
  - destruct (decide (k0 = k)) as [->|Hne]; simpl; [done|].
    intros Hd. f_equal. by apply IH.
Qed.

Lemma dict_get_None d k : dict_get d k = None ↔ k ∉ dict_keys d.
Proof.
  unfold dict_keys. induction d as [|[k0 v0] d IH]; simpl.
  - split; [intros _; apply not_elem_of_nil | done].
  - rewrite not_elem_of_cons. destruct (decide (k0 = k)) as [->|Hne].
    + split; [done | by intros [? _]].
    + rewrite IH. split; [by intros ? | by intros [_ ?]].
Qed.

Lemma dict_get_Some_elem d k v : dict_get d k = Some v → (k, v) ∈ d.
Proof.
  induction d as [|[k0 v0] d IH]; simpl; [done|].
  destruct (decide (k0 = k)) as [->|Hne].
  - intros [= ->]. left.
  - intros Hd. right. auto.
Qed.

(** Writing to a key that occurs once, at a known place. *)
Lemma dict_set_middle (pre post : list (string * V)) k v v' :
  k ∉ dict_keys pre →
  dict_set (pre ++ (k, v) :: post) k v' = pre ++ (k, v') :: post.
Proof.
  unfold dict_keys. induction pre as [|[k0 v0] pre IH]; simpl.
  - intros _. by rewrite decide_True.
  - rewrite not_elem_of_cons. intros [Hne Hpre].
    rewrite decide_False by done. by rewrite IH.
Qed.

Lemma dict_pop_middle (pre post : list (string * V)) k v :
  k ∉ dict_keys pre →
  dict_pop (pre ++ (k, v) :: post) k = pre ++ post.
Proof.
  unfold dict_keys. induction pre as [|[k0 v0] pre IH]; simpl.
  - intros _. by rewrite decide_True.
  - rewrite not_elem_of_cons. intros [Hne Hpre].
    rewrite decide_False by done. by rewrite IH.
Qed.
Lemma dict_keys_set_absent d k v :
  k ∉ dict_keys d → dict_keys (dict_set d k v) = dict_keys d ++ [k].
Proof.
  unfold dict_keys. induction d as [|[k0 v0] d IH]; simpl; [done|].
  rewrite not_elem_of_cons. intros [Hne Hd].
  rewrite decide_False by done. simpl. f_equal. by apply IH.
Qed.

Lemma dict_set_NoDup d k v :
  NoDup (dict_keys d) → NoDup (dict_keys (dict_set d k v)).
Proof.
  intros Hd. destruct (decide (k ∈ dict_keys d)) as [Hin|Hout].
  - rewrite dict_keys_set_present; [done|].
    destruct (dict_get d k) eqn:Hget; [by eexists|].
    by apply dict_get_None in Hget.
  - rewrite dict_keys_set_absent by done.
    apply NoDup_app. split_and!; [done| |apply NoDup_singleton].
    intros x Hx ->%list_elem_of_singleton. done.
Qed.

(** A dict built by a comprehension has each key once. *)
Lemma dict_comprehension_NoDup (key : V → string) (l : list V) :
  NoDup (dict_keys (dict_comprehension key l)).
Proof.
  unfold dict_comprehension.
  assert (∀ d : list (string * V),
            NoDup (dict_keys d) →
            NoDup (dict_keys (foldl (λ d x, dict_set d (key x) x) d l)))
    as Hfold.
  { induction l as [|x l IH]; intros d Hd; simpl; [done|].
    by apply IH, dict_set_NoDup. }
  apply Hfold, NoDup_nil_2.
Qed.
End dict_facts.

(** ** [distribute] *)

(** C9.  Whatever the secret and the destination, and whatever the session
    so far, [distribute] raises [DistributionException] and leaves the state
    of the client and the history of calls as they were. *)
Theorem distribute_always_raises {S D : Type} (secret : S) (destination : D)
    (st : state) :
  distribute secret destination st
  = (inl (DistributionException "IAM does not support distribution"), st).
Proof. reflexivity. Qed.

(** ** [redact_result] *)

(** C8.  On an envelope whose [value], when there is one, is a mapping: if
    [value] has a [secret], the result is the envelope with
    [value.secret = '***'], the same keys in the same order, and every other
    entry of the envelope and of [value] as it was; if [value] is missing,
    or has no [secret], the envelope comes back unchanged. *)
Theorem redact_result_spec (result : list (string * pyval))
    (value : option (list (string * pyval))) :
  dict_get result "value" = PDict <$> value →
  match value with
  | Some v =>
      if dict_in PW_FIELD v then
        ∃ result' v',
          redact_result result = inr result'
          ∧ dict_get result' "value" = Some (PDict v')
          ∧ dict_get v' PW_FIELD = Some (PStr "***")
          ∧ (∀ k, k ≠ PW_FIELD → dict_get v' k = dict_get v k)
          ∧ (∀ k, k ≠ "value" → dict_get result' k = dict_get result k)
          ∧ dict_keys v' = dict_keys v
          ∧ dict_keys result' = dict_keys result
      else redact_result result = inr result
  | None => redact_result result = inr result
  end.
Proof.
  intros Hvalue. unfold redact_result. rewrite Hvalue.
  destruct value as [v|]; simpl; [|done].
  destruct (dict_in PW_FIELD v) eqn:Hin; [|done].
  apply bool_decide_eq_true in Hin.
  eexists _, _. split; [done|].
  split; [apply dict_get_set_eq|].
  split; [apply dict_get_set_eq|].
  split; [intros k Hk; by apply dict_get_set_ne|].
  split; [intros k Hk; by apply dict_get_set_ne|].
  split; [by apply dict_keys_set_present|].
  apply dict_keys_set_present. rewrite Hvalue. by eexists.
Qed.

Definition envelope : list (string * pyval) :=
  [("value", PDict [("secret", PStr "abc"); ("key", PStr "AKIA...")])].

Lemma redact_result_spec_witness :
  dict_get envelope "value"
  = PDict <$> Some [("secret", PStr "abc"); ("key", PStr "AKIA...")]
  ∧ ∃ result' v',
      redact_result envelope = inr result'
      ∧ dict_get result' "value" = Some (PDict v')
      ∧ dict_get v' PW_FIELD = Some (PStr "***")
      ∧ (∀ k, k ≠ PW_FIELD → dict_get v' k
           = dict_get [("secret", PStr "abc"); ("key", PStr "AKIA...")] k)
      ∧ (∀ k, k ≠ "value" → dict_get result' k = dict_get envelope k)
      ∧ dict_keys v' = ["secret"; "key"]
      ∧ dict_keys result' = dict_keys envelope.
Proof.
  split; [reflexivity|].
  exact (redact_result_spec envelope
           (Some [("secret", PStr "abc"); ("key", PStr "AKIA...")]) eq_refl).
Defined.

(** The example of the specification. *)
Example redact_result_example :
  redact_result envelope
  = inr [("value", PDict [("secret", PStr "***"); ("key", PStr "AKIA...")])].
Proof. reflexivity. Qed.

(** ** [validate_spec] *)

(** [config] holds a value for [oname] that is truthy and whose type is not
    [otype]. *)
Definition mistyped (config : list (string * pyval)) (oname : string)
    (otype : pytype) : Prop :=
  ∃ v, dict_get config oname = Some v ∧ truthy v = true ∧ type_of v ≠ otype.

(** [config] has a key outside [{tags, groups, policies}]. *)
Definition unsupported (config : list (string * pyval)) : Prop :=
  ∃ k, k ∈ dict_keys config ∧ k ∉ ["tags"; "groups"; "policies"].

Definition violates (config : list (string * pyval)) : Prop :=
  mistyped config "tags" Tdict ∨ mistyped config "groups" Tlist
  ∨ mistyped config "policies" Tlist ∨ unsupported config.

Lemma check_one_true config oname otype :
  truthy (default PNone (dict_get config oname))
  && negb (bool_decide (type_of (default PNone (dict_get config oname)) = otype))
  = true
  ↔ mistyped config oname otype.
Proof.
  rewrite andb_true_iff, negb_true_iff, bool_decide_eq_false. unfold mistyped.
  split.
  - intros [Ht Hty]. destruct (dict_get config oname) as [v|]; [|done].
    by exists v.
  - intros (v & -> & Ht & Hty). done.
Qed.

Lemma unknown_vals_nil config : unknown_vals config = [] ↔ ¬ unsupported config.
Proof.
  unfold unknown_vals, unsupported. split.
  - intros Hnil (k & Hk & Hout).
    assert (k ∈ filter (λ k, k ∉ dict_keys allowed_options) (dict_keys config))
      as Hin by (apply list_elem_of_filter; done).
    rewrite Hnil in Hin. by apply not_elem_of_nil in Hin.
  - intros Hno.
    destruct (filter _ _) as [|k l] eqn:Hf; [done|]. exfalso.
    assert (k ∈ filter (λ k, k ∉ dict_keys allowed_options) (dict_keys config))
      as Hin by (rewrite Hf; left).
    apply list_elem_of_filter in Hin as [Hout Hk]. apply Hno. by exists k.
Qed.

(** C3, as the code has it.  For a spec that passes the base validation and
    whose [config], when there is one, is a mapping: with no [config] the
    answer is [(True, 'All good!')]; with one, the answer is [(False, reason)]
    when [tags] holds a truthy value that is not a dict, [groups] or
    [policies] holds a truthy value that is not a list, or some key is not one
    of the three, and [(True, 'All good!')] otherwise. *)
Theorem validate_spec_spec
    (BaseProvider_validate_spec : list (string * pyval) → bool * pystr)
    (spec : list (string * pyval)) (msg : pystr)
    (config : option (list (string * pyval))) :
  BaseProvider_validate_spec spec = (true, msg) →
  dict_get spec "config" = PDict <$> config →
  match config with
  | None =>
      validate_spec BaseProvider_validate_spec spec
      = inr (true, Lit "All good!")
  | Some config =>
      (violates config →
       ∃ reason,
         validate_spec BaseProvider_validate_spec spec = inr (false, reason))
      ∧ (¬ violates config →
         validate_spec BaseProvider_validate_spec spec
         = inr (true, Lit "All good!"))
  end.
Proof.
  intros Hbase Hconfig. unfold validate_spec. rewrite Hbase, Hconfig. simpl.
  destruct config as [config|]; simpl; [|done].
  pose proof (check_one_true config "tags" Tdict) as Htags.
  pose proof (check_one_true config "groups" Tlist) as Hgroups.
  pose proof (check_one_true config "policies" Tlist) as Hpolicies.
  pose proof (unknown_vals_nil config) as Hunknown.
  unfold violates.
  destruct (truthy (default PNone (dict_get config "tags")) && _) eqn:E1.
  { split; [by eexists | intros []; left; by apply Htags]. }
  destruct (truthy (default PNone (dict_get config "groups")) && _) eqn:E2.
  { split; [by eexists | intros []; right; left; by apply Hgroups]. }
  destruct (truthy (default PNone (dict_get config "policies")) && _) eqn:E3.
  { split; [by eexists | intros []; do 2 right; left; by apply Hpolicies]. }
  destruct (decide (unknown_vals config = [])) as [Hnil|Hnil].
  - rewrite bool_decide_eq_true_2 by done. simpl. split; [|done].
    intros [H|[H|[H|H]]]; exfalso.
    + apply Htags in H. congruence.
    + apply Hgroups in H. congruence.
    + apply Hpolicies in H. congruence.
    + by apply Hunknown in H.
  - rewrite bool_decide_eq_false_2 by done. simpl.
    split; [by eexists|]. intros Hno. exfalso. apply Hnil, Hunknown. tauto.
Qed.

(** A base validation that accepts every spec. *)
Definition base_accepts : list (string * pyval) → bool * pystr :=
  λ _, (true, Lit "It is valid!").

Definition spec_with_scalar_groups : list (string * pyval) :=
  [("key", PStr "svc-a"); ("config", PDict [("groups", PStr "admins")])].

Definition spec_with_empty_tags : list (string * pyval) :=
  [("key", PStr "svc-a"); ("config", PDict [("tags", PList [])])].

Lemma validate_spec_spec_witness :
  base_accepts spec_with_scalar_groups = (true, Lit "It is valid!")
  ∧ dict_get spec_with_scalar_groups "config"
    = PDict <$> Some [("groups", PStr "admins")]
  ∧ violates [("groups", PStr "admins")]
  ∧ ∃ reason,
      validate_spec base_accepts spec_with_scalar_groups = inr (false, reason).
Proof.
  assert (violates [("groups", PStr "admins")]) as Hv.
  { right; left. exists (PStr "admins"). by repeat split. }
  repeat split; [exact Hv|].
  exact (proj1 (validate_spec_spec base_accepts spec_with_scalar_groups
                  (Lit "It is valid!") (Some [("groups", PStr "admins")])
                  eq_refl eq_refl) Hv).
Defined.

(** C3, as stated, fails: [tags: []] is present and is not a mapping, and the
    spec is accepted. *)
Lemma validate_spec_accepts_empty_list_as_tags :
  dict_get spec_with_empty_tags "config" = Some (PDict [("tags", PList [])])
  ∧ dict_get [("tags", PList [])] "tags" = Some (PList [])
  ∧ type_of (PList []) ≠ Tdict
  ∧ validate_spec base_accepts spec_with_empty_tags
    = inr (true, Lit "All good!").
Proof. by repeat split. Qed.

(** A spec that fails the base validation is rejected with the base's
    message. *)
Lemma validate_spec_base_invalid
    (BaseProvider_validate_spec : list (string * pyval) → bool * pystr)
    (spec : list (string * pyval)) (msg : pystr) :
  BaseProvider_validate_spec spec = (false, msg) →
  validate_spec BaseProvider_validate_spec spec = inr (false, msg).
Proof. intros Hbase. unfold validate_spec. by rewrite Hbase. Qed.

(** ** Running computations *)

Lemma bind_inr {A B} (m : M A) (k : A → M B) st a st' :
  m st = (inr a, st') → (m ≫= k) st = k a st'.
Proof. intros Hm. unfold mbind, M_bind. by rewrite Hm. Qed.

Lemma bind_inl {A B} (m : M A) (k : A → M B) st e st' :
  m st = (inl e, st') → (m ≫= k) st = (inl e, st').
Proof. intros Hm. unfold mbind, M_bind. by rewrite Hm. Qed.

Lemma invoke_ok svc c st r :
  svc (trace st) c = inr r →
  invoke svc c st = (inr r, record (Called c true) st).
Proof. intros Hr. unfold invoke. by rewrite Hr. Qed.

Lemma invoke_fails svc c st e :
  svc (trace st) c = inl e →
  invoke svc c st = (inl (ClientError e), record (Called c false) st).
Proof. intros Hr. unfold invoke. by rewrite Hr. Qed.

Lemma try_except_inr {A} (body : M A) h st a st' :
  body st = (inr a, st') → try_except body h st = (inr a, st').
Proof. intros Hb. unfold try_except. by rewrite Hb. Qed.

Lemma try_except_caught {A} (body : M A) h st e st' :
  body st = (inl (ClientError e), st') → try_except body h st = h e st'.
Proof. intros Hb. unfold try_except. by rewrite Hb. Qed.

(** ** What a computation adds to the history *)

(** The calls whose [ClientError] some [except] clause of the module
    catches, with the warning that clause logs. *)
Inductive about : warning → call → Prop :=
| about_get_user u :
    about (user_does_not_exist u) (get_user u)
| about_tag_user u t :
    about (user_does_not_exist u) (tag_user u t)
| about_list_groups u e :
    about (not_able_to_list_groups u e) (list_groups_for_user u)
| about_remove_user u g e :
    about (not_able_to_remove_user u g e) (remove_user_from_group u g)
| about_add_user u g e :
    about (not_able_to_add_user u g e) (add_user_to_group u g)
| about_list_policies u e :
    about (failed_to_fetch_policies u e) (list_attached_user_policies u)
| about_attach u p e :
    about (failed_attaching_policy p u e) (attach_user_policy u p)
| about_detach u p e :
    about (failed_detaching_policy p u e) (detach_user_policy u p).

(** The other calls: nothing catches their [ClientError] before the
    [except] clause of [rotate]. *)
Definition aborting (c : call) : Prop :=
  match c with
  | create_user _ _ | list_access_keys _ | get_access_key_last_used _
  | delete_access_key _ _ | update_access_key _ _ _ | create_access_key _
  | get_caller_identity => True
  | _ => False
  end.

(** A property of stretches of history that holds of the empty stretch and
    of the concatenation of two stretches that have it. *)
Class Closed (T : list event → Prop) := {
  closed_nil : T [];
  closed_app a b : T a → T b → T (a ++ b);
}.

(** [tracks T K m]: a run of [m] appends a stretch [new] to the history.
    When [m] returns, [T new].  When [m] raises, it raises the [ClientError]
    of the call it made last, that call is one of [K], and the stretch
    before it has [T]. *)
Definition tracks {A} (T : list event → Prop) (K : call → Prop) (m : M A)
  : Prop :=
  ∀ st, ∃ new,
    trace (m st).2 = trace st ++ new
    ∧ match (m st).1 with
      | inr _ => T new
      | inl e =>
          ∃ code c pre,
            e = ClientError code ∧ new = pre ++ [Called c false]
            ∧ K c ∧ T pre
      end.

Section tracks.
Context (svc : service) (T : list event → Prop) `{!Closed T}.

Lemma tracks_ret {A} K (a : A) : tracks T K (mret a).
Proof.
  intros st. exists []. simpl. split; [by rewrite app_nil_r | apply closed_nil].
Qed.

Lemma tracks_bind {A B} K (m : M A) (k : A → M B) :
  tracks T K m → (∀ a, tracks T K (k a)) → tracks T K (m ≫= k).
Proof.
  intros Hm Hk st. destruct (Hm st) as (new & Htr & Hnew).
  unfold mbind, M_bind. destruct (m st) as [[e|a] st1]; simpl in *.
  - by exists new.
  - destruct (Hk a st1) as (new2 & Htr2 & Hnew2).
    exists (new ++ new2). split; [by rewrite Htr2, Htr, app_assoc|].
    destruct (k a st1).1 as [e|b].
    + destruct Hnew2 as (code & c & pre & -> & -> & HK & Hpre).
      exists code, c, (new ++ pre). rewrite app_assoc.
      repeat split; [done|]. by apply closed_app.
    + by apply closed_app.
Qed.

Lemma tracks_invoke K (c : call) :
  T [Called c true] → (∀ h code, svc h c = inl code → K c) →
  tracks T K (invoke svc c).
Proof.
  intros Hok Hfail st. unfold invoke.
  destruct (svc (trace st) c) as [code|r] eqn:Hr; simpl.
  - exists [Called c false]. split; [done|].
    exists code, c, []. repeat split; [by eapply Hfail | apply closed_nil].
  - by exists [Called c true].
Qed.

Lemma tracks_read_account_id K : tracks T K read_account_id.
Proof.
  intros st. exists []. simpl. split; [by rewrite app_nil_r | apply closed_nil].
Qed.

Lemma tracks_write_account_id K a : tracks T K (write_account_id a).
Proof.
  intros st. exists []. simpl. split; [by rewrite app_nil_r | apply closed_nil].
Qed.

(** [try: body  except ClientError as e: LOGGER.warn(w(e)); k(e)] *)
Lemma tracks_try_warn {A} K1 K (body : M A) (w : string → warning)
    (k : string → M A) :
  tracks T K1 body →
  (∀ c e, K1 c → T [Called c false; Logged (w e)]) →
  (∀ e, tracks T K (k e)) →
  tracks T K (try_except body (λ e, warn (w e);; k e)).
Proof.
  intros Hbody Hw Hk st. destruct (Hbody st) as (new & Htr & Hnew).
  unfold try_except. destruct (body st) as [[e|a] st1]; simpl in *.
  - destruct Hnew as (code & c & pre & -> & -> & HK & Hpre).
    unfold mbind, M_bind, warn.
    destruct (Hk code (record (Logged (w code)) st1)) as (new2 & Htr2 & Hnew2).
    exists ((pre ++ [Called c false; Logged (w code)]) ++ new2).
    split.
    { rewrite Htr2. simpl. rewrite Htr. by rewrite <- !app_assoc. }
    pose proof (closed_app _ _ Hpre (Hw c code HK)) as Hpre'.
    destruct (k code _).1 as [e|a].
    + destruct Hnew2 as (code2 & c2 & pre2 & -> & -> & HK2 & Hpre2).
      exists code2, c2, ((pre ++ [Called c false; Logged (w code)]) ++ pre2).
      rewrite app_assoc. repeat split; [done|]. by apply closed_app.
    + by apply closed_app.
  - by exists new.
Qed.

Lemma tracks_try_warn_only K1 K (body : M unit) (w : string → warning) :
  tracks T K1 body →
  (∀ c e, K1 c → T [Called c false; Logged (w e)]) →
  tracks T K (try_except body (λ e, warn (w e))).
Proof.
  intros Hbody Hw st.
  assert (try_except body (λ e, warn (w e)) st
          = try_except body (λ e, warn (w e);; mret ()) st) as ->.
  { unfold try_except. by destruct (body st) as [[[]|] ?]. }
  apply (tracks_try_warn K1 K body w (λ _, mret ())); [done..|].
  intros _. apply tracks_ret.
Qed.

Lemma tracks_for_each {A} K (l : list A) (body : A → M unit) :
  (∀ x, tracks T K (body x)) → tracks T K (for_each l body).
Proof.
  intros Hbody. induction l as [|x l IH]; simpl.
  - apply tracks_ret.
  - apply tracks_bind; [apply Hbody | intros _; apply IH].
Qed.

Lemma tracks_for_map {A B} K (l : list A) (f : A → M B) :
  (∀ x, tracks T K (f x)) → tracks T K (for_map l f).
Proof.
  intros Hf. induction l as [|x l IH]; simpl.
  - apply tracks_ret.
  - apply tracks_bind; [apply Hf|]. intros y.
    apply tracks_bind; [apply IH|]. intros ys. apply tracks_ret.
Qed.
End tracks.

(** ** What the methods of [Client] add to the history *)

(** Of the calls in [S]: [T] admits one that succeeds, and one that fails
    followed by the warning about it; [K] has the ones that can fail and
    that nothing catches. *)
Record admits (svc : service) (T : list event → Prop) (K S : call → Prop)
  : Prop := {
  admits_ok : ∀ c, S c → T [Called c true];
  admits_caught : ∀ c w, S c → about w c → T [Called c false; Logged w];
  admits_aborting : ∀ c h code, S c → aborting c → svc h c = inl code → K c;
}.

Section methods.
Context (svc : service) (iter : set_order).
Context (T : list event → Prop) `{!Closed T} (K S : call → Prop).
Hypothesis admitted : admits svc T K S.

Local Abbreviation T_caught := (admits_caught svc T K S admitted).

Lemma tracks_call (c : call) :
  S c → aborting c → tracks T K (invoke svc c).
Proof.
  intros Hs Hc. apply (tracks_invoke svc T K c).
  - by apply (admits_ok _ _ _ _ admitted).
  - intros h code. by apply (admits_aborting _ _ _ _ admitted).
Qed.

(** A call inside a [try]. *)
Lemma tracks_caught_call (K1 : call → Prop) (c : call) :
  S c → K1 c → tracks T K1 (invoke svc c).
Proof.
  intros Hs Hc. apply (tracks_invoke svc T K1 c); [|done].
  by apply (admits_ok _ _ _ _ admitted).
Qed.

Lemma tracks_create_user_if_not_available u o :
  S (get_user u) → S (tag_user u (expected_tags o)) →
  S (create_user u (expected_tags o)) →
  tracks T K (_create_user_if_not_available svc u o).
Proof.
  intros Hget Htag Hcreate. unfold _create_user_if_not_available.
  apply tracks_bind; [done| |].
  - apply (tracks_try_warn T
             (λ c, c = get_user u ∨ c = tag_user u (expected_tags o)) K _
             (λ _, user_does_not_exist u) (λ _, mret false)); [| |].
    + apply tracks_bind; [done| |].
      * apply (tracks_caught_call _ (get_user u)); auto.
      * intros existing_user. apply tracks_bind; [done| |].
        -- case_bool_decide; [|by apply tracks_ret].
           apply (tracks_caught_call _ (tag_user u (expected_tags o))); auto.
        -- intros _. by apply tracks_ret.
    + intros c e [->| ->]; apply T_caught; [done|constructor|done|constructor].
    + intros _. by apply tracks_ret.
  - intros [|]; [by apply tracks_ret|].
    by apply (tracks_call (create_user u (expected_tags o))).
Qed.

Lemma tracks_fetch_access_keys u :
  S (list_access_keys u) → tracks T K (_fetch_access_keys svc u).
Proof.
  intros Hs. unfold _fetch_access_keys.
  apply tracks_bind; [done|by apply (tracks_call (list_access_keys u))|].
  intros r. by apply tracks_ret.
Qed.

Lemma tracks_pick_loop items keys_by_id candidate :
  (∀ kid, S (get_access_key_last_used kid)) →
  tracks T K (pick_loop svc items keys_by_id candidate).
Proof.
  intros Hs. revert keys_by_id candidate.
  induction items as [|[kid key] items IH]; intros keys_by_id candidate; simpl.
  - by apply tracks_ret.
  - apply tracks_bind;
      [done|by apply (tracks_call (get_access_key_last_used kid))|]. intros d.
    case_bool_decide; [by apply tracks_ret|].
    destruct d as [t|]; simpl; [|apply IH].
    destruct (last_used (default _ candidate)) as [tc|]; [|apply IH].
    case_bool_decide; apply IH.
Qed.

Lemma tracks_update_user_group_membership u g :
  S (list_groups_for_user u) →
  (∀ x, S (remove_user_from_group u x)) → (∀ x, S (add_user_to_group u x)) →
  tracks T K (_update_user_group_membership svc iter u g).
Proof.
  intros Hlist Hremove Hadd. unfold _update_user_group_membership.
  apply tracks_bind; [done| |].
  - apply (tracks_try_warn T (λ c, c = list_groups_for_user u) K _
             (λ e, not_able_to_list_groups u e) (λ _, mret None)); [| |].
    + apply tracks_bind;
        [done|by apply (tracks_caught_call _ (list_groups_for_user u))|].
      intros r. by apply tracks_ret.
    + intros c e ->. apply T_caught; [done|constructor].
    + intros _. by apply tracks_ret.
  - intros [current_groups|]; [|by apply tracks_ret].
    apply tracks_bind; [done| |intros _]; apply tracks_for_each; try done.
    + intros x.
      apply (tracks_try_warn_only T (λ c, c = remove_user_from_group u x) K _
               (λ e, not_able_to_remove_user u x e)); [|].
      * by apply (tracks_caught_call _ (remove_user_from_group u x)).
      * intros c e ->. apply T_caught; [done|constructor].
    + intros x.
      apply (tracks_try_warn_only T (λ c, c = add_user_to_group u x) K _
               (λ e, not_able_to_add_user u x e)); [|].
      * by apply (tracks_caught_call _ (add_user_to_group u x)).
      * intros c e ->. apply T_caught; [done|constructor].
Qed.

Lemma tracks_get_aws_account_id :
  S get_caller_identity → tracks T K (_get_aws_account_id svc).
Proof.
  intros Hs. unfold _get_aws_account_id.
  apply tracks_bind; [done|by apply tracks_read_account_id|].
  intros [cached|]; (apply tracks_bind; [done| |]);
    try (intros _; by apply tracks_read_account_id).
  - by apply tracks_ret.
  - apply tracks_bind; [done|by apply (tracks_call get_caller_identity)|].
    intros a. by apply tracks_write_account_id.
Qed.

Lemma tracks_update_user_policies u p :
  S get_caller_identity → S (list_attached_user_policies u) →
  (∀ x, S (attach_user_policy u x)) → (∀ x, S (detach_user_policy u x)) →
  tracks T K (_update_user_policies svc iter u p).
Proof.
  intros Hsts Hlist Hattach Hdetach. unfold _update_user_policies.
  apply tracks_bind; [done| |].
  { apply tracks_for_map; [done|]. intros x. unfold _make_policy_arn.
    apply tracks_bind; [done|by apply tracks_get_aws_account_id|].
    intros a. by apply tracks_ret. }
  intros arns. apply tracks_bind; [done| |].
  - apply (tracks_try_warn T (λ c, c = list_attached_user_policies u) K _
             (λ e, failed_to_fetch_policies u e) (λ _, mret None)); [| |].
    + apply tracks_bind;
        [done|by apply (tracks_caught_call _ (list_attached_user_policies u))|].
      intros r. by apply tracks_ret.
    + intros c e ->. apply T_caught; [done|constructor].
    + intros _. by apply tracks_ret.
  - intros [current|]; [|by apply tracks_ret].
    apply tracks_bind; [done| |intros _]; apply tracks_for_each; try done.
    + intros x. unfold _attach_policy_to_user.
      apply (tracks_try_warn_only T (λ c, c = attach_user_policy u x) K _
               (λ e, failed_attaching_policy x u e)); [|].
      * by apply (tracks_caught_call _ (attach_user_policy u x)).
      * intros c e ->. apply T_caught; [done|constructor].
    + intros x. unfold _detach_policy_from_user.
      apply (tracks_try_warn_only T (λ c, c = detach_user_policy u x) K _
               (λ e, failed_detaching_policy x u e)); [|].
      * by apply (tracks_caught_call _ (detach_user_policy u x)).
      * intros c e ->. apply T_caught; [done|constructor].
Qed.

End methods.

(** ** Example sessions *)

(** A service that answers every call and does not look at the history:
    [user] is the answer to [get_user], [keys] the access keys, [used] their
    last-used dates, [grps] the groups, [pols] the attached policies. *)
Definition scripted (user : string + option (list Tag))
    (keys : list access_key) (used : string → option Z)
    (grps : list string) (pols : list attached_policy) : service :=
  λ _ c,
    match c as c return string + response c with
    | get_user _ => user
    | list_access_keys _ => inr keys
    | get_access_key_last_used kid => inr (used kid)
    | create_access_key _ =>
        inr {| new_AccessKeyId := "AKIANEW"; SecretAccessKey := "s3cr3t" |}
    | list_groups_for_user _ => inr grps
    | list_attached_user_policies _ => inr pols
    | get_caller_identity => inr (Some "123456789012")
    | _ => inr ()
    end.

(** Sets are visited in the order of [elements]. *)
Definition in_order : set_order := λ A _ _ s, elements s.

Definition fresh : state := {| trace := []; _account_id := None |}.

Definition active_key (kid : string) : access_key :=
  {| AccessKeyId := kid; UserName := "svc-a"; Status := "Active";
     CreateDate := 0; last_used := None |}.

Definition inactive_key (kid : string) : access_key :=
  {| AccessKeyId := kid; UserName := "svc-a"; Status := "Inactive";
     CreateDate := 0; last_used := None |}.

Definition managed : list Tag := [{| Key := "managedby"; Value := "keydra" |}].

(** The scenario of the specification: [svc-a] with one group and one
    policy, on an account that does not have the user yet. *)
Definition svc_a : secret :=
  {| key := "svc-a";
     config := Some {| tags := None; groups := Some (Groups ["g1"]);
                       policies := Some ["p1"] |} |}.

Example rotate_on_a_fresh_account :
  rotate (scripted (inl "NoSuchEntity") [] (λ _, None) [] []) in_order
    svc_a fresh
  = (inr [("provider", "iam"); ("key", "AKIANEW"); ("secret", "s3cr3t")],
     {| trace :=
          [Called (get_user "svc-a") false;
           Logged (user_does_not_exist "svc-a");
           Called (create_user "svc-a" managed) true;
           Called (list_access_keys "svc-a") true;
           Called (list_groups_for_user "svc-a") true;
           Called (add_user_to_group "svc-a" "g1") true;
           Called get_caller_identity true;
           Called (list_attached_user_policies "svc-a") true;
           Called (attach_user_policy "svc-a"
                     (Some "arn:aws:iam::123456789012:policy/p1")) true;
           Called (create_access_key "svc-a") true];
        _account_id := Some "123456789012" |}).
Proof. vm_compute. reflexivity. Qed.

(** ** Which errors abort [rotate] *)

(** A stretch of history in which every call that failed is followed by the
    warning about it. *)
Inductive logged : list event → Prop :=
| logged_nil : logged []
| logged_ok c t : logged t → logged (Called c true :: t)
| logged_warning w t : logged t → logged (Logged w :: t)
| logged_caught c w t :
    about w c → logged t → logged (Called c false :: Logged w :: t).

Lemma logged_app a b : logged a → logged b → logged (a ++ b).
Proof. intros Ha Hb. induction Ha; simpl; by try constructor. Qed.

Global Instance logged_closed : Closed logged.
Proof. split; [constructor | apply logged_app]. Qed.







(** [svc], but the calls in [bad] raise [AccessDenied]. *)
Definition failing (bad : call → bool) (svc : service) : service :=
  λ h c, if bad c then inl "AccessDenied" else svc h c.

(** An error of a group call is logged, and the rotation goes on. *)
Example rotate_survives_failed_group_call :
  rotate
    (failing (λ c, if c is add_user_to_group _ _ then true else false)
       (scripted (inr (Some managed)) [] (λ _, None) [] []))
    in_order svc_a fresh
  = (inr [("provider", "iam"); ("key", "AKIANEW"); ("secret", "s3cr3t")],
     {| trace :=
          [Called (get_user "svc-a") true;
           Called (list_access_keys "svc-a") true;
           Called (list_groups_for_user "svc-a") true;
           Called (add_user_to_group "svc-a" "g1") false;
           Logged (not_able_to_add_user "svc-a" "g1" "AccessDenied");
           Called get_caller_identity true;
           Called (list_attached_user_policies "svc-a") true;
           Called (attach_user_policy "svc-a"
                     (Some "arn:aws:iam::123456789012:policy/p1")) true;
           Called (create_access_key "svc-a") true];
        _account_id := Some "123456789012" |}).
Proof. vm_compute. reflexivity. Qed.

(** An error of a call on the keys ends the rotation there. *)
Example rotate_aborts_on_failed_key_listing :
  rotate
    (failing (λ c, if c is list_access_keys _ then true else false)
       (scripted (inr (Some managed)) [] (λ _, None) [] []))
    in_order svc_a fresh
  = (inl (RotationException (ClientError "AccessDenied")),
     {| trace := [Called (get_user "svc-a") true;
                  Called (list_access_keys "svc-a") false];
        _account_id := None |}).
Proof. vm_compute. reflexivity. Qed.

(** ** User provisioning *)

Definition tag_of (kv : string * string) : Tag :=
  {| Key := kv.1; Value := kv.2 |}.

(** C6.  The expected tags are [managedby=keydra] followed by the entries of
    [config.tags], in their order.  When the lookup of the user answers with
    exactly that list, nothing else is called.  When it answers with any
    other list, or with none, [tag_user] is called next with the expected
    tags, and if that succeeds provisioning is over.  When the lookup raises,
    the warning is logged and provisioning is the call of [create_user] with
    the expected tags. *)
Theorem create_user_if_not_available_spec svc iam_user options st :
  let expected := expected_tags options in
  let run := _create_user_if_not_available svc iam_user options st in
  expected
  = {| Key := "managedby"; Value := "keydra" |}
    :: (tag_of <$> default [] (options ≫= tags))
  ∧ match svc (trace st) (get_user iam_user) with
    | inr current =>
        let st1 := record (Called (get_user iam_user) true) st in
        if decide (current = Some expected) then run = (inr (), st1)
        else
          match svc (trace st1) (tag_user iam_user expected) with
          | inr _ =>
              run
              = (inr (), record (Called (tag_user iam_user expected) true) st1)
          | inl _ =>
              ∃ rest,
                trace run.2
                = trace st1
                  ++ Called (tag_user iam_user expected) false :: rest
          end
    | inl _ =>
        run
        = invoke svc (create_user iam_user expected)
            (record (Logged (user_does_not_exist iam_user))
               (record (Called (get_user iam_user) false) st))
    end.
Proof.
  intros expected run. split.
  { unfold expected, expected_tags.
    destruct (options ≫= tags) as [t|]; simpl; [|done].
    f_equal. apply list_fmap_ext. by intros ? [k v]. }
  unfold run, _create_user_if_not_available. fold expected.
  set (st1 := record (Called (get_user iam_user) true) st).
  destruct (svc (trace st) (get_user iam_user)) as [code|current] eqn:Hget.
  - rewrite (bind_inr _ _ st false
               (record (Logged (user_does_not_exist iam_user))
                  (record (Called (get_user iam_user) false) st))); [done|].
    erewrite try_except_caught; [reflexivity|].
    erewrite bind_inl; [reflexivity|].
    exact (invoke_fails svc (get_user iam_user) st code Hget).
  - pose proof (invoke_ok svc (get_user iam_user) st current Hget) as Hrun.
    fold st1 in Hrun.
    destruct (decide (current = Some expected)) as [->|Hne].
    + rewrite (bind_inr _ _ st true st1); [done|].
      apply try_except_inr. rewrite (bind_inr _ _ _ _ _ Hrun).
      rewrite bool_decide_eq_false_2 by (intros H; by apply H). done.
    + destruct (svc (trace st1) (tag_user iam_user expected))
        as [code|[]] eqn:Htag.
      * pose proof (invoke_fails svc (tag_user iam_user expected) st1 code
                      Htag) as Hrun2.
        rewrite (bind_inr _ _ st false
                   (record (Logged (user_does_not_exist iam_user))
                      (record (Called (tag_user iam_user expected) false)
                         st1))).
        -- unfold invoke. simpl.
           destruct (svc _ (create_user iam_user expected)); simpl;
             eexists; rewrite <- !app_assoc; reflexivity.
        -- erewrite try_except_caught; [reflexivity|].
           rewrite (bind_inr _ _ _ _ _ Hrun).
           rewrite bool_decide_eq_true_2 by done.
           erewrite bind_inl; [reflexivity|exact Hrun2].
      * pose proof (invoke_ok svc (tag_user iam_user expected) st1 () Htag)
          as Hrun2.
        rewrite (bind_inr _ _ st true
                   (record (Called (tag_user iam_user expected) true) st1));
          [done|].
        apply try_except_inr. rewrite (bind_inr _ _ _ _ _ Hrun).
        rewrite bool_decide_eq_true_2 by done.
        erewrite bind_inr; [reflexivity|exact Hrun2].
Qed.

(** The comparison is one of ordered lists: the expected tags in another
    order are written again. *)
Example retag_on_reordered_tags :
  let options :=
    Some {| tags := Some [("team", "core")]; groups := None;
            policies := None |} in
  let current := [{| Key := "team"; Value := "core" |};
                  {| Key := "managedby"; Value := "keydra" |}] in
  current ≡ₚ expected_tags options
  ∧ _create_user_if_not_available
      (scripted (inr (Some current)) [] (λ _, None) [] []) "svc-a" options
      fresh
    = (inr (),
       {| trace := [Called (get_user "svc-a") true;
                    Called (tag_user "svc-a" (expected_tags options)) true];
          _account_id := None |}).
Proof. split; [apply Permutation_swap | reflexivity]. Qed.

(** ** Candidate selection *)

(** [b] is [a] with some value in [last_used]. *)
Definition same_key (a b : access_key) : Prop :=
  b = set_last_used a (last_used b).

(** [after] is [before] with [last_used] written into some of its records:
    the same keys in the same order, over the same records. *)
Definition annotates (before after : list (string * access_key)) : Prop :=
  Forall2 (λ a b, a.1 = b.1 ∧ same_key a.2 b.2) before after.

Definition all_active (d : list (string * access_key)) : Prop :=
  Forall (λ r, Status r = "Active") (dict_values d).

(** The record [c], at place [i] of [recs], is the one the comparison of
    usage dates elects.  When the first record has no usage date, it is the
    first record.  When it has one, [c] has the earliest date of the records
    that have one, and is the first record with that date. *)
Definition elected (recs : list access_key) (i : nat) (c : access_key)
  : Prop :=
  recs !! i = Some c
  ∧ match head recs ≫= last_used with
    | None => i = 0%nat
    | Some _ =>
        ∃ t, last_used c = Some t
             ∧ ∀ j r t', recs !! j = Some r → last_used r = Some t' →
                         t ≤ t' ∧ ((j < i)%nat → t < t')
    end.

(** The candidate after the loop body has seen the active record [key]. *)
Definition next_candidate (key : access_key) (candidate : option access_key)
  : access_key :=
  let c := default key candidate in
  match last_used key, last_used c with
  | Some t, Some tc => if bool_decide (t < tc) then key else c
  | _, _ => c
  end.

Lemma pick_loop_cons svc kid key items keys_by_id candidate st :
  pick_loop svc ((kid, key) :: items) keys_by_id candidate st
  = (d ← invoke svc (get_access_key_last_used kid);
     let key := set_last_used key d in
     let keys_by_id := dict_set keys_by_id kid key in
     if bool_decide (Status key ≠ "Active") then mret (keys_by_id, Some key)
     else pick_loop svc items keys_by_id (Some (next_candidate key candidate)))
      st.
Proof.
  simpl. unfold mbind, M_bind.
  destruct (invoke svc (get_access_key_last_used kid) st) as [[e|d] st1];
    [done|].
  simpl. case_bool_decide; [done|]. unfold next_candidate. simpl.
  destruct d as [t|]; [|done].
  destruct (last_used (default _ candidate)) as [tc|]; [|done].
  by case_bool_decide.
Qed.

Lemma elected_first r : elected [r] 0 r.
Proof.
  split; [done|]. simpl. destruct (last_used r) as [t|] eqn:Hr; [|done].
  exists t. split; [done|]. intros j r' t' Hj Ht'.
  apply list_lookup_singleton_Some in Hj as [-> <-].
  rewrite Hr in Ht'. injection Ht' as <-. lia.
Qed.

Lemma next_candidate_first r : next_candidate r None = r.
Proof.
  unfold next_candidate. simpl. destruct (last_used r); [|done].
  by case_bool_decide.
Qed.

Lemma elected_snoc recs i c r :
  elected recs i c →
  ∃ i', elected (recs ++ [r]) i' (next_candidate r (Some c)).
Proof.
  intros [Hi Hel]. pose proof (lookup_lt_Some _ _ _ Hi) as Hlt.
  assert (head (recs ++ [r]) = head recs) as Hhead.
  { destruct recs; [simpl in Hlt; lia | done]. }
  unfold elected, next_candidate. rewrite Hhead. simpl.
  destruct (head recs ≫= last_used) as [t0|] eqn:Hfirst.
  - destruct Hel as (t & Hc & Hmin). rewrite Hc.
    destruct (last_used r) as [tr|] eqn:Hr.
    + case_bool_decide as Hcmp.
      * exists (length recs). split.
        { by rewrite lookup_app_r, Nat.sub_diag by lia. }
        exists tr. split; [done|]. intros j r' t' Hj Ht'.
        apply lookup_app_Some in Hj as [Hj|[Hge Hj]].
        -- destruct (Hmin j r' t' Hj Ht'). lia.
        -- apply list_lookup_singleton_Some in Hj as [_ <-].
           rewrite Hr in Ht'. injection Ht' as <-. lia.
      * exists i. split; [by apply lookup_app_l_Some|].
        exists t. split; [done|]. intros j r' t' Hj Ht'.
        apply lookup_app_Some in Hj as [Hj|[Hge Hj]]; [by eapply Hmin|].
        apply list_lookup_singleton_Some in Hj as [_ <-].
        rewrite Hr in Ht'. injection Ht' as <-. lia.
    + exists i. split; [by apply lookup_app_l_Some|].
      exists t. split; [done|]. intros j r' t' Hj Ht'.
      apply lookup_app_Some in Hj as [Hj|[Hge Hj]]; [by eapply Hmin|].
      apply list_lookup_singleton_Some in Hj as [_ <-]. congruence.
  - subst i. exists 0%nat.
    assert (last_used c = None) as Hc.
    { destruct recs as [|r0 recs]; [done|]. simpl in *. congruence. }
    rewrite Hc. split; [|done].
    destruct (last_used r); by apply lookup_app_l_Some.
Qed.

(** The successful lookups of the last-used dates of the keys of [d]. *)
Definition lookups (d : list (string * access_key)) : list event :=
  (λ kv, Called (get_access_key_last_used kv.1) true) <$> d.

(** The loop, from any of its iterations: [pre] are the entries it has
    seen, all active; [items] are the entries to come. *)
Lemma pick_loop_spec svc items :
  ∀ pre candidate st keys' cand' st',
    NoDup (dict_keys (pre ++ items)) →
    all_active pre →
    match candidate with
    | None => pre = []
    | Some c => ∃ i, elected (dict_values pre) i c
    end →
    pick_loop svc items (pre ++ items) candidate st
    = (inr (keys', cand'), st') →
    ∃ seen rest seen',
      items = seen ++ rest ∧ keys' = pre ++ seen' ++ rest
      ∧ annotates seen seen'
      ∧ trace st' = trace st ++ lookups seen
      ∧ _account_id st' = _account_id st
      ∧ ((∃ d0 kid c,
            seen' = d0 ++ [(kid, c)] ∧ all_active d0
            ∧ Status c ≠ "Active" ∧ cand' = Some c)
         ∨ (rest = [] ∧ all_active seen'
            ∧ match cand' with
              | None => pre ++ seen' = []
              | Some c => ∃ i, elected (dict_values (pre ++ seen')) i c
              end)).
Proof.
  induction items as [|[kid key] items IH];
    intros pre candidate st keys' cand' st' Hnodup Hactive Hcand Hrun.
  - simpl in Hrun. injection Hrun as <- <- <-.
    exists [], [], []. rewrite !app_nil_r.
    split_and!; try done; [apply Forall2_nil_2|].
    right. split_and!; try done. apply Forall_nil_2.
  - rewrite pick_loop_cons in Hrun.
    destruct (svc (trace st) (get_access_key_last_used kid)) as [code|d]
      eqn:Hsvc.
    { rewrite (bind_inl _ _ _ _ _
                 (invoke_fails svc (get_access_key_last_used kid) st code
                    Hsvc)) in Hrun. done. }
    rewrite (bind_inr _ _ _ _ _
               (invoke_ok svc (get_access_key_last_used kid) st d Hsvc))
      in Hrun.
    simpl in Hrun.
    assert (kid ∉ dict_keys pre) as Hfresh.
    { unfold dict_keys in *. rewrite fmap_app in Hnodup.
      apply NoDup_app in Hnodup as (_ & Hdisj & _).
      intros Hin. apply (Hdisj kid Hin). simpl. left. }
    rewrite dict_set_middle in Hrun by done.
    set (key' := set_last_used key d) in *.
    case_bool_decide as Hstatus.
    + injection Hrun as <- <- <-.
      exists [(kid, key)], items, [(kid, key')].
      split_and!; try done; [by apply Forall2_cons_2, Forall2_nil_2|].
      left. exists [], kid, key'. split_and!; try done. apply Forall_nil_2.
    + assert (Status key' = "Active") as Hst
        by (by destruct (decide (Status key' = "Active"))).
      rewrite (cons_middle (kid, key') pre items), app_assoc in Hrun.
      apply IH in Hrun as
          (seen & rest & seen' & -> & -> & Hann & Htr & Hacc & Hres).
      * exists ((kid, key) :: seen), rest, ((kid, key') :: seen').
        rewrite <- app_assoc in *. simpl in *.
        split_and!; try done;
          [by apply Forall2_cons_2|by rewrite Htr, <- app_assoc|].
        destruct Hres as [(d0 & kid' & c & -> & Hd0 & Hc & ->)|
                          (-> & Hseen & Hel)].
        -- left. exists ((kid, key') :: d0), kid', c.
           split_and!; try done. by apply Forall_cons_2.
        -- right. split_and!; try done. by apply Forall_cons_2.
      * unfold dict_keys in *. by rewrite <- app_assoc, !fmap_app in *.
      * unfold all_active, dict_values in *. rewrite fmap_app.
        apply Forall_app. split; [done|by repeat constructor].
      * unfold dict_values. rewrite fmap_app. simpl.
        destruct candidate as [c|].
        -- destruct Hcand as [i Hel]. exact (elected_snoc _ i c key' Hel).
        -- subst pre. rewrite next_candidate_first. exists 0%nat.
           apply elected_first.
Qed.

Lemma same_key_refl a : same_key a a.
Proof. by destruct a. Qed.

Lemma annotates_refl d : annotates d d.
Proof.
  induction d as [|a d IH]; [apply Forall2_nil_2|].
  apply Forall2_cons_2; [|done]. split; [done|apply same_key_refl].
Qed.

Lemma all_active_lookup d i kid c :
  all_active d → d !! i = Some (kid, c) → Status c = "Active".
Proof.
  unfold all_active, dict_values. rewrite Forall_fmap, Forall_lookup.
  intros Hall Hi. exact (Hall i (kid, c) Hi).
Qed.

(** The dates in the records are the ones the service has answered.  The
    loop has looked up the first [n] keys of [before], each at the history
    [h] followed by the lookups before it, and has written what the lookup
    answered into [last_used] of the record; the records after these are as
    they were. *)
Definition answered (svc : service) (h : list event)
    (before after : list (string * access_key)) (n : nat) : Prop :=
  length after = length before
  ∧ ∀ j kid key,
      before !! j = Some (kid, key) →
      if decide (j < n)%nat
      then ∃ d,
             svc (h ++ lookups (take j before)) (get_access_key_last_used kid)
             = inr d
             ∧ after !! j = Some (kid, set_last_used key d)
      else after !! j = Some (kid, key).

(** The loop, from any of its iterations, writes the answers of the service
    and nothing else into the entries to come. *)
Lemma pick_loop_answers svc items :
  ∀ pre candidate st keys' cand' st',
    NoDup (dict_keys (pre ++ items)) →
    pick_loop svc items (pre ++ items) candidate st
    = (inr (keys', cand'), st') →
    ∃ n after,
      (n ≤ length items)%nat ∧ keys' = pre ++ after
      ∧ trace st' = trace st ++ lookups (take n items)
      ∧ answered svc (trace st) items after n.
Proof.
  induction items as [|[kid key] items IH];
    intros pre candidate st keys' cand' st' Hnodup Hrun.
  - simpl in Hrun. injection Hrun as <- <- <-.
    exists 0%nat, []. split_and!; [done|done|by rewrite app_nil_r|].
    split; [done|]. by intros j kid key.
  - rewrite pick_loop_cons in Hrun.
    destruct (svc (trace st) (get_access_key_last_used kid)) as [code|d]
      eqn:Hsvc.
    { rewrite (bind_inl _ _ _ _ _
                 (invoke_fails svc (get_access_key_last_used kid) st code
                    Hsvc)) in Hrun. done. }
    rewrite (bind_inr _ _ _ _ _
               (invoke_ok svc (get_access_key_last_used kid) st d Hsvc))
      in Hrun.
    simpl in Hrun.
    assert (kid ∉ dict_keys pre) as Hfresh.
    { unfold dict_keys in *. rewrite fmap_app in Hnodup.
      apply NoDup_app in Hnodup as (_ & Hdisj & _).
      intros Hin. apply (Hdisj kid Hin). simpl. left. }
    rewrite dict_set_middle in Hrun by done.
    set (key' := set_last_used key d) in *.
    case_bool_decide as Hstatus.
    + injection Hrun as <- <- <-.
      exists 1%nat, ((kid, key') :: items).
      split_and!; [simpl; lia|done|done|].
      split; [done|]. intros [|j] kid0 key0 Hj; simpl in *.
      * injection Hj as <- <-. exists d. by rewrite app_nil_r.
      * done.
    + rewrite (cons_middle (kid, key') pre items), app_assoc in Hrun.
      apply IH in Hrun as (n & after & Hn & -> & Htr & Hlen & Hans).
      2:{ unfold dict_keys in *. by rewrite <- app_assoc, !fmap_app in *. }
      exists (S n), ((kid, key') :: after).
      split_and!; [simpl; lia|by rewrite <- app_assoc
                   |rewrite Htr; simpl; by rewrite <- app_assoc|].
      split; [simpl; by rewrite Hlen|].
      intros [|j] kid0 key0 Hj; simpl in Hj.
      * injection Hj as <- <-. rewrite decide_True by lia.
        exists d. by rewrite app_nil_r.
      * specialize (Hans j kid0 key0 Hj). simpl in Hans.
        destruct (decide (j < n)%nat) as [Hjn|Hjn].
        -- rewrite decide_True by lia. destruct Hans as (d' & Hd' & Hj').
           exists d'. split; [|done]. simpl.
           by rewrite (cons_middle _ (trace st)), app_assoc.
        -- rewrite decide_False by lia. done.
Qed.

(** C1, as the code has it.  On a dict of more than one key, when the
    lookups of the last-used dates succeed, the candidate is the record at
    some place [i] of the dict, as the loop left it, and every record before
    it is active.  The usage dates of the records are the ones
    [get_access_key_last_used] answered, each key being looked up once, in
    the order of the dict.  If the candidate is not active, the loop stopped
    there: it looked up the first [i + 1] keys and no other, and the records
    after the candidate are as they were.  Otherwise every key is active and
    was looked up, and the candidate is the first key when the service
    answered no usage date for that key, and else the first of the keys with
    the earliest of the dates the service answered. *)
Theorem pick_best_candidate_priority svc keys_by_id st keys' cand st' :
  NoDup (dict_keys keys_by_id) → (1 < length keys_by_id)%nat →
  _pick_best_candidate svc keys_by_id st = (inr (keys', cand), st') →
  ∃ i kid c,
    cand = Some c ∧ keys' !! i = Some (kid, c)
    ∧ annotates keys_by_id keys'
    ∧ all_active (take i keys')
    ∧ if decide (Status c = "Active")
      then all_active keys' ∧ elected (dict_values keys') i c
           ∧ trace st' = trace st ++ lookups keys_by_id
           ∧ answered svc (trace st) keys_by_id keys' (length keys_by_id)
      else trace st' = trace st ++ lookups (take (S i) keys_by_id)
           ∧ answered svc (trace st) keys_by_id keys' (S i).
Proof.
  intros Hnodup Hlen Hrun. unfold _pick_best_candidate in Hrun.
  destruct (pick_loop_answers svc keys_by_id [] None st keys' cand st'
              Hnodup Hrun) as (n & after & Hn & Hafter & Htrn & Hans).
  simpl in Hafter. subst after.
  assert (∀ seen : list (string * access_key),
            trace st' = trace st ++ lookups seen → n = length seen)
    as Hcount.
  { intros seen Hseen. rewrite Htrn in Hseen.
    apply app_inv_head in Hseen. apply (f_equal length) in Hseen.
    unfold lookups in Hseen. rewrite !length_fmap, length_take in Hseen.
    lia. }
  apply (pick_loop_spec svc keys_by_id []) in Hrun
      as (seen & rest & seen' & Hitems & -> & Hann & Htr & _ & Hres);
    [|done|apply Forall_nil_2|done].
  simpl in *. pose proof (Forall2_length _ _ _ Hann) as Hlen'.
  assert (annotates keys_by_id (seen' ++ rest)) as Hann'.
  { rewrite Hitems. apply Forall2_app; [done|apply annotates_refl]. }
  destruct Hres as [(d0 & kid & c & -> & Hd0 & Hc & ->)|(-> & Hseen & Hel)].
  - exists (length d0), kid, c. split_and!; try done.
    + rewrite <- app_assoc. by apply list_lookup_middle.
    + by rewrite <- app_assoc, take_app_length.
    + rewrite decide_False by done.
      rewrite length_app in Hlen'. simpl in Hlen'.
      replace (S (length d0)) with (length seen) by lia.
      rewrite <- (Hcount seen Htr). split; [|done].
      rewrite Htr. do 2 f_equal. rewrite (Hcount seen Htr).
      by rewrite Hitems, take_app_length.
  - rewrite app_nil_r in *. subst seen.
    destruct cand as [c|]; [|subst seen'; simpl in *; lia].
    destruct Hel as [i Hel]. pose proof Hel as [Hi _].
    unfold dict_values in Hi. rewrite list_lookup_fmap in Hi.
    destruct (seen' !! i) as [[kid c']|] eqn:Hi'; [|done].
    simpl in Hi. injection Hi as ->.
    exists i, kid, c. split_and!; try done.
    + unfold all_active, dict_values in *. rewrite fmap_take.
      by apply Forall_take.
    + rewrite decide_True by (by eapply all_active_lookup).
      rewrite <- (Hcount keys_by_id Htr). done.
Qed.

Definition two_active_keys : list (string * access_key) :=
  [("AKIA1", active_key "AKIA1"); ("AKIA2", active_key "AKIA2")].

(** [AKIA1] was last used at 9, [AKIA2] at 5. *)
Definition used_at_9_and_5 (kid : string) : option Z :=
  if decide (kid = "AKIA1") then Some 9 else Some 5.

(** [AKIA1] was never used, [AKIA2] was last used at 5. *)
Definition only_second_used (kid : string) : option Z :=
  if decide (kid = "AKIA2") then Some 5 else None.

Lemma pick_best_candidate_priority_witness :
  NoDup (dict_keys two_active_keys)
  ∧ (1 < length two_active_keys)%nat
  ∧ _pick_best_candidate (scripted (inr None) [] used_at_9_and_5 [] [])
      two_active_keys fresh
    = (inr ([("AKIA1", set_last_used (active_key "AKIA1") (Some 9));
             ("AKIA2", set_last_used (active_key "AKIA2") (Some 5))],
            Some (set_last_used (active_key "AKIA2") (Some 5))),
       {| trace := lookups two_active_keys; _account_id := None |})
  ∧ ∃ i kid c,
      Some (set_last_used (active_key "AKIA2") (Some 5)) = Some c
      ∧ [("AKIA1", set_last_used (active_key "AKIA1") (Some 9));
         ("AKIA2", set_last_used (active_key "AKIA2") (Some 5))] !! i
        = Some (kid, c)
      ∧ annotates two_active_keys
          [("AKIA1", set_last_used (active_key "AKIA1") (Some 9));
           ("AKIA2", set_last_used (active_key "AKIA2") (Some 5))]
      ∧ all_active
          (take i [("AKIA1", set_last_used (active_key "AKIA1") (Some 9));
                   ("AKIA2", set_last_used (active_key "AKIA2") (Some 5))])
      ∧ if decide (Status c = "Active")
        then all_active
               [("AKIA1", set_last_used (active_key "AKIA1") (Some 9));
                ("AKIA2", set_last_used (active_key "AKIA2") (Some 5))]
             ∧ elected
                 (dict_values
                    [("AKIA1", set_last_used (active_key "AKIA1") (Some 9));
                     ("AKIA2", set_last_used (active_key "AKIA2") (Some 5))])
                 i c
             ∧ lookups two_active_keys = [] ++ lookups two_active_keys
             ∧ answered (scripted (inr None) [] used_at_9_and_5 [] []) []
                 two_active_keys
                 [("AKIA1", set_last_used (active_key "AKIA1") (Some 9));
                  ("AKIA2", set_last_used (active_key "AKIA2") (Some 5))]
                 (length two_active_keys)
        else lookups two_active_keys
             = [] ++ lookups (take (S i) two_active_keys)
             ∧ answered (scripted (inr None) [] used_at_9_and_5 [] []) []
                 two_active_keys
                 [("AKIA1", set_last_used (active_key "AKIA1") (Some 9));
                  ("AKIA2", set_last_used (active_key "AKIA2") (Some 5))]
                 (S i).
Proof.
  assert (NoDup (dict_keys two_active_keys)) as H1 by compute_done.
  assert (1 < length two_active_keys)%nat as H2 by (simpl; lia).
  split; [exact H1|]. split; [exact H2|]. split; [reflexivity|].
  exact (pick_best_candidate_priority
           (scripted (inr None) [] used_at_9_and_5 [] [])
           two_active_keys fresh _ _ _ H1 H2 eq_refl).
Defined.

(** C1, as stated, fails: of two active keys, the first was never used and
    the second has a usage date, the earliest there is; the candidate is the
    first. *)
Lemma pick_prefers_first_key_without_usage_date :
  ∃ keys' c,
    (_pick_best_candidate (scripted (inr None) [] only_second_used [] [])
       two_active_keys fresh).1
    = inr (keys', Some c)
    ∧ all_active keys'
    ∧ AccessKeyId c = "AKIA1" ∧ last_used c = None
    ∧ dict_get keys' "AKIA2" ≫= last_used = Some 5.
Proof.
  eexists _, _. split; [reflexivity|].
  split; [by repeat apply Forall_cons_2|done].
Qed.

(** ** The candidate is never [None] *)

Global Instance anything_closed : Closed (λ _, True).
Proof. by split. Qed.

Definition is_lookup (c : call) : Prop :=
  ∃ kid, c = get_access_key_last_used kid.

(** When the loop raises, it raises what a lookup of a last-used date
    raised, and that lookup is the last thing that happened. *)
Lemma pick_loop_raises svc items keys_by_id candidate st e :
  (pick_loop svc items keys_by_id candidate st).1 = inl e →
  ∃ code kid,
    e = ClientError code
    ∧ last (trace (pick_loop svc items keys_by_id candidate st).2)
      = Some (Called (get_access_key_last_used kid) false).
Proof.
  intros He.
  assert (admits svc (λ _, True) is_lookup is_lookup) as Hadmits by done.
  destruct (tracks_pick_loop svc (λ _, True) is_lookup is_lookup Hadmits
              items keys_by_id candidate ltac:(by eexists) st)
    as (new & Htr & Hnew).
  rewrite He in Hnew. destruct Hnew as (code & c & pre & -> & -> & [kid ->] & _).
  exists code, kid. split; [done|]. by rewrite Htr, app_assoc, last_snoc.
Qed.

(** When the loop returns on a dict that is not empty, its candidate is one
    of the records of the dict, with its usage date. *)
Lemma pick_loop_returns svc keys_by_id st keys' cand st' :
  keys_by_id ≠ [] → NoDup (dict_keys keys_by_id) →
  pick_loop svc keys_by_id keys_by_id None st = (inr (keys', cand), st') →
  ∃ i kid key c,
    cand = Some c ∧ keys_by_id !! i = Some (kid, key)
    ∧ keys' !! i = Some (kid, c) ∧ same_key key c
    ∧ kid ∉ dict_keys (take i keys').
Proof.
  intros Hne Hnodup Hrun.
  apply (pick_loop_spec svc keys_by_id []) in Hrun
      as (seen & rest & seen' & Hitems & -> & Hann & _ & _ & Hres);
    [|done|apply Forall_nil_2|done].
  simpl in *.
  assert (annotates keys_by_id (seen' ++ rest)) as Hann'.
  { rewrite Hitems. apply Forall2_app; [done|apply annotates_refl]. }
  assert (dict_keys (seen' ++ rest) = dict_keys keys_by_id) as Hkeys.
  { unfold dict_keys. clear -Hann'.
    induction Hann' as [|a b l k [Hab _] _ IH]; [done|]. simpl. by f_equal. }
  assert (∃ i kid c, cand = Some c ∧ (seen' ++ rest) !! i = Some (kid, c))
    as (i & kid & c & -> & Hi).
  { destruct Hres as [(d0 & kid & c & -> & _ & _ & ->)|(-> & _ & Hel)].
    - exists (length d0), kid, c. split; [done|].
      rewrite <- app_assoc. by apply list_lookup_middle.
    - rewrite app_nil_r in *. subst seen.
      destruct cand as [c|];
        [|subst seen'; by apply Forall2_nil_inv_r in Hann].
      destruct Hel as [i [Hi _]].
      unfold dict_values in Hi. rewrite list_lookup_fmap in Hi.
      destruct (seen' !! i) as [[kid c']|] eqn:Hi'; [|done].
      simpl in Hi. injection Hi as ->. by exists i, kid, c. }
  destruct (Forall2_lookup_r _ _ _ _ _ Hann' Hi) as ([kid' key] & Hi' & Hk & Hs).
  simpl in *. subst kid'. exists i, kid, key, c. split_and!; try done.
  rewrite <- Hkeys in Hnodup. rewrite <- (take_drop_middle _ _ _ Hi) in Hnodup.
  unfold dict_keys in *. rewrite fmap_app in Hnodup.
  apply NoDup_app in Hnodup as (_ & Hdisj & _).
  intros Hin. apply (Hdisj kid Hin). left.
Qed.

(** C10.  On a dict that is not empty, with keys that differ,
    [_pick_best_candidate] either raises the [ClientError] of the lookup it
    made last, or returns a candidate that is not [None]: the record at some
    place of the dict, with its usage date.  So the branch of [rotate] for
    more than one key either raises in that way, or ends with the call of
    [delete_access_key] for one of the keys of the dict. *)
Theorem pick_best_candidate_never_none svc keys_by_id st :
  keys_by_id ≠ [] → NoDup (dict_keys keys_by_id) →
  match (_pick_best_candidate svc keys_by_id st).1 with
  | inr (keys', cand) =>
      ∃ i kid key c,
        cand = Some c ∧ keys_by_id !! i = Some (kid, key)
        ∧ keys' !! i = Some (kid, c) ∧ same_key key c
  | inl e =>
      ∃ code kid,
        e = ClientError code
        ∧ last (trace (_pick_best_candidate svc keys_by_id st).2)
          = Some (Called (get_access_key_last_used kid) false)
  end
  ∧ ((∃ code kid,
        (kill_one svc keys_by_id st).1 = inl (ClientError code)
        ∧ last (trace (kill_one svc keys_by_id st).2)
          = Some (Called (get_access_key_last_used kid) false))
     ∨ (∃ i kid key ok,
          keys_by_id !! i = Some (kid, key)
          ∧ last (trace (kill_one svc keys_by_id st).2)
            = Some (Called (delete_access_key (AccessKeyId key)
                              (UserName key)) ok))).
Proof.
  intros Hne Hnodup. unfold kill_one, _pick_best_candidate.
  destruct (pick_loop svc keys_by_id keys_by_id None st)
    as [[e|[keys' cand]] st1] eqn:Hrun.
  - destruct (pick_loop_raises svc keys_by_id keys_by_id None st e)
      as (code & kid & -> & Hlast); [by rewrite Hrun|].
    rewrite Hrun in Hlast. simpl in *.
    split; [by exists code, kid|]. left. exists code, kid.
    by rewrite (bind_inl _ _ _ _ _ Hrun).
  - destruct (pick_loop_returns _ _ _ _ _ _ Hne Hnodup Hrun)
      as (i & kid & key & c & -> & Hi & Hi' & Hsame & _).
    simpl. split; [by exists i, kid, key, c|]. right.
    rewrite (bind_inr _ _ _ _ _ Hrun). simpl.
    unfold _delete_access_key, mbind, M_bind, invoke.
    rewrite Hsame. simpl.
    destruct (svc (trace st1) _) as [code|[]]; simpl;
      eexists i, kid, key, _; (split; [done|]); by rewrite last_snoc.
Qed.

Lemma pick_best_candidate_never_none_witness :
  two_active_keys ≠ [] ∧ NoDup (dict_keys two_active_keys)
  ∧ ∃ i kid key ok,
      two_active_keys !! i = Some (kid, key)
      ∧ last (trace (kill_one (scripted (inr None) [] used_at_9_and_5 [] [])
                       two_active_keys fresh).2)
        = Some (Called (delete_access_key (AccessKeyId key) (UserName key))
                  ok).
Proof.
  assert (two_active_keys ≠ []) as H1 by done.
  assert (NoDup (dict_keys two_active_keys)) as H2 by compute_done.
  split; [exact H1|]. split; [exact H2|].
  destruct (proj2 (pick_best_candidate_never_none
                     (scripted (inr None) [] used_at_9_and_5 [] [])
                     two_active_keys fresh H1 H2))
    as [(code & kid & Hraise & _)|Hdel]; [discriminate Hraise|exact Hdel].
Defined.

(** ** Reconciliation of groups and policies *)

(** The state after the events [evs]. *)
Definition extend (st : state) (evs : list event) : state :=
  {| trace := trace st ++ evs; _account_id := _account_id st |}.

Lemma extend_nil st : extend st [] = st.
Proof. destruct st. unfold extend. simpl. by rewrite app_nil_r. Qed.

Lemma extend_extend st a b : extend (extend st a) b = extend st (a ++ b).
Proof. unfold extend. simpl. by rewrite app_assoc. Qed.

(** The calls of a stretch of history, in their order. *)
Definition calls_of (evs : list event) : list call :=
  omap (λ ev, match ev with Called c _ => Some c | Logged _ => None end) evs.

(** No call of the stretch failed. *)
Definition all_ok (evs : list event) : Prop :=
  Forall (λ ev, match ev with Called _ ok => ok = true | Logged _ => True end)
    evs.

(** What the service does to the groups of [user] on a call that succeeds. *)
Definition group_effect (user : string) (X : gset string) (ev : event)
  : gset string :=
  match ev with
  | Called (remove_user_from_group u g) true =>
      if decide (u = user) then X ∖ {[g]} else X
  | Called (add_user_to_group u g) true =>
      if decide (u = user) then X ∪ {[g]} else X
  | _ => X
  end.

Definition groups_after (user : string) (X : gset string) (evs : list event)
  : gset string :=
  foldl (group_effect user) X evs.

(** What the service does to the attached policies of [user] on a call that
    succeeds. *)
Definition policy_effect (user : string) (X : gset (option string))
    (ev : event) : gset (option string) :=
  match ev with
  | Called (attach_user_policy u p) true =>
      if decide (u = user) then X ∪ {[p]} else X
  | Called (detach_user_policy u p) true =>
      if decide (u = user) then X ∖ {[p]} else X
  | _ => X
  end.

Definition policies_after (user : string) (X : gset (option string))
    (evs : list event) : gset (option string) :=
  foldl (policy_effect user) X evs.

(** [body x] makes the call [mk x], logs a warning if it fails, and
    returns. *)
Definition one_call {A} (body : A → M unit) (mk : A → call) : Prop :=
  ∀ x st,
    body x st = (inr (), extend st [Called (mk x) true])
    ∨ ∃ w, body x st = (inr (), extend st [Called (mk x) false; Logged w]).

Lemma for_each_one_call {A} (body : A → M unit) (mk : A → call) l :
  one_call body mk →
  ∀ st, ∃ evs,
    for_each l body st = (inr (), extend st evs)
    ∧ calls_of evs = mk <$> l
    ∧ (all_ok evs → evs = (λ x, Called (mk x) true) <$> l).
Proof.
  intros Hbody. induction l as [|x l IH]; intros st; simpl.
  - exists []. by rewrite extend_nil.
  - destruct (Hbody x st) as [Hx|[w Hx]]; rewrite (bind_inr _ _ _ _ _ Hx).
    + destruct (IH (extend st [Called (mk x) true]))
        as (evs & -> & Hcalls & Hok).
      rewrite extend_extend. eexists. split; [reflexivity|]. simpl.
      rewrite Hcalls. split; [done|]. intros Hall.
      apply Forall_cons in Hall as [_ Hall]. by rewrite Hok.
    + destruct (IH (extend st [Called (mk x) false; Logged w]))
        as (evs & -> & Hcalls & Hok).
      rewrite extend_extend. eexists. split; [reflexivity|]. simpl.
      rewrite Hcalls. split; [done|]. intros Hall.
      by apply Forall_cons in Hall as [? _].
Qed.

Section one_call.
Context (svc : service).

Lemma one_call_remove u :
  one_call
    (λ group,
       try_except (invoke svc (remove_user_from_group u group))
         (λ e, warn (not_able_to_remove_user u group e)))
    (remove_user_from_group u).
Proof.
  intros g st. unfold try_except, invoke.
  destruct (svc (trace st) (remove_user_from_group u g)) as [e|[]]; simpl.
  - right. eexists. unfold warn, extend, record. simpl.
    by rewrite <- app_assoc.
  - by left.
Qed.

Lemma one_call_add u :
  one_call
    (λ group,
       try_except (invoke svc (add_user_to_group u group))
         (λ e, warn (not_able_to_add_user u group e)))
    (add_user_to_group u).
Proof.
  intros g st. unfold try_except, invoke.
  destruct (svc (trace st) (add_user_to_group u g)) as [e|[]]; simpl.
  - right. eexists. unfold warn, extend, record. simpl.
    by rewrite <- app_assoc.
  - by left.
Qed.

Lemma one_call_attach u :
  one_call (λ policy_arn, _attach_policy_to_user svc policy_arn u)
    (attach_user_policy u).
Proof.
  intros p st. unfold _attach_policy_to_user, try_except, invoke.
  destruct (svc (trace st) (attach_user_policy u p)) as [e|[]]; simpl.
  - right. eexists. unfold warn, extend, record. simpl.
    by rewrite <- app_assoc.
  - by left.
Qed.

Lemma one_call_detach u :
  one_call (λ policy_arn, _detach_policy_from_user svc policy_arn u)
    (detach_user_policy u).
Proof.
  intros p st. unfold _detach_policy_from_user, try_except, invoke.
  destruct (svc (trace st) (detach_user_policy u p)) as [e|[]]; simpl.
  - right. eexists. unfold warn, extend, record. simpl.
    by rewrite <- app_assoc.
  - by left.
Qed.
End one_call.

Lemma groups_after_removes u l :
  ∀ X, groups_after u X ((λ g, Called (remove_user_from_group u g) true) <$> l)
       = X ∖ list_to_set l.
Proof.
  unfold groups_after.
  induction l as [|g l IH]; intros X; simpl; [set_solver|].
  rewrite decide_True by done. rewrite IH. set_solver.
Qed.

Lemma groups_after_adds u l :
  ∀ X, groups_after u X ((λ g, Called (add_user_to_group u g) true) <$> l)
       = X ∪ list_to_set l.
Proof.
  unfold groups_after.
  induction l as [|g l IH]; intros X; simpl; [set_solver|].
  rewrite decide_True by done. rewrite IH. set_solver.
Qed.

Lemma policies_after_attaches u l :
  ∀ X, policies_after u X ((λ p, Called (attach_user_policy u p) true) <$> l)
       = X ∪ list_to_set l.
Proof.
  unfold policies_after.
  induction l as [|p l IH]; intros X; simpl; [set_solver|].
  rewrite decide_True by done. rewrite IH. set_solver.
Qed.

Lemma policies_after_detaches u l :
  ∀ X, policies_after u X ((λ p, Called (detach_user_policy u p) true) <$> l)
       = X ∖ list_to_set l.
Proof.
  unfold policies_after.
  induction l as [|p l IH]; intros X; simpl; [set_solver|].
  rewrite decide_True by done. rewrite IH. set_solver.
Qed.

Lemma groups_after_app u X a b :
  groups_after u X (a ++ b) = groups_after u (groups_after u X a) b.
Proof. apply foldl_app. Qed.

Lemma policies_after_app u X a b :
  policies_after u X (a ++ b) = policies_after u (policies_after u X a) b.
Proof. apply foldl_app. Qed.

Lemma all_ok_app a b : all_ok (a ++ b) ↔ all_ok a ∧ all_ok b.
Proof. apply Forall_app. Qed.

(** Adding what is missing after removing what is extra leaves exactly the
    configured set, and so does removing after adding. *)
Lemma sym_diff_result `{Countable A} (S C : gset A) :
  C ∖ ((C ∪ S) ∖ S) ∪ (C ∪ S) ∖ C = S
  ∧ (C ∪ (S ∪ C) ∖ C) ∖ ((S ∪ C) ∖ S) = S.
Proof.
  split; apply set_eq; intros x; destruct (decide (x ∈ S));
    destruct (decide (x ∈ C)); set_solver.
Qed.

(** The ARN of a policy of the account. *)
Definition policy_arn (account p : string) : string :=
  "arn:aws:iam::" +:+ account +:+ ":policy/" +:+ p.

(** The client knows its account: it has looked it up, or the lookup will
    answer with it. *)
Definition account_known (svc : service) (st : state) (account : string)
  : Prop :=
  _account_id st = Some account
  ∨ (_account_id st = None
     ∧ ∀ h, svc h get_caller_identity = inr (Some account)).

Definition is_account_lookup (ev : event) : Prop :=
  ev = Called get_caller_identity true.

Lemma get_aws_account_id_known svc st account :
  account_known svc st account →
  ∃ sts st1,
    _get_aws_account_id svc st = (inr (Some account), st1)
    ∧ trace st1 = trace st ++ sts ∧ Forall is_account_lookup sts
    ∧ _account_id st1 = Some account.
Proof.
  unfold _get_aws_account_id, read_account_id, write_account_id, mbind, M_bind,
    invoke.
  intros [Hc|[Hc Hsts]]; rewrite Hc; simpl.
  - exists [], st. rewrite Hc, app_nil_r. by split_and!.
  - rewrite Hsts. simpl. eexists [_], _. split_and!; try done.
    by apply Forall_singleton.
Qed.

Lemma make_policy_arns svc account l :
  ∀ st, account_known svc st account →
    ∃ sts st1,
      for_map l (_make_policy_arn svc) st
      = (inr (policy_arn account <$> l), st1)
      ∧ trace st1 = trace st ++ sts ∧ Forall is_account_lookup sts
      ∧ (l = [] ∧ st1 = st ∨ _account_id st1 = Some account).
Proof.
  induction l as [|p l IH]; intros st Hknown; simpl.
  - exists [], st. rewrite app_nil_r. split_and!; try done. by left.
  - destruct (get_aws_account_id_known svc st account Hknown)
      as (sts & st1 & Hrun & Htr & Hsts & Hacc).
    assert (_make_policy_arn svc p st = (inr (policy_arn account p), st1))
      as Hp.
    { unfold _make_policy_arn. by rewrite (bind_inr _ _ _ _ _ Hrun). }
    destruct (IH st1 (or_introl Hacc))
      as (sts2 & st2 & Hrun2 & Htr2 & Hsts2 & H2).
    assert (_account_id st2 = Some account) as Hacc2.
    { by destruct H2 as [[_ ->]|?]. }
    exists (sts ++ sts2), st2. split_and!.
    + rewrite (bind_inr _ _ _ _ _ Hp).
      by rewrite (bind_inr _ _ _ _ _ Hrun2).
    + by rewrite Htr2, Htr, app_assoc.
    + by apply Forall_app.
    + by right.
Qed.

(** A [for] loop visits every element of a set once, in some order. *)
Definition visits_once (iter : set_order) : Prop :=
  ∀ A (EqA : EqDecision A) (CA : Countable A) (s : gset A),
    iter A _ _ s ≡ₚ elements s.

Lemma visited_set (iter : set_order) `{Countable A} (s : gset A) :
  visits_once iter → list_to_set (iter A _ _ s) = s.
Proof. intros Hiter. rewrite (Hiter A _ _ s). apply list_to_set_elements_L. Qed.

(** The run of the group reconciler once the listing has answered. *)
Lemma update_user_group_membership_run (svc : service) (iter : set_order)
    u groups st current :
  svc (trace st) (list_groups_for_user u) = inr current →
  let S : gset string := list_to_set groups in
  let C : gset string := list_to_set current in
  ∃ removes adds,
    _update_user_group_membership svc iter u (Groups groups) st
    = (inr (),
       extend st (Called (list_groups_for_user u) true :: removes ++ adds))
    ∧ calls_of removes
      = remove_user_from_group u <$> iter _ _ _ ((C ∪ S) ∖ S)
    ∧ calls_of adds = add_user_to_group u <$> iter _ _ _ ((C ∪ S) ∖ C)
    ∧ (all_ok removes →
       removes = (λ g, Called (remove_user_from_group u g) true)
                 <$> iter _ _ _ ((C ∪ S) ∖ S))
    ∧ (all_ok adds →
       adds = (λ g, Called (add_user_to_group u g) true)
              <$> iter _ _ _ ((C ∪ S) ∖ C)).
Proof.
  intros Hlist S C. unfold _update_user_group_membership. fold S.
  rewrite (bind_inr _ _ st (Some C)
             (extend st [Called (list_groups_for_user u) true])).
  2:{ apply try_except_inr.
      by rewrite (bind_inr _ _ _ _ _
                    (invoke_ok svc (list_groups_for_user u) st current
                       Hlist)). }
  destruct (for_each_one_call _ _ (iter _ _ _ ((C ∪ S) ∖ S))
              (one_call_remove svc u)
              (extend st [Called (list_groups_for_user u) true]))
    as (removes & Hr & Hcr & Hokr).
  rewrite (bind_inr _ _ _ _ _ Hr).
  destruct (for_each_one_call _ _ (iter _ _ _ ((C ∪ S) ∖ C))
              (one_call_add svc u)
              (extend (extend st [Called (list_groups_for_user u) true])
                 removes))
    as (adds & Ha & Hca & Hoka).
  rewrite Ha, !extend_extend. by exists removes, adds.
Qed.

(** C4.  [S] is the configured set and [C] the current one, whatever the
    order and the repetitions of the lists they come from.  Groups: after the
    listing, the calls are a [remove_user_from_group] for each element of
    [C ∖ S], once, then an [add_user_to_group] for each element of [S ∖ C],
    once, and no other; if none of them fails, the groups of the user are
    [S].  Policies, on their ARNs: after the account lookups and the listing,
    the calls are an [attach_user_policy] for each element of [S ∖ C], once,
    then a [detach_user_policy] for each element of [C ∖ S], once, and no
    other; if none of them fails, the attached policies are [S]. *)
Theorem reconciliation_is_symmetric_difference (svc : service)
    (iter : set_order) u st :
  visits_once iter →
  (∀ groups current,
     svc (trace st) (list_groups_for_user u) = inr current →
     let S : gset string := list_to_set groups in
     let C : gset string := list_to_set current in
     ∃ removes adds,
       _update_user_group_membership svc iter u (Groups groups) st
       = (inr (),
          extend st (Called (list_groups_for_user u) true :: removes ++ adds))
       ∧ calls_of removes ≡ₚ remove_user_from_group u <$> elements (C ∖ S)
       ∧ calls_of adds ≡ₚ add_user_to_group u <$> elements (S ∖ C)
       ∧ (all_ok (removes ++ adds) →
          groups_after u C (removes ++ adds) = S))
  ∧ (∀ (policies : gset string) account attached,
       account_known svc st account →
       (∀ h, svc h (list_attached_user_policies u) = inr attached) →
       let S : gset (option string) :=
         list_to_set ((λ p, Some (policy_arn account p)) <$> elements policies)
       in
       let C : gset (option string) := list_to_set (PolicyArn <$> attached) in
       ∃ lookups attaches detaches st',
         _update_user_policies svc iter u policies st = (inr (), st')
         ∧ trace st'
           = trace st ++ lookups
             ++ Called (list_attached_user_policies u) true
                :: attaches ++ detaches
         ∧ Forall is_account_lookup lookups
         ∧ calls_of attaches ≡ₚ attach_user_policy u <$> elements (S ∖ C)
         ∧ calls_of detaches ≡ₚ detach_user_policy u <$> elements (C ∖ S)
         ∧ (all_ok (attaches ++ detaches) →
            policies_after u C (attaches ++ detaches) = S)).
Proof.
  intros Hiter. split.
  - intros groups current Hlist S C.
    destruct (update_user_group_membership_run svc iter u groups st current
                Hlist) as (removes & adds & Hrun & Hcr & Hca & Hokr & Hoka).
    fold S C in Hcr, Hca, Hokr, Hoka.
    exists removes, adds. split_and!.
    + done.
    + rewrite Hcr, (Hiter _ _ _ _). by replace ((C ∪ S) ∖ S) with (C ∖ S)
        by set_solver.
    + rewrite Hca, (Hiter _ _ _ _). by replace ((C ∪ S) ∖ C) with (S ∖ C)
        by set_solver.
    + intros [Hall1 Hall2]%all_ok_app.
      rewrite (Hokr Hall1), (Hoka Hall2).
      rewrite groups_after_app, groups_after_removes, groups_after_adds.
      rewrite !(visited_set iter) by done. apply sym_diff_result.
  - intros policies account attached Hknown Hlist S C.
    unfold _update_user_policies.
    destruct (make_policy_arns svc account (iter _ _ _ policies) st Hknown)
      as (lookups & st1 & Harns & Htr1 & Hlookups & _).
    rewrite (bind_inr _ _ _ _ _ Harns).
    assert (list_to_set (Some <$> (policy_arn account <$> iter _ _ _ policies))
            = S) as ->.
    { unfold S. rewrite <- list_fmap_compose. by rewrite (Hiter _ _ _ _). }
    rewrite (bind_inr _ _ st1 (Some C)
               (extend st1 [Called (list_attached_user_policies u) true])).
    2:{ apply try_except_inr.
        by rewrite (bind_inr _ _ _ _ _
                      (invoke_ok svc (list_attached_user_policies u) st1
                         attached (Hlist _))). }
    destruct (for_each_one_call _ _ (iter _ _ _ ((S ∪ C) ∖ C))
                (one_call_attach svc u)
                (extend st1 [Called (list_attached_user_policies u) true]))
      as (attaches & Hr & Hcr & Hokr).
    rewrite (bind_inr _ _ _ _ _ Hr).
    destruct (for_each_one_call _ _ (iter _ _ _ ((S ∪ C) ∖ S))
                (one_call_detach svc u)
                (extend
                   (extend st1 [Called (list_attached_user_policies u) true])
                   attaches))
      as (detaches & Ha & Hca & Hoka).
    rewrite Ha, !extend_extend. exists lookups, attaches, detaches.
    eexists. split_and!.
    + done.
    + simpl. by rewrite Htr1, <- app_assoc.
    + done.
    + rewrite Hcr, (Hiter _ _ _ _). by replace ((S ∪ C) ∖ C) with (S ∖ C)
        by set_solver.
    + rewrite Hca, (Hiter _ _ _ _). by replace ((S ∪ C) ∖ S) with (C ∖ S)
        by set_solver.
    + intros [Hall1 Hall2]%all_ok_app.
      rewrite (Hokr Hall1), (Hoka Hall2).
      rewrite policies_after_app, policies_after_attaches,
        policies_after_detaches.
      rewrite !(visited_set iter) by done. apply sym_diff_result.
Qed.

Lemma in_order_visits_once : visits_once in_order.
Proof. by intros A EqA CA s. Qed.

Lemma reconciliation_is_symmetric_difference_witness :
  visits_once in_order
  ∧ scripted (inr None) [] (λ _, None) ["g0"; "g1"] [] (trace fresh)
      (list_groups_for_user "svc-a")
    = inr ["g0"; "g1"]
  ∧ ∃ removes adds,
      _update_user_group_membership
        (scripted (inr None) [] (λ _, None) ["g0"; "g1"] []) in_order "svc-a"
        (Groups ["g1"; "g2"]) fresh
      = (inr (),
         extend fresh
           (Called (list_groups_for_user "svc-a") true :: removes ++ adds))
      ∧ calls_of removes
        ≡ₚ remove_user_from_group "svc-a"
           <$> elements ((list_to_set ["g0"; "g1"] : gset string)
                         ∖ list_to_set ["g1"; "g2"])
      ∧ calls_of adds
        ≡ₚ add_user_to_group "svc-a"
           <$> elements ((list_to_set ["g1"; "g2"] : gset string)
                         ∖ list_to_set ["g0"; "g1"])
      ∧ (all_ok (removes ++ adds) →
         groups_after "svc-a" (list_to_set ["g0"; "g1"]) (removes ++ adds)
         = list_to_set ["g1"; "g2"]).
Proof.
  split; [exact in_order_visits_once|]. split; [reflexivity|].
  exact (proj1 (reconciliation_is_symmetric_difference
                  (scripted (inr None) [] (λ _, None) ["g0"; "g1"] [])
                  in_order "svc-a" fresh in_order_visits_once)
           ["g1"; "g2"] ["g0"; "g1"] eq_refl).
Defined.

(** The same, run: [g0] is removed, [g2] is added, [g1] is left alone. *)
Example reconcile_groups_example :
  _update_user_group_membership
    (scripted (inr None) [] (λ _, None) ["g0"; "g1"] []) in_order "svc-a"
    (Groups ["g2"; "g1"]) fresh
  = (inr (),
     extend fresh
       [Called (list_groups_for_user "svc-a") true;
        Called (remove_user_from_group "svc-a" "g0") true;
        Called (add_user_to_group "svc-a" "g2") true]).
Proof. vm_compute. reflexivity. Qed.

(** ** A scalar group name *)

(** C7.  A group name [g] given in place of a list is reconciled as the
    list [[g]]: the reconciler is the same computation, and so is [rotate].
    The configured set is [{g}]: once the listing has answered, every current
    group other than [g] is removed, once, and [g] is added if and only if it
    is not a current group. *)
Theorem scalar_group_is_singleton (svc : service) (iter : set_order) u g :
  _update_user_group_membership svc iter u (Scalar g)
  = _update_user_group_membership svc iter u (Groups [g])
  ∧ (∀ t p,
       rotate svc iter
         {| key := u;
            config := Some {| tags := t; groups := Some (Scalar g);
                              policies := p |} |}
       = rotate svc iter
           {| key := u;
              config := Some {| tags := t; groups := Some (Groups [g]);
                                policies := p |} |})
  ∧ (∀ st current,
       visits_once iter →
       svc (trace st) (list_groups_for_user u) = inr current →
       ∃ removes adds,
         _update_user_group_membership svc iter u (Scalar g) st
         = (inr (),
            extend st
              (Called (list_groups_for_user u) true :: removes ++ adds))
         ∧ calls_of removes
           ≡ₚ remove_user_from_group u
              <$> elements ((list_to_set current : gset string) ∖ {[g]})
         ∧ calls_of adds
           = if decide (g ∈ current) then [] else [add_user_to_group u g]).
Proof.
  split; [done|]. split; [done|].
  intros st current Hiter Hlist.
  destruct (update_user_group_membership_run svc iter u [g] st current Hlist)
    as (removes & adds & Hrun & Hcr & Hca & _).
  exists removes, adds. split; [exact Hrun|].
  set (C := list_to_set current : gset string) in *.
  assert (list_to_set [g] = ({[g]} : gset string)) as Hg by set_solver.
  rewrite Hg in Hcr, Hca. split.
  - rewrite Hcr, (Hiter _ _ _ _).
    by replace ((C ∪ {[g]}) ∖ {[g]}) with (C ∖ {[g]}) by set_solver.
  - rewrite Hca. destruct (decide (g ∈ current)) as [Hin|Hout].
    + replace ((C ∪ {[g]}) ∖ C) with (∅ : gset string) by set_solver.
      pose proof (Hiter _ _ _ (∅ : gset string)) as Hperm.
      rewrite elements_empty in Hperm.
      by apply Permutation_nil_r in Hperm as ->.
    + replace ((C ∪ {[g]}) ∖ C) with ({[g]} : gset string) by set_solver.
      pose proof (Hiter _ _ _ ({[g]} : gset string)) as Hperm.
      rewrite elements_singleton in Hperm.
      by apply Permutation_singleton_r in Hperm as ->.
Qed.

Lemma scalar_group_is_singleton_witness :
  visits_once in_order
  ∧ scripted (inr None) [] (λ _, None) ["g0"] [] (trace fresh)
      (list_groups_for_user "svc-a")
    = inr ["g0"]
  ∧ ∃ removes adds,
      _update_user_group_membership
        (scripted (inr None) [] (λ _, None) ["g0"] []) in_order "svc-a"
        (Scalar "admins") fresh
      = (inr (),
         extend fresh
           (Called (list_groups_for_user "svc-a") true :: removes ++ adds))
      ∧ calls_of removes
        ≡ₚ remove_user_from_group "svc-a"
           <$> elements ((list_to_set ["g0"] : gset string) ∖ {["admins"]})
      ∧ calls_of adds
        = if decide ("admins" ∈ ["g0"]) then []
          else [add_user_to_group "svc-a" "admins"].
Proof.
  split; [exact in_order_visits_once|]. split; [reflexivity|].
  exact (proj2 (proj2 (scalar_group_is_singleton
                         (scripted (inr None) [] (λ _, None) ["g0"] [])
                         in_order "svc-a" "admins"))
           fresh ["g0"] in_order_visits_once eq_refl).
Defined.

(** ** Rotation with an inactive key *)

(** The calls that change the access keys of a user. *)
Definition changes_keys (c : call) : bool :=
  match c with
  | delete_access_key _ _ | update_access_key _ _ _ | create_access_key _ =>
      true
  | _ => false
  end.

Definition is_key_change (ev : event) : bool :=
  match ev with
  | Called c _ => changes_keys c
  | Logged _ => false
  end.

(** The changes of access keys in a stretch of history, in their order. *)
Definition key_changes (evs : list event) : list event :=
  filter (λ ev, is_key_change ev = true) evs.

(** A stretch of history without a change of access keys. *)
Definition quiet (evs : list event) : Prop := key_changes evs = [].

Global Instance quiet_closed : Closed quiet.
Proof.
  split; [done|]. unfold quiet, key_changes. intros a b Ha Hb.
  by rewrite filter_app, Ha, Hb.
Qed.

(** No call whose error would abort [rotate] ever fails. *)
Definition reliable (svc : service) : Prop :=
  ∀ h c, aborting c → ∃ r, svc h c = inr r.

Lemma reliable_admits svc :
  reliable svc →
  admits svc quiet (λ _, False) (λ c, changes_keys c = false).
Proof.
  intros Hrel. split.
  - intros c Hc. unfold quiet, key_changes.
    rewrite filter_cons_False; [done|]. simpl. by rewrite Hc.
  - intros c w Hc _. unfold quiet, key_changes.
    rewrite filter_cons_False; [done|]. simpl. by rewrite Hc.
  - intros c h code _ Hab Hfail. destruct (Hrel h c Hab) as [r Hr]. congruence.
Qed.

(** A computation that cannot raise returns, having added a quiet stretch. *)
Lemma quiet_run {A} (m : M A) st :
  tracks quiet (λ _, False) m →
  ∃ a st', m st = (inr a, st') ∧ ∃ new, trace st' = trace st ++ new ∧ quiet new.
Proof.
  intros Hm. destruct (Hm st) as (new & Htr & Hnew).
  destruct (m st) as [[e|a] st']; simpl in *.
  - by destruct Hnew as (_ & _ & _ & _ & _ & [] & _).
  - exists a, st'. split; [done|]. by exists new.
Qed.

Lemma reliable_invoke svc c st :
  reliable svc → aborting c →
  ∃ r, invoke svc c st = (inr r, extend st [Called c true]).
Proof.
  intros Hrel Hc. destruct (Hrel (trace st) c Hc) as [r Hr].
  exists r. by apply invoke_ok.
Qed.

(** The branch of [rotate] for more than one key, on two keys of which one
    is inactive: after the lookups of last-used dates, whatever they answer,
    the inactive key is deleted, and the other key is what is left. *)
Lemma kill_one_inactive svc k1 k2 st :
  reliable svc → AccessKeyId k1 ≠ AccessKeyId k2 →
  Status k1 = "Inactive" ∨ (Status k1 = "Active" ∧ Status k2 = "Inactive") →
  ∃ inactive other other' looks,
    (inactive = k1 ∧ other = k2 ∨ inactive = k2 ∧ other = k1)
    ∧ Status inactive = "Inactive" ∧ same_key other other'
    ∧ kill_one svc [(AccessKeyId k1, k1); (AccessKeyId k2, k2)] st
      = (inr [(AccessKeyId other, other')],
         extend st
           (looks
            ++ [Called (delete_access_key (AccessKeyId inactive)
                          (UserName inactive)) true]))
    ∧ quiet looks.
Proof.
  intros Hrel Hne Hstatus. unfold kill_one, _pick_best_candidate.
  destruct (reliable_invoke svc (get_access_key_last_used (AccessKeyId k1)) st
              Hrel I) as [d1 Hd1].
  set (st1 := extend st [Called (get_access_key_last_used (AccessKeyId k1))
                           true]) in *.
  destruct Hstatus as [Hs1|[Hs1 Hs2]].
  - destruct (reliable_invoke svc
                (delete_access_key (AccessKeyId k1) (UserName k1)) st1 Hrel I)
      as [[] Hdel].
    exists k1, k2, k2, [Called (get_access_key_last_used (AccessKeyId k1)) true].
    split_and!; [by left|done|apply same_key_refl| |done].
    rewrite (bind_inr _ _ st
               ([(AccessKeyId k1, set_last_used k1 d1); (AccessKeyId k2, k2)],
                Some (set_last_used k1 d1)) st1).
    + simpl. unfold _delete_access_key. simpl.
      rewrite (bind_inr _ _ _ _ _ Hdel). simpl.
      rewrite decide_True by done. unfold st1. by rewrite extend_extend.
    + rewrite pick_loop_cons, (bind_inr _ _ _ _ _ Hd1). simpl.
      rewrite decide_True by done.
      by rewrite bool_decide_eq_true_2 by (by rewrite Hs1).
  - destruct (reliable_invoke svc
                (get_access_key_last_used (AccessKeyId k2)) st1 Hrel I)
      as [d2 Hd2].
    set (st2 := extend st1 [Called (get_access_key_last_used (AccessKeyId k2))
                              true]) in *.
    destruct (reliable_invoke svc
                (delete_access_key (AccessKeyId k2) (UserName k2)) st2 Hrel I)
      as [[] Hdel].
    exists k2, k1, (set_last_used k1 d1),
      [Called (get_access_key_last_used (AccessKeyId k1)) true;
       Called (get_access_key_last_used (AccessKeyId k2)) true].
    split_and!; [by right|done|done| |done].
    rewrite (bind_inr _ _ st
               ([(AccessKeyId k1, set_last_used k1 d1);
                 (AccessKeyId k2, set_last_used k2 d2)],
                Some (set_last_used k2 d2)) st2).
    + simpl. unfold _delete_access_key. simpl.
      rewrite (bind_inr _ _ _ _ _ Hdel). simpl.
      rewrite decide_False by done. rewrite decide_True by done.
      unfold st2, st1. by rewrite !extend_extend.
    + rewrite pick_loop_cons, (bind_inr _ _ _ _ _ Hd1). simpl.
      rewrite decide_True by done.
      rewrite bool_decide_eq_false_2 by (rewrite Hs1; by intros []).
      rewrite (bind_inr _ _ _ _ _ Hd2). simpl.
      rewrite bool_decide_eq_true_2 by (by rewrite Hs2). simpl.
      rewrite decide_False by done. by rewrite decide_True by done.
Qed.

Lemma same_key_ids a b :
  same_key a b → AccessKeyId b = AccessKeyId a ∧ UserName b = UserName a.
Proof. by intros ->. Qed.

Lemma key_changes_app a b : key_changes (a ++ b) = key_changes a ++ key_changes b.
Proof. apply filter_app. Qed.

(** C2.  The user has two keys, with different ids, of which one is
    inactive; no call that would abort the rotation fails.  Whatever the
    last-used dates, [rotate] returns the new key, and the changes it makes to
    the access keys are, in this order and no other: it deletes the inactive
    key, marks the other key inactive, and creates a key. *)
Theorem rotate_with_an_inactive_key (svc : service) (iter : set_order)
    secret st k1 k2 :
  reliable svc →
  (∀ h, svc h (list_access_keys (key secret)) = inr [k1; k2]) →
  AccessKeyId k1 ≠ AccessKeyId k2 →
  Status k1 = "Inactive" ∨ (Status k1 = "Active" ∧ Status k2 = "Inactive") →
  ∃ inactive other aws_secret new,
    (inactive = k1 ∧ other = k2 ∨ inactive = k2 ∧ other = k1)
    ∧ Status inactive = "Inactive"
    ∧ (rotate svc iter secret st).1 = inr (_explain_secret aws_secret)
    ∧ trace (rotate svc iter secret st).2 = trace st ++ new
    ∧ key_changes new
      = [Called (delete_access_key (AccessKeyId inactive)
                   (UserName inactive)) true;
         Called (update_access_key (AccessKeyId other) "Inactive"
                   (UserName other)) true;
         Called (create_access_key (key secret)) true].
Proof.
  intros Hrel Hlist Hne Hstatus.
  pose proof (reliable_admits svc Hrel) as Hadm.
  set (u := key secret).
  (* provisioning *)
  destruct (quiet_run (_create_user_if_not_available svc u (config secret)) st)
    as ([] & st1 & Hrun1 & new1 & Htr1 & Hq1).
  { by apply (tracks_create_user_if_not_available svc quiet (λ _, False)
                (λ c, changes_keys c = false) Hadm). }
  (* the keys *)
  assert (_fetch_access_keys svc u st1
          = (inr [(AccessKeyId k1, k1); (AccessKeyId k2, k2)],
             extend st1 [Called (list_access_keys u) true])) as Hrun2.
  { unfold _fetch_access_keys.
    rewrite (bind_inr _ _ _ _ _
               (invoke_ok svc (list_access_keys u) st1 [k1; k2] (Hlist _))).
    unfold dict_comprehension. simpl. by rewrite decide_False by done. }
  (* one key goes *)
  destruct (kill_one_inactive svc k1 k2
              (extend st1 [Called (list_access_keys u) true]) Hrel Hne Hstatus)
    as (inactive & other & other' & looks & Hwhich & Hinactive & Hsame & Hrun3
        & Hq3).
  destruct (same_key_ids _ _ Hsame) as [Hid Hname].
  set (st3 := extend (extend st1 [Called (list_access_keys u) true])
                (looks ++ [Called (delete_access_key (AccessKeyId inactive)
                                     (UserName inactive)) true])) in *.
  (* the other is marked *)
  destruct (reliable_invoke svc
              (update_access_key (AccessKeyId other) "Inactive"
                 (UserName other)) st3 Hrel I) as [[] Hrun4].
  set (st4 := extend st3 [Called (update_access_key (AccessKeyId other)
                                    "Inactive" (UserName other)) true]) in *.
  (* groups and policies *)
  destruct (quiet_run
              (_update_user_group_membership svc iter u
                 (default (Groups []) (config secret ≫= groups))) st4)
    as ([] & st5 & Hrun5 & new5 & Htr5 & Hq5).
  { by apply (tracks_update_user_group_membership svc iter quiet (λ _, False)
                (λ c, changes_keys c = false) Hadm). }
  destruct (quiet_run
              (_update_user_policies svc iter u
                 (list_to_set (default [] (config secret ≫= policies)))) st5)
    as ([] & st6 & Hrun6 & new6 & Htr6 & Hq6).
  { by apply (tracks_update_user_policies svc iter quiet (λ _, False)
                (λ c, changes_keys c = false) Hadm). }
  (* the new key *)
  destruct (reliable_invoke svc (create_access_key u) st6 Hrel I)
    as [aws_secret Hrun7].
  assert (rotate svc iter secret st
          = (inr (_explain_secret aws_secret),
             extend st6 [Called (create_access_key u) true])) as Hrotate.
  { unfold rotate. apply try_except_inr. unfold rotate_body. fold u.
    rewrite (bind_inr _ _ _ _ _ Hrun1), (bind_inr _ _ _ _ _ Hrun2).
    rewrite bool_decide_eq_true_2 by (simpl; lia).
    rewrite (bind_inr _ _ _ _ _ Hrun3).
    rewrite bool_decide_eq_true_2 by done.
    unfold dict_values, _update_access_key. simpl. rewrite Hid, Hname.
    rewrite (bind_inr _ _ _ _ _ Hrun4), (bind_inr _ _ _ _ _ Hrun5).
    rewrite (bind_inr _ _ _ _ _ Hrun6).
    unfold _create_access_key. by rewrite (bind_inr _ _ _ _ _ Hrun7). }
  exists inactive, other, aws_secret.
  exists (new1 ++ [Called (list_access_keys u) true]
          ++ (looks ++ [Called (delete_access_key (AccessKeyId inactive)
                                  (UserName inactive)) true])
          ++ [Called (update_access_key (AccessKeyId other) "Inactive"
                        (UserName other)) true]
          ++ new5 ++ new6 ++ [Called (create_access_key u) true]).
  rewrite Hrotate. split_and!; try done.
  - simpl. rewrite Htr6, Htr5. unfold st4, st3. simpl. rewrite Htr1.
    by rewrite <- !app_assoc.
  - rewrite !key_changes_app. unfold quiet in *. by rewrite Hq1, Hq3, Hq5, Hq6.
Qed.

Lemma scripted_reliable user keys used grps pols :
  reliable (scripted user keys used grps pols).
Proof. intros h c Hc. destruct c; try done; by eexists. Qed.

Lemma rotate_with_an_inactive_key_witness :
  reliable
    (scripted (inr (Some managed)) [inactive_key "AKIA1"; active_key "AKIA2"]
       used_at_9_and_5 ["g1"] [])
  ∧ (∀ h,
       scripted (inr (Some managed))
         [inactive_key "AKIA1"; active_key "AKIA2"] used_at_9_and_5 ["g1"] []
         h (list_access_keys (key svc_a))
       = inr [inactive_key "AKIA1"; active_key "AKIA2"])
  ∧ AccessKeyId (inactive_key "AKIA1") ≠ AccessKeyId (active_key "AKIA2")
  ∧ (Status (inactive_key "AKIA1") = "Inactive"
     ∨ Status (inactive_key "AKIA1") = "Active"
       ∧ Status (active_key "AKIA2") = "Inactive")
  ∧ ∃ inactive other aws_secret new,
      (inactive = inactive_key "AKIA1" ∧ other = active_key "AKIA2"
       ∨ inactive = active_key "AKIA2" ∧ other = inactive_key "AKIA1")
      ∧ Status inactive = "Inactive"
      ∧ (rotate
           (scripted (inr (Some managed))
              [inactive_key "AKIA1"; active_key "AKIA2"] used_at_9_and_5
              ["g1"] [])
           in_order svc_a fresh).1
        = inr (_explain_secret aws_secret)
      ∧ trace
          (rotate
             (scripted (inr (Some managed))
                [inactive_key "AKIA1"; active_key "AKIA2"] used_at_9_and_5
                ["g1"] [])
             in_order svc_a fresh).2
        = trace fresh ++ new
      ∧ key_changes new
        = [Called (delete_access_key (AccessKeyId inactive)
                     (UserName inactive)) true;
           Called (update_access_key (AccessKeyId other) "Inactive"
                     (UserName other)) true;
           Called (create_access_key (key svc_a)) true].
Proof.
  assert (AccessKeyId (inactive_key "AKIA1") ≠ AccessKeyId (active_key "AKIA2"))
    as Hne by done.
  split; [apply scripted_reliable|]. split; [done|]. split; [exact Hne|].
  split; [by left|].
  exact (rotate_with_an_inactive_key
           (scripted (inr (Some managed))
              [inactive_key "AKIA1"; active_key "AKIA2"] used_at_9_and_5
              ["g1"] [])
           in_order svc_a fresh (inactive_key "AKIA1") (active_key "AKIA2")
           (scripted_reliable _ _ _ _ _) (λ _, eq_refl) Hne
           (or_introl eq_refl)).
Defined.

(** The same, run.  The inactive key [AKIA1] was used last, at 9, and the
    active key [AKIA2] at 5: the dates would elect [AKIA2]; [AKIA1] goes. *)
Example two_keys_one_inactive_example :
  rotate
    (scripted (inr (Some managed)) [inactive_key "AKIA1"; active_key "AKIA2"]
       used_at_9_and_5 ["g1"] [])
    in_order svc_a fresh
  = (inr [("provider", "iam"); ("key", "AKIANEW"); ("secret", "s3cr3t")],
     {| trace :=
          [Called (get_user "svc-a") true;
           Called (list_access_keys "svc-a") true;
           Called (get_access_key_last_used "AKIA1") true;
           Called (delete_access_key "AKIA1" "svc-a") true;
           Called (update_access_key "AKIA2" "Inactive" "svc-a") true;
           Called (list_groups_for_user "svc-a") true;
           Called get_caller_identity true;
           Called (list_attached_user_policies "svc-a") true;
           Called (attach_user_policy "svc-a"
                     (Some "arn:aws:iam::123456789012:policy/p1")) true;
           Called (create_access_key "svc-a") true];
        _account_id := Some "123456789012" |}).
Proof. vm_compute. reflexivity. Qed.

(** * Further properties *)

(** ** The account id *)

(** X1.  Once [_get_aws_account_id] has returned an account, it returns the
    same account again without calling STS: the state it left is the state
    it leaves. *)
Theorem account_id_is_cached svc st account st1 :
  _get_aws_account_id svc st = (inr (Some account), st1) →
  _get_aws_account_id svc st1 = (inr (Some account), st1).
Proof.
  unfold _get_aws_account_id, read_account_id, write_account_id, mbind, M_bind,
    invoke.
  destruct (_account_id st) as [cached|] eqn:Hcached; simpl.
  - rewrite Hcached. intros [= <- <-]. by rewrite Hcached; simpl; rewrite Hcached.
  - destruct (svc (trace st) get_caller_identity) as [code|answer]; [done|].
    simpl. by intros [= -> <-].
Qed.

Lemma account_id_is_cached_witness :
  _get_aws_account_id (scripted (inr None) [] (λ _, None) [] []) fresh
  = (inr (Some "123456789012"),
     {| trace := [Called get_caller_identity true];
        _account_id := Some "123456789012" |})
  ∧ _get_aws_account_id (scripted (inr None) [] (λ _, None) [] [])
      {| trace := [Called get_caller_identity true];
         _account_id := Some "123456789012" |}
    = (inr (Some "123456789012"),
       {| trace := [Called get_caller_identity true];
          _account_id := Some "123456789012" |}).
Proof.
  split; [reflexivity|].
  exact (account_id_is_cached (scripted (inr None) [] (λ _, None) [] []) fresh
           "123456789012" _ eq_refl).
Defined.

(** X2.  An identity without an [Account] is not cached: when
    [_get_aws_account_id] returns [None] it has just asked STS, the field is
    still empty, and the next call asks STS again. *)
Theorem missing_account_is_not_cached svc st st1 :
  _get_aws_account_id svc st = (inr None, st1) →
  st1 = extend st [Called get_caller_identity true]
  ∧ _account_id st1 = None
  ∧ ∃ ok,
      trace (_get_aws_account_id svc st1).2
      = trace st1 ++ [Called get_caller_identity ok].
Proof.
  unfold _get_aws_account_id, read_account_id, write_account_id, mbind, M_bind,
    invoke.
  destruct (_account_id st) as [cached|] eqn:Hcached; simpl.
  - rewrite Hcached. by intros [=].
  - destruct (svc (trace st) get_caller_identity) as [code|answer]; [done|].
    simpl. intros [= -> <-]. unfold extend. rewrite Hcached.
    split; [done|]. split; [done|]. simpl.
    destruct (svc _ get_caller_identity); by eexists.
Qed.

(** A service whose caller identity has no [Account]. *)
Definition anonymous : service :=
  λ h c,
    match c as c return string + response c with
    | get_caller_identity => inr None
    | c => scripted (inr None) [] (λ _, None) [] [] h c
    end.

Lemma missing_account_is_not_cached_witness :
  _get_aws_account_id anonymous fresh
  = (inr None, extend fresh [Called get_caller_identity true])
  ∧ ∃ ok,
      trace (_get_aws_account_id anonymous
               (extend fresh [Called get_caller_identity true])).2
      = trace (extend fresh [Called get_caller_identity true])
        ++ [Called get_caller_identity ok].
Proof.
  split; [reflexivity|].
  destruct (missing_account_is_not_cached anonymous fresh
              (extend fresh [Called get_caller_identity true]) eq_refl)
    as (_ & _ & Hagain).
  exact Hagain.
Defined.

(** ** The dict of access keys *)

Lemma dict_set_length {V} (d : list (string * V)) k v :
  (length (dict_set d k v) ≤ S (length d))%nat.
Proof.
  induction d as [|[k0 v0] d IH]; simpl; [lia|].
  destruct (decide (k0 = k)); simpl; lia.
Qed.

(** What a comprehension leaves under a key: the last element with that
    key. *)
Lemma dict_get_comprehension {V} (key : V → string) (l : list V) kid :
  dict_get (dict_comprehension key l) kid
  = last (filter (λ x, key x = kid) l).
Proof.
  unfold dict_comprehension.
  assert (∀ d : list (string * V),
            dict_get (foldl (λ d x, dict_set d (key x) x) d l) kid
            = from_option Some (dict_get d kid)
                (last (filter (λ x, key x = kid) l))) as Hfold.
  { induction l as [|x l IH]; intros d; simpl; [done|].
    rewrite IH. destruct (decide (key x = kid)) as [Hx|Hx].
    - rewrite filter_cons_True by done. rewrite last_cons.
      subst kid. rewrite dict_get_set_eq. by destruct (last _).
    - rewrite filter_cons_False by done. by rewrite dict_get_set_ne. }
  rewrite Hfold. by destruct (last _).
Qed.

Lemma dict_comprehension_length {V} (key : V → string) (l : list V) :
  (length (dict_comprehension key l) ≤ length l)%nat.
Proof.
  unfold dict_comprehension.
  assert (∀ d : list (string * V),
            (length (foldl (λ d x, dict_set d (key x) x) d l)
             ≤ length d + length l)%nat) as Hfold.
  { induction l as [|x l IH]; intros d; simpl; [lia|].
    pose proof (IH (dict_set d (key x) x)).
    pose proof (dict_set_length d (key x) x). lia. }
  apply (Hfold []).
Qed.

(** X3.  When the listing answers, [_fetch_access_keys] returns a dict in
    which every id occurs once; under an id it holds the last record of the
    listing with that id, so each record of the dict is a record of the
    listing, filed under its own [AccessKeyId], and every id of the listing
    is a key of the dict.  The dict is no longer than the listing. *)
Theorem fetch_access_keys_spec svc user st listing :
  svc (trace st) (list_access_keys user) = inr listing →
  ∃ keys_by_id,
    _fetch_access_keys svc user st
    = (inr keys_by_id, extend st [Called (list_access_keys user) true])
    ∧ NoDup (dict_keys keys_by_id)
    ∧ (∀ kid,
         dict_get keys_by_id kid
         = last (filter (λ k, AccessKeyId k = kid) listing))
    ∧ (∀ kid k,
         dict_get keys_by_id kid = Some k → AccessKeyId k = kid ∧ k ∈ listing)
    ∧ (∀ k, k ∈ listing → is_Some (dict_get keys_by_id (AccessKeyId k)))
    ∧ (length keys_by_id ≤ length listing)%nat.
Proof.
  intros Hlist. exists (dict_comprehension AccessKeyId listing).
  split_and!.
  - unfold _fetch_access_keys.
    by rewrite (bind_inr _ _ _ _ _
                  (invoke_ok svc (list_access_keys user) st listing Hlist)).
  - apply dict_comprehension_NoDup.
  - apply dict_get_comprehension.
  - intros kid k. rewrite dict_get_comprehension. intros Hlast.
    apply last_Some_elem_of in Hlast.
    apply list_elem_of_filter in Hlast as [? ?]. done.
  - intros k Hk. rewrite dict_get_comprehension.
    destruct (last _) eqn:Hlast; [by eexists|].
    apply last_None in Hlast.
    assert (k ∈ @nil access_key) as Hin
      by (rewrite <- Hlast; by apply list_elem_of_filter).
    by apply not_elem_of_nil in Hin.
  - apply dict_comprehension_length.
Qed.

(** A listing in which [AKIA1] comes twice. *)
Definition listing_with_a_repeat : list access_key :=
  [active_key "AKIA1"; active_key "AKIA2"; inactive_key "AKIA1"].

Lemma fetch_access_keys_spec_witness :
  scripted (inr None) listing_with_a_repeat (λ _, None) [] [] (trace fresh)
    (list_access_keys "svc-a")
  = inr listing_with_a_repeat
  ∧ ∃ keys_by_id,
      _fetch_access_keys
        (scripted (inr None) listing_with_a_repeat (λ _, None) [] [])
        "svc-a" fresh
      = (inr keys_by_id, extend fresh [Called (list_access_keys "svc-a") true])
      ∧ dict_get keys_by_id "AKIA1" = Some (inactive_key "AKIA1")
      ∧ (length keys_by_id ≤ 3)%nat.
Proof.
  split; [reflexivity|].
  destruct (fetch_access_keys_spec
              (scripted (inr None) listing_with_a_repeat (λ _, None) [] [])
              "svc-a" fresh listing_with_a_repeat eq_refl)
    as (keys_by_id & Hrun & _ & Hget & _ & _ & Hlen).
  exists keys_by_id. split; [exact Hrun|]. split; [|exact Hlen].
  rewrite (Hget "AKIA1"). reflexivity.
Defined.

(** ** Redaction, again *)

Lemma dict_set_set {V} (d : list (string * V)) k v v' :
  dict_set (dict_set d k v) k v' = dict_set d k v'.
Proof.
  induction d as [|[k0 v0] d IH]; simpl.
  - by rewrite decide_True.
  - destruct (decide (k0 = k)) as [->|Hne]; simpl.
    + by rewrite decide_True.
    + rewrite decide_False by done. by rewrite IH.
Qed.

Lemma dict_set_same {V} (d : list (string * V)) k v :
  dict_get d k = Some v → dict_set d k v = d.
Proof.
  induction d as [|[k0 v0] d IH]; simpl; [done|].
  destruct (decide (k0 = k)) as [->|Hne].
  - by intros [= ->].
  - intros Hd. by rewrite IH.
Qed.

(** X4.  Redaction is idempotent: whatever [redact_result] returns, on any
    result at all, it returns unchanged when given it again. *)
Theorem redact_result_idempotent result result' :
  redact_result result = inr result' →
  redact_result result' = inr result'.
Proof.
  unfold redact_result.
  destruct (dict_get result "value") as [value|] eqn:Hvalue.
  - destruct value as [| | |s|l|value].
    1-3: done.
    + destruct (is_substring PW_FIELD s) eqn:Hs; [done|].
      intros [= <-]. by rewrite Hvalue, Hs.
    + destruct (existsb (is_str PW_FIELD) l) eqn:Hl; [done|].
      intros [= <-]. by rewrite Hvalue, Hl.
    + destruct (dict_in PW_FIELD value) eqn:Hin.
      * intros [= <-]. rewrite dict_get_set_eq.
        assert (dict_in PW_FIELD (dict_set value PW_FIELD (PStr "***")) = true)
          as -> by (apply bool_decide_eq_true; rewrite dict_get_set_eq;
                    by eexists).
        by rewrite !dict_set_set.
      * intros [= <-]. by rewrite Hvalue, Hin.
  - intros [= <-]. by rewrite Hvalue.
Qed.

Lemma redact_result_idempotent_witness :
  redact_result envelope
  = inr [("value", PDict [("secret", PStr "***"); ("key", PStr "AKIA...")])]
  ∧ redact_result
      [("value", PDict [("secret", PStr "***"); ("key", PStr "AKIA...")])]
    = inr [("value", PDict [("secret", PStr "***"); ("key", PStr "AKIA...")])].
Proof.
  split; [reflexivity|].
  exact (redact_result_idempotent envelope _ eq_refl).
Defined.

(** ** Validation, again *)

(** X5.  What [validate_spec] answers on a spec that passes the base
    validation and has a mapping for [config]: the options are checked in the
    order [tags], [groups], [policies], and the first that holds a truthy
    value of another type than its own is the one reported; the keys are
    looked at only when no option is reported, and then every key of [config]
    outside the three is reported, and no other. *)
Theorem validate_spec_reason
    (BaseProvider_validate_spec : list (string * pyval) → bool * pystr)
    (spec : list (string * pyval)) (msg : pystr)
    (config : list (string * pyval)) :
  BaseProvider_validate_spec spec = (true, msg) →
  dict_get spec "config" = Some (PDict config) →
  (mistyped config "tags" Tdict →
   validate_spec BaseProvider_validate_spec spec
   = inr (false, Format "{} must be a {}" [FStr "tags"; FType Tdict]))
  ∧ (¬ mistyped config "tags" Tdict → mistyped config "groups" Tlist →
     validate_spec BaseProvider_validate_spec spec
     = inr (false, Format "{} must be a {}" [FStr "groups"; FType Tlist]))
  ∧ (¬ mistyped config "tags" Tdict → ¬ mistyped config "groups" Tlist →
     mistyped config "policies" Tlist →
     validate_spec BaseProvider_validate_spec spec
     = inr (false, Format "{} must be a {}" [FStr "policies"; FType Tlist]))
  ∧ (¬ mistyped config "tags" Tdict → ¬ mistyped config "groups" Tlist →
     ¬ mistyped config "policies" Tlist → unsupported config →
     ∃ ks,
       validate_spec BaseProvider_validate_spec spec
       = inr (false,
              Format "Unsupported values in provider config: {}" [FKeys ks])
       ∧ ∀ k, k ∈ ks
              ↔ k ∈ dict_keys config ∧ k ∉ ["tags"; "groups"; "policies"]).
Proof.
  intros Hbase Hconfig. unfold validate_spec. rewrite Hbase, Hconfig. simpl.
  pose proof (check_one_true config "tags" Tdict) as Htags.
  pose proof (check_one_true config "groups" Tlist) as Hgroups.
  pose proof (check_one_true config "policies" Tlist) as Hpolicies.
  pose proof (unknown_vals_nil config) as Hunknown.
  destruct (truthy (default PNone (dict_get config "tags")) && _) eqn:E1.
  { split_and!; [done|intros []; by apply Htags..]. }
  destruct (truthy (default PNone (dict_get config "groups")) && _) eqn:E2.
  { split_and!; [intros H; apply Htags in H; congruence|done
                 |intros _ []; by apply Hgroups..]. }
  destruct (truthy (default PNone (dict_get config "policies")) && _) eqn:E3.
  { split_and!; [intros H; apply Htags in H; congruence
                 |intros _ H; apply Hgroups in H; congruence
                 |done|intros _ _ []; by apply Hpolicies]. }
  split_and!.
  - intros H. apply Htags in H. congruence.
  - intros _ H. apply Hgroups in H. congruence.
  - intros _ _ H. apply Hpolicies in H. congruence.
  - intros _ _ _ Hunsupported.
    rewrite bool_decide_eq_false_2 by (intros Hnil; by apply Hunknown in Hnil).
    simpl. eexists. split; [done|]. intros k. unfold unknown_vals.
    rewrite list_elem_of_filter. simpl. tauto.
Qed.

Lemma validate_spec_reason_witness :
  base_accepts
    [("config",
      PDict [("groups", PStr "admins"); ("policies", PInt 3);
             ("colour", PNone)])]
  = (true, Lit "It is valid!")
  ∧ ¬ mistyped
        [("groups", PStr "admins"); ("policies", PInt 3); ("colour", PNone)]
        "tags" Tdict
  ∧ mistyped
      [("groups", PStr "admins"); ("policies", PInt 3); ("colour", PNone)]
      "groups" Tlist
  ∧ validate_spec base_accepts
      [("config",
        PDict [("groups", PStr "admins"); ("policies", PInt 3);
               ("colour", PNone)])]
    = inr (false, Format "{} must be a {}" [FStr "groups"; FType Tlist]).
Proof.
  assert (¬ mistyped
              [("groups", PStr "admins"); ("policies", PInt 3);
               ("colour", PNone)] "tags" Tdict) as Hnot
    by (by intros (v & Hv & _)).
  assert (mistyped
            [("groups", PStr "admins"); ("policies", PInt 3);
             ("colour", PNone)] "groups" Tlist) as Hgroups
    by (by exists (PStr "admins")).
  split; [reflexivity|]. split; [exact Hnot|]. split; [exact Hgroups|].
  exact (proj1 (proj2 (validate_spec_reason base_accepts
                         [("config",
                           PDict [("groups", PStr "admins");
                                  ("policies", PInt 3); ("colour", PNone)])]
                         (Lit "It is valid!") _ eq_refl eq_refl))
           Hnot Hgroups).
Defined.

(** X6.  [validate_spec] raises in one case and no other: the spec passes
    the base validation and holds under [config] something that is not a
    mapping ([config: null], a string, a list).  What it raises then is
    [AttributeError]; it does not answer [(False, reason)]. *)
Theorem validate_spec_raises
    (BaseProvider_validate_spec : list (string * pyval) → bool * pystr)
    (spec : list (string * pyval)) :
  ((∃ e, validate_spec BaseProvider_validate_spec spec = inl e)
   ↔ (BaseProvider_validate_spec spec).1 = true
     ∧ ∃ v, dict_get spec "config" = Some v ∧ type_of v ≠ Tdict)
  ∧ ∀ e, validate_spec BaseProvider_validate_spec spec = inl e →
         ∃ m, e = AttributeError m.
Proof.
  unfold validate_spec.
  destruct (BaseProvider_validate_spec spec) as [[|] msg]; simpl.
  - destruct (dict_get spec "config") as [v|] eqn:Hv.
    + destruct v as [| | | | |config]; simpl.
      1-5: split; [|intros e [= <-]; by eexists];
           split; [intros _; split; [done|]; by eexists | by eexists].
      split; [|intros e He; exfalso; by repeat case_match].
      split; [|by intros (_ & v & [= <-] & ?)].
      intros [e He]. exfalso. by repeat case_match.
    + split; [|done].
      split; [by intros [? ?] | by intros (_ & ? & ? & _)].
  - split; [|done]. split; [by intros [? ?] | by intros [? _]].
Qed.

(** [config: null] passes the base validation and makes [validate_spec]
    raise. *)
Example validate_spec_raises_on_null_config :
  validate_spec base_accepts [("key", PStr "svc-a"); ("config", PNone)]
  = inl (AttributeError "object has no attribute 'get'").
Proof. reflexivity. Qed.

(** ** Provisioning, again *)

(** X7.  In every run of [_create_user_if_not_available]: [create_user] is
    called exactly when the lookup of the user or the writing of the tags has
    failed, a failure of [tag_user] being logged as a user that does not
    exist; the only error that gets out is the one of [create_user], made
    last; and there are at most three calls. *)
Theorem create_user_only_after_a_failure svc iam_user options st :
  let expected := expected_tags options in
  let run := _create_user_if_not_available svc iam_user options st in
  ∃ new,
    trace run.2 = trace st ++ new
    ∧ ((∃ ok, Called (create_user iam_user expected) ok ∈ new)
       ↔ Called (get_user iam_user) false ∈ new
         ∨ Called (tag_user iam_user expected) false ∈ new)
    ∧ (Called (tag_user iam_user expected) false ∈ new →
       Logged (user_does_not_exist iam_user) ∈ new)
    ∧ (∀ e, run.1 = inl e →
       ∃ code,
         e = ClientError code
         ∧ last new = Some (Called (create_user iam_user expected) false))
    ∧ (length (calls_of new) ≤ 3)%nat.
Proof.
  intros expected run. unfold run, _create_user_if_not_available.
  fold expected. unfold try_except, mbind, M_bind, warn, invoke.
  destruct (svc (trace st) (get_user iam_user)) as [code|current]; simpl.
  - destruct (svc _ (create_user iam_user expected)) as [code'|[]]; simpl;
      (eexists; split; [rewrite <- !app_assoc; reflexivity|]);
      (split_and!; [set_solver|set_solver| |simpl; lia]).
    + intros e [= <-]. by eexists.
    + done.
  - case_bool_decide; simpl.
    + destruct (svc _ (tag_user iam_user expected)) as [code|[]]; simpl.
      * destruct (svc _ (create_user iam_user expected)) as [code'|[]]; simpl;
          (eexists; split; [rewrite <- !app_assoc; reflexivity|]);
          (split_and!; [set_solver|set_solver| |simpl; lia]).
        -- intros e [= <-]. by eexists.
        -- done.
      * eexists; split; [rewrite <- !app_assoc; reflexivity|].
        split_and!; [|set_solver|done|simpl; lia].
        split; [intros [ok Hin]|intros [Hin|Hin]]; set_solver.
    + eexists; split; [reflexivity|].
      split_and!; [|set_solver|done|simpl; lia].
      split; [intros [ok Hin]|intros [Hin|Hin]]; set_solver.
Qed.

(** The lookup answers with other tags, the writing of the tags is denied:
    the user is taken for missing, and its creation is attempted. *)
Example create_user_after_a_denied_tag_user :
  _create_user_if_not_available
    (failing (λ c, if c is tag_user _ _ then true else false)
       (scripted (inr (Some [])) [] (λ _, None) [] []))
    "svc-a" None fresh
  = (inr (),
     extend fresh
       [Called (get_user "svc-a") true;
        Called (tag_user "svc-a" managed) false;
        Logged (user_does_not_exist "svc-a");
        Called (create_user "svc-a" managed) true]).
Proof. reflexivity. Qed.

(** ** The stages of a rotation *)

(** The two [if] blocks of [rotate], by name. *)
Definition kill_if_many (svc : service)
    (keys_by_id : list (string * access_key))
  : M (list (string * access_key)) :=
  if bool_decide (1 < length keys_by_id)%nat
  then kill_one svc keys_by_id
  else mret keys_by_id.

Definition deactivate_last (svc : service)
    (keys_by_id : list (string * access_key)) : M unit :=
  if bool_decide (length keys_by_id = 1%nat)
  then
    match dict_values keys_by_id with
    | r_candidate :: _ =>
        _update_access_key svc (UserName r_candidate)
          (AccessKeyId r_candidate) false
    | [] => mret ()
    end
  else mret ().

Lemma rotate_body_stages svc iter secret :
  rotate_body svc iter secret
  = (_create_user_if_not_available svc (key secret) (config secret);;
     keys_by_id ← _fetch_access_keys svc (key secret);
     keys_by_id ← kill_if_many svc keys_by_id;
     deactivate_last svc keys_by_id;;
     _update_user_group_membership svc iter (key secret)
       (default (Groups []) (config secret ≫= groups));;
     _update_user_policies svc iter (key secret)
       (list_to_set (default [] (config secret ≫= policies)));;
     aws_secret ← _create_access_key svc (key secret);
     mret (_explain_secret aws_secret)).
Proof. reflexivity. Qed.

Section stages.
Context (svc : service) (T : list event → Prop) `{!Closed T}.
Context (K S : call → Prop) (admitted : admits svc T K S).

Lemma tracks_kill_if_many keys_by_id :
  (∀ kid, S (get_access_key_last_used kid)) →
  (∀ kid u, S (delete_access_key kid u)) →
  tracks T K (kill_if_many svc keys_by_id).
Proof.
  intros Hlook Hdel. unfold kill_if_many.
  case_bool_decide; [|by apply tracks_ret]. unfold kill_one.
  apply tracks_bind; [done|by eapply tracks_pick_loop|].
  intros [keys' [r_candidate|]]; [|by apply tracks_ret].
  apply tracks_bind; [done| |intros _; by apply tracks_ret].
  by apply (tracks_call svc T K S admitted (delete_access_key _ _)).
Qed.

Lemma tracks_deactivate_last keys_by_id :
  (∀ kid s u, S (update_access_key kid s u)) →
  tracks T K (deactivate_last svc keys_by_id).
Proof.
  intros Hupd. unfold deactivate_last.
  case_bool_decide; [|by apply tracks_ret].
  destruct (dict_values keys_by_id); [by apply tracks_ret|].
  by apply (tracks_call svc T K S admitted (update_access_key _ _ _)).
Qed.
End stages.

Lemma reliable_admits_all svc :
  reliable svc → admits svc (λ _, True) (λ _, False) (λ _, True).
Proof.
  intros Hrel. split; [done..|].
  intros c h code _ Hab Hfail. destruct (Hrel h c Hab) as [r Hr]. congruence.
Qed.

(** A computation that cannot raise returns. *)
Lemma reliable_returns {A} (m : M A) st :
  tracks (λ _, True) (λ _, False) m → ∃ a st', m st = (inr a, st').
Proof.
  intros Hm. destruct (Hm st) as (new & _ & Hnew).
  destruct (m st) as [[e|a] st']; simpl in *.
  - by destruct Hnew as (_ & _ & _ & _ & _ & [] & _).
  - by exists a, st'.
Qed.

(** On a service on which no aborting call fails, [rotate] goes through
    all its stages and returns; these are the states between the stages. *)
Lemma rotate_reliable_stages (svc : service) (iter : set_order) secret st :
  reliable svc →
  ∃ st1 listing keys' st3 st4 st5 st6 aws_secret,
    _create_user_if_not_available svc (key secret) (config secret) st
    = (inr (), st1)
    ∧ svc (trace st1) (list_access_keys (key secret)) = inr listing
    ∧ kill_if_many svc (dict_comprehension AccessKeyId listing)
        (extend st1 [Called (list_access_keys (key secret)) true])
      = (inr keys', st3)
    ∧ deactivate_last svc keys' st3 = (inr (), st4)
    ∧ _update_user_group_membership svc iter (key secret)
        (default (Groups []) (config secret ≫= groups)) st4
      = (inr (), st5)
    ∧ _update_user_policies svc iter (key secret)
        (list_to_set (default [] (config secret ≫= policies))) st5
      = (inr (), st6)
    ∧ svc (trace st6) (create_access_key (key secret)) = inr aws_secret
    ∧ rotate svc iter secret st
      = (inr (_explain_secret aws_secret),
         extend st6 [Called (create_access_key (key secret)) true]).
Proof.
  intros Hrel. pose proof (reliable_admits_all svc Hrel) as Hadm.
  set (u := key secret).
  destruct (reliable_returns
              (_create_user_if_not_available svc u (config secret)) st)
    as ([] & st1 & Hrun1).
  { by apply (tracks_create_user_if_not_available svc _ _ _ Hadm). }
  destruct (Hrel (trace st1) (list_access_keys u) I) as [listing Hlist].
  set (st2 := extend st1 [Called (list_access_keys u) true]).
  assert (_fetch_access_keys svc u st1
          = (inr (dict_comprehension AccessKeyId listing), st2)) as Hrun2.
  { unfold _fetch_access_keys.
    by rewrite (bind_inr _ _ _ _ _
                  (invoke_ok svc (list_access_keys u) st1 listing Hlist)). }
  destruct (reliable_returns
              (kill_if_many svc (dict_comprehension AccessKeyId listing)) st2)
    as (keys' & st3 & Hrun3).
  { by apply (tracks_kill_if_many svc _ _ _ Hadm). }
  destruct (reliable_returns (deactivate_last svc keys') st3)
    as ([] & st4 & Hrun4).
  { by apply (tracks_deactivate_last svc _ _ _ Hadm). }
  destruct (reliable_returns
              (_update_user_group_membership svc iter u
                 (default (Groups []) (config secret ≫= groups))) st4)
    as ([] & st5 & Hrun5).
  { by apply (tracks_update_user_group_membership svc iter _ _ _ Hadm). }
  destruct (reliable_returns
              (_update_user_policies svc iter u
                 (list_to_set (default [] (config secret ≫= policies)))) st5)
    as ([] & st6 & Hrun6).
  { by apply (tracks_update_user_policies svc iter _ _ _ Hadm). }
  destruct (Hrel (trace st6) (create_access_key u) I) as [aws_secret Hcreate].
  exists st1, listing, keys', st3, st4, st5, st6, aws_secret.
  split_and!; try done.
  unfold rotate. apply try_except_inr. rewrite rotate_body_stages. fold u.
  rewrite (bind_inr _ _ _ _ _ Hrun1), (bind_inr _ _ _ _ _ Hrun2).
  rewrite (bind_inr _ _ _ _ _ Hrun3), (bind_inr _ _ _ _ _ Hrun4).
  rewrite (bind_inr _ _ _ _ _ Hrun5), (bind_inr _ _ _ _ _ Hrun6).
  unfold _create_access_key.
  by rewrite (bind_inr _ _ _ _ _
                (invoke_ok svc (create_access_key u) st6 aws_secret Hcreate)).
Qed.

(** ** Rotation, by the number of keys *)

Lemma dict_set_absent {V} (d : list (string * V)) k v :
  k ∉ dict_keys d → dict_set d k v = d ++ [(k, v)].
Proof.
  unfold dict_keys. induction d as [|[k0 v0] d IH]; simpl; [done|].
  rewrite not_elem_of_cons. intros [Hne Hd].
  rewrite decide_False by done. by rewrite IH.
Qed.

(** A comprehension over elements with different keys keeps them all, in
    their order. *)
Lemma dict_comprehension_distinct {V} (key : V → string) (l : list V) :
  NoDup (key <$> l) → dict_comprehension key l = (λ x, (key x, x)) <$> l.
Proof.
  unfold dict_comprehension.
  assert (∀ d : list (string * V),
            NoDup (dict_keys d ++ (key <$> l)) →
            foldl (λ d x, dict_set d (key x) x) d l
            = d ++ ((λ x, (key x, x)) <$> l)) as Hfold.
  { induction l as [|x l IH]; intros d Hd; simpl; [by rewrite app_nil_r|].
    simpl in Hd. rewrite dict_set_absent.
    - rewrite IH; [by rewrite <- app_assoc|].
      unfold dict_keys in *. rewrite fmap_app. simpl.
      by rewrite <- app_assoc.
    - apply NoDup_app in Hd as (_ & Hdisj & _).
      intros Hin. apply (Hdisj _ Hin). left. }
  intros Hl. by apply (Hfold []).
Qed.

Lemma quiet_lookups d : quiet (lookups d).
Proof.
  unfold quiet, key_changes, lookups.
  induction d as [|[kid key] d IH]; [done|]. simpl.
  by rewrite filter_cons_False.
Qed.

(** When the branch for more than one key returns: one entry of the dict,
    with its record [key], is gone; the rest is there, in its order, with the
    usage dates that were looked up; and the call that deleted [key] is the
    last of the branch, after lookups only. *)
Lemma kill_one_returns svc keys_by_id st keys' st' :
  keys_by_id ≠ [] → NoDup (dict_keys keys_by_id) →
  Forall (λ kv, AccessKeyId kv.2 = kv.1) keys_by_id →
  kill_one svc keys_by_id st = (inr keys', st') →
  ∃ i kid key annotated looks,
    keys_by_id !! i = Some (kid, key)
    ∧ annotates keys_by_id annotated
    ∧ keys' = delete i annotated
    ∧ trace st'
      = trace st
        ++ looks
        ++ [Called (delete_access_key (AccessKeyId key) (UserName key)) true]
    ∧ quiet looks.
Proof.
  intros Hne Hnodup Hfiled Hrun. unfold kill_one, _pick_best_candidate in Hrun.
  destruct (pick_loop svc keys_by_id keys_by_id None st)
    as [[e|[annotated cand]] st_p] eqn:Hpick.
  { by rewrite (bind_inl _ _ _ _ _ Hpick) in Hrun. }
  rewrite (bind_inr _ _ _ _ _ Hpick) in Hrun. simpl in Hrun.
  destruct (pick_loop_returns _ _ _ _ _ _ Hne Hnodup Hpick)
    as (i & kid & key & c & -> & Hi & Hi' & Hsame & Hfresh).
  apply (pick_loop_spec svc keys_by_id []) in Hpick
      as (seen & rest & seen' & Hitems & Hkeys' & Hann & Htr & _ & _);
    [|done|apply Forall_nil_2|done].
  simpl in Hkeys'.
  assert (annotates keys_by_id annotated) as Hann'.
  { rewrite Hitems, Hkeys'. apply Forall2_app; [done|apply annotates_refl]. }
  destruct (same_key_ids _ _ Hsame) as [Hid Hname].
  assert (AccessKeyId key = kid) as Hkid.
  { rewrite Forall_lookup in Hfiled. exact (Hfiled i (kid, key) Hi). }
  unfold _delete_access_key in Hrun. rewrite Hid, Hname, Hkid in Hrun.
  destruct (svc (trace st_p) (delete_access_key kid (UserName key)))
    as [code|[]] eqn:Hdel.
  { by rewrite (bind_inl _ _ _ _ _
                  (invoke_fails svc (delete_access_key kid (UserName key))
                     st_p code Hdel)) in Hrun. }
  rewrite (bind_inr _ _ _ _ _
             (invoke_ok svc (delete_access_key kid (UserName key)) st_p ()
                Hdel)) in Hrun.
  injection Hrun as <- <-.
  exists i, kid, key, annotated, (lookups seen).
  split_and!; [done|done| | |apply quiet_lookups].
  - rewrite <- (take_drop_middle _ _ _ Hi') at 1.
    rewrite dict_pop_middle by done. by rewrite delete_take_drop.
  - simpl. by rewrite Htr, Hkid, <- app_assoc.
Qed.

Lemma quiet_admits svc :
  admits svc quiet (λ _, True) (λ c, changes_keys c = false).
Proof.
  split; [| |done].
  - intros c Hc. unfold quiet, key_changes.
    rewrite filter_cons_False; [done|]. simpl. by rewrite Hc.
  - intros c w Hc _. unfold quiet, key_changes.
    rewrite filter_cons_False; [done|]. simpl. by rewrite Hc.
Qed.

(** What a stage that changes no key has added when it has returned. *)
Lemma quiet_stage {A} (m : M A) st a st' :
  tracks quiet (λ _, True) m → m st = (inr a, st') →
  ∃ new, trace st' = trace st ++ new ∧ quiet new.
Proof.
  intros Hm Hrun. destruct (Hm st) as (new & Htr & Hnew).
  rewrite Hrun in Htr, Hnew. by exists new.
Qed.

(** What [rotate] does to the keys that are left once it has deleted one, if
    it had to: a key left alone is marked inactive. *)
Definition deactivation (rest : list access_key) : list event :=
  match rest with
  | [other] =>
      [Called (update_access_key (AccessKeyId other) "Inactive"
                 (UserName other)) true]
  | _ => []
  end.

Lemma key_changes_deactivation rest :
  key_changes (deactivation rest) = deactivation rest.
Proof. by destruct rest as [|other [|]]. Qed.

Lemma deactivate_last_returns svc rest keys_by_id st st' :
  Forall2 (λ r kv, same_key r kv.2) rest keys_by_id →
  deactivate_last svc keys_by_id st = (inr (), st') →
  trace st' = trace st ++ deactivation rest.
Proof.
  intros Hrest Hrun. unfold deactivate_last in Hrun.
  destruct Hrest as [|other [kid c] rest keys Hsame Hrest].
  { injection Hrun as <-. simpl. by rewrite app_nil_r. }
  destruct Hrest as [|other2 kv2 rest keys _ _]; simpl in *.
  - destruct (same_key_ids _ _ Hsame) as [Hid Hname].
    unfold _update_access_key in Hrun. rewrite Hid, Hname in Hrun.
    unfold invoke in Hrun.
    destruct (svc (trace st) _) as [code|[]]; [done|].
    by injection Hrun as <-.
  - injection Hrun as <-. by rewrite app_nil_r.
Qed.

(** X8.  On a service on which no aborting call fails and whose listing of
    the keys is [listing], with ids that differ, [rotate] returns the new key,
    and the changes it makes to the access keys are these and no other, in
    this order.  With more than one key it first deletes one key of the
    listing.  Then, if exactly one key is left (there were one or two), it
    marks that key inactive; with no key, or with three or more, it marks
    none.  Last, it creates a key. *)
Theorem rotate_key_changes_by_count (svc : service) (iter : set_order)
    secret st listing :
  reliable svc →
  (∀ h, svc h (list_access_keys (key secret)) = inr listing) →
  NoDup (AccessKeyId <$> listing) →
  ∃ aws_secret new kills rest,
    (rotate svc iter secret st).1 = inr (_explain_secret aws_secret)
    ∧ trace (rotate svc iter secret st).2 = trace st ++ new
    ∧ key_changes new
      = kills ++ deactivation rest
        ++ [Called (create_access_key (key secret)) true]
    ∧ ((length listing ≤ 1)%nat ∧ kills = [] ∧ rest = listing
       ∨ (1 < length listing)%nat
         ∧ ∃ i cand,
             listing !! i = Some cand
             ∧ kills = [Called (delete_access_key (AccessKeyId cand)
                                  (UserName cand)) true]
             ∧ rest = delete i listing).
Proof.
  intros Hrel Hlist Hids.
  destruct (rotate_reliable_stages svc iter secret st Hrel)
    as (st1 & listing' & keys' & st3 & st4 & st5 & st6 & aws_secret & Hrun1
        & Hlisting & Hrun3 & Hrun4 & Hrun5 & Hrun6 & _ & Hrotate).
  rewrite Hlist in Hlisting. injection Hlisting as <-.
  set (u := key secret) in *.
  pose proof (quiet_admits svc) as Hadm.
  destruct (quiet_stage _ _ _ _
              (tracks_create_user_if_not_available svc quiet _ _ Hadm u
                 (config secret) eq_refl eq_refl eq_refl) Hrun1)
    as (new1 & Htr1 & Hq1).
  destruct (quiet_stage _ _ _ _
              (tracks_update_user_group_membership svc iter quiet _ _ Hadm u
                 _ eq_refl (λ _, eq_refl) (λ _, eq_refl)) Hrun5)
    as (new5 & Htr5 & Hq5).
  destruct (quiet_stage _ _ _ _
              (tracks_update_user_policies svc iter quiet _ _ Hadm u
                 _ eq_refl eq_refl (λ _, eq_refl) (λ _, eq_refl)) Hrun6)
    as (new6 & Htr6 & Hq6).
  rewrite (dict_comprehension_distinct _ _ Hids) in Hrun3.
  set (d := (λ k, (AccessKeyId k, k)) <$> listing) in *.
  (* the key that goes, if one goes *)
  assert (∃ looks kills rest,
            trace st3
            = trace st1 ++ [Called (list_access_keys u) true] ++ looks ++ kills
            ∧ quiet looks
            ∧ Forall2 (λ r kv, same_key r kv.2) rest keys'
            ∧ ((length listing ≤ 1)%nat ∧ kills = [] ∧ rest = listing
               ∨ (1 < length listing)%nat
                 ∧ ∃ i cand,
                     listing !! i = Some cand
                     ∧ kills = [Called (delete_access_key (AccessKeyId cand)
                                          (UserName cand)) true]
                     ∧ rest = delete i listing))
    as (looks & kills & rest & Htr3 & Hq3 & Hrest & Hcases).
  { unfold kill_if_many in Hrun3.
    assert (length d = length listing) as Hlen by apply length_fmap.
    rewrite Hlen in Hrun3.
    destruct (decide (1 < length listing)%nat) as [Hmany|Hfew].
    - rewrite bool_decide_eq_true_2 in Hrun3 by done.
      apply kill_one_returns in Hrun3
          as (i & kid & key & annotated & looks & Hi & Hann & -> & Htr3 & Hq3).
      + unfold d in Hi.
        apply list_lookup_fmap_Some_1 in Hi as (cand & Heq & Hcand).
        injection Heq as -> ->.
        exists looks, [Called (delete_access_key (AccessKeyId cand)
                                 (UserName cand)) true], (delete i listing).
        split_and!; [rewrite Htr3; simpl; by rewrite <- ?app_assoc|done| |].
        * apply Forall2_delete. unfold d in Hann.
          apply Forall2_fmap_l in Hann.
          eapply Forall2_impl; [exact Hann|]. by intros r kv [_ ?].
        * right. split; [done|]. by exists i, cand.
      + intros Hnil. rewrite Hnil in Hlen. simpl in Hlen. lia.
      + unfold d, dict_keys. by rewrite <- list_fmap_compose.
      + unfold d. apply Forall_fmap, Forall_true. done.
    - rewrite bool_decide_eq_false_2 in Hrun3 by done.
      injection Hrun3 as <- <-. exists [], [], listing.
      split_and!; [done|done| |left; split; [lia|done]].
      unfold d. apply Forall2_fmap_r, Forall_Forall2_diag, Forall_true.
      intros r. apply same_key_refl. }
  pose proof (deactivate_last_returns _ _ _ _ _ Hrest Hrun4) as Htr4.
  exists aws_secret,
    (new1 ++ [Called (list_access_keys u) true] ++ looks ++ kills
     ++ deactivation rest ++ new5 ++ new6
     ++ [Called (create_access_key u) true]),
    kills, rest.
  rewrite Hrotate. split_and!; [done| | |done].
  - simpl. rewrite Htr6, Htr5, Htr4, Htr3, Htr1. by rewrite <- !app_assoc.
  - rewrite !key_changes_app, key_changes_deactivation.
    unfold quiet in *. rewrite Hq1, Hq3, Hq5, Hq6. simpl.
    destruct Hcases as [(_ & -> & _)|(_ & i & cand & _ & -> & _)]; done.
Qed.

Definition three_active_keys : list access_key :=
  [active_key "AKIA1"; active_key "AKIA2"; active_key "AKIA3"].

Lemma rotate_key_changes_by_count_witness :
  reliable (scripted (inr (Some managed)) three_active_keys (λ _, None) [] [])
  ∧ (∀ h,
       scripted (inr (Some managed)) three_active_keys (λ _, None) [] [] h
         (list_access_keys (key svc_a))
       = inr three_active_keys)
  ∧ NoDup (AccessKeyId <$> three_active_keys)
  ∧ ∃ aws_secret new kills rest,
      (rotate
         (scripted (inr (Some managed)) three_active_keys (λ _, None) [] [])
         in_order svc_a fresh).1
      = inr (_explain_secret aws_secret)
      ∧ trace
          (rotate
             (scripted (inr (Some managed)) three_active_keys (λ _, None)
                [] [])
             in_order svc_a fresh).2
        = trace fresh ++ new
      ∧ key_changes new
        = kills ++ deactivation rest
          ++ [Called (create_access_key (key svc_a)) true]
      ∧ ((length three_active_keys ≤ 1)%nat ∧ kills = []
         ∧ rest = three_active_keys
         ∨ (1 < length three_active_keys)%nat
           ∧ ∃ i cand,
               three_active_keys !! i = Some cand
               ∧ kills = [Called (delete_access_key (AccessKeyId cand)
                                    (UserName cand)) true]
               ∧ rest = delete i three_active_keys).
Proof.
  assert (NoDup (AccessKeyId <$> three_active_keys)) as Hids
    by (apply (bool_decide_unpack _); vm_compute; reflexivity).
  split_and!; [apply scripted_reliable|done|done|].
  apply (rotate_key_changes_by_count
           (scripted (inr (Some managed)) three_active_keys (λ _, None) [] [])
           in_order svc_a fresh three_active_keys);
    [apply scripted_reliable|done|done].
Defined.

Example rotate_with_three_keys :
  key_changes
    (trace (rotate
              (scripted (inr (Some managed)) three_active_keys (λ _, None)
                 [] [])
              in_order svc_a fresh).2)
  = [Called (delete_access_key "AKIA1" "svc-a") true;
     Called (create_access_key "svc-a") true].
Proof. vm_compute. reflexivity. Qed.

(** ** The new key *)

(** A stretch of history in which no access key was created. *)
Definition creates_no_key (evs : list event) : Prop :=
  ∀ u, Called (create_access_key u) true ∉ evs.

Global Instance creates_no_key_closed : Closed creates_no_key.
Proof.
  split.
  - intros u. apply not_elem_of_nil.
  - intros a b Ha Hb u [?|?]%elem_of_app; [by apply (Ha u)|by apply (Hb u)].
Qed.

Definition is_create (c : call) : bool :=
  match c with create_access_key _ => true | _ => false end.

Lemma creates_no_key_admits svc :
  admits svc creates_no_key (λ _, True) (λ c, is_create c = false).
Proof.
  split; [| |done].
  - intros c Hc u [= <-]%list_elem_of_singleton. done.
  - intros c w Hc _ u Hin. by repeat apply elem_of_cons in Hin as [?|Hin];
      try apply not_elem_of_nil in Hin.
Qed.

(** The stages of [rotate] before the new key. *)
Definition before_the_new_key (svc : service) (iter : set_order)
    (secret : secret) : M unit :=
  _create_user_if_not_available svc (key secret) (config secret);;
  keys_by_id ← _fetch_access_keys svc (key secret);
  keys_by_id ← kill_if_many svc keys_by_id;
  deactivate_last svc keys_by_id;;
  _update_user_group_membership svc iter (key secret)
    (default (Groups []) (config secret ≫= groups));;
  _update_user_policies svc iter (key secret)
    (list_to_set (default [] (config secret ≫= policies))).

Lemma rotate_body_new_key_last svc iter secret st :
  rotate_body svc iter secret st
  = (before_the_new_key svc iter secret;;
     aws_secret ← _create_access_key svc (key secret);
     mret (_explain_secret aws_secret)) st.
Proof.
  rewrite rotate_body_stages. unfold before_the_new_key, mbind, M_bind.
  repeat (let x := fresh in
          match goal with
          | |- context [match ?m st with _ => _ end] =>
              destruct (m st) as [[?|x] ?]; try done
          | |- context [match ?m ?s with _ => _ end] =>
              destruct (m s) as [[?|x] ?]; try done
          end).
Qed.

Lemma tracks_before_the_new_key svc iter secret :
  tracks creates_no_key (λ _, True) (before_the_new_key svc iter secret).
Proof.
  pose proof (creates_no_key_admits svc) as Hadm.
  unfold before_the_new_key.
  apply tracks_bind; [apply _| |intros _].
  { by apply (tracks_create_user_if_not_available svc _ _ _ Hadm). }
  apply tracks_bind; [apply _| |intros keys_by_id].
  { by apply (tracks_fetch_access_keys svc _ _ _ Hadm). }
  apply tracks_bind; [apply _| |intros keys'].
  { by apply (tracks_kill_if_many svc _ _ _ Hadm). }
  apply tracks_bind; [apply _| |intros _].
  { by apply (tracks_deactivate_last svc _ _ _ Hadm). }
  apply tracks_bind; [apply _| |intros _].
  { by apply (tracks_update_user_group_membership svc iter _ _ _ Hadm). }
  by apply (tracks_update_user_policies svc iter _ _ _ Hadm).
Qed.

(** X9.  On every service, whatever fails: a run of [rotate] that returns
    has created one access key, with its last call, and returns the id and
    the secret of that key; a run that raises has created no key.  So
    [rotate] never creates a key that it does not hand to its caller. *)
Theorem rotate_returns_the_key_it_creates (svc : service) (iter : set_order)
    secret st :
  ∃ new,
    trace (rotate svc iter secret st).2 = trace st ++ new
    ∧ match (rotate svc iter secret st).1 with
      | inr result =>
          ∃ pre aws_secret,
            new = pre ++ [Called (create_access_key (key secret)) true]
            ∧ creates_no_key pre
            ∧ svc (trace st ++ pre) (create_access_key (key secret))
              = inr aws_secret
            ∧ result = [("provider", "iam");
                        ("key", new_AccessKeyId aws_secret);
                        ("secret", SecretAccessKey aws_secret)]
      | inl _ => creates_no_key new
      end.
Proof.
  destruct (tracks_before_the_new_key svc iter secret st)
    as (pre & Htr & Hpre).
  unfold rotate, try_except. rewrite rotate_body_new_key_last.
  destruct (before_the_new_key svc iter secret st) as [[e|[]] st1] eqn:Hrun;
    simpl in Htr, Hpre.
  - rewrite (bind_inl _ _ _ _ _ Hrun).
    destruct Hpre as (code & c & pre' & -> & -> & _ & Hpre). simpl.
    exists (pre' ++ [Called c false]). split; [done|].
    apply closed_app; [done|].
    intros u [=]%list_elem_of_singleton.
  - rewrite (bind_inr _ _ _ _ _ Hrun).
    unfold _create_access_key, invoke, mbind, M_bind. rewrite Htr.
    destruct (svc (trace st ++ pre) (create_access_key (key secret)))
      as [code|aws_secret] eqn:Hcreate; simpl.
    + exists (pre ++ [Called (create_access_key (key secret)) false]).
      split; [by rewrite Htr, <- app_assoc|].
      apply closed_app; [done|].
      intros u [=]%list_elem_of_singleton.
    + exists (pre ++ [Called (create_access_key (key secret)) true]).
      split; [by rewrite Htr, <- app_assoc|].
      by exists pre, aws_secret.
Qed.

(** ** Groups and policies after a rotation *)

(** Only [_get_aws_account_id] writes the cached account id. *)
Definition keeps_account {A} (m : M A) : Prop :=
  ∀ st, _account_id (m st).2 = _account_id st.

Lemma keeps_account_ret {A} (a : A) : keeps_account (mret a).
Proof. done. Qed.

Lemma keeps_account_bind {A B} (m : M A) (k : A → M B) :
  keeps_account m → (∀ a, keeps_account (k a)) → keeps_account (m ≫= k).
Proof.
  intros Hm Hk st. specialize (Hm st). unfold mbind, M_bind.
  destruct (m st) as [[e|a] st1]; simpl in *; [done|]. by rewrite Hk.
Qed.

Lemma keeps_account_invoke svc c : keeps_account (invoke svc c).
Proof. intros st. unfold invoke. by destruct (svc (trace st) c). Qed.

Lemma keeps_account_try {A} (body : M A) handler :
  keeps_account body → (∀ e, keeps_account (handler e)) →
  keeps_account (try_except body handler).
Proof.
  intros Hb Hh st. specialize (Hb st). unfold try_except.
  destruct (body st) as [[[]|a] st1]; simpl in *; try done. by rewrite Hh.
Qed.

Lemma keeps_account_for_each {A} (l : list A) (body : A → M unit) :
  (∀ x, keeps_account (body x)) → keeps_account (for_each l body).
Proof.
  intros Hbody. induction l as [|x l IH]; simpl; [done|].
  apply keeps_account_bind; [done|by intros _].
Qed.

Ltac keeps :=
  first
    [ done
    | match goal with
      | |- keeps_account (invoke ?s ?c) => apply (keeps_account_invoke s c)
      | |- keeps_account (_update_access_key ?s _ _ _) =>
          apply (keeps_account_invoke s (update_access_key _ _ _))
      | |- keeps_account (_delete_access_key ?s _ _) =>
          apply (keeps_account_invoke s (delete_access_key _ _))
      end ].

Lemma keeps_account_pick_loop svc items :
  ∀ keys_by_id candidate,
    keeps_account (pick_loop svc items keys_by_id candidate).
Proof.
  induction items as [|[kid key] items IH]; intros keys_by_id candidate st;
    [done|].
  rewrite pick_loop_cons. unfold mbind, M_bind, invoke.
  destruct (svc (trace st) (get_access_key_last_used kid)) as [e|d];
    simpl; [done|].
  repeat case_match; try done; by rewrite IH.
Qed.

Lemma keeps_account_create_user svc u o :
  keeps_account (_create_user_if_not_available svc u o).
Proof.
  unfold _create_user_if_not_available.
  apply keeps_account_bind; [|intros []; keeps].
  apply keeps_account_try.
  - apply keeps_account_bind; [keeps|]. intros existing_user.
    apply keeps_account_bind; [|done]. case_bool_decide; keeps.
  - intros e. by apply keeps_account_bind.
Qed.

Lemma keeps_account_kill_if_many svc keys_by_id :
  keeps_account (kill_if_many svc keys_by_id).
Proof.
  unfold kill_if_many. case_bool_decide; [|done]. unfold kill_one.
  apply keeps_account_bind; [apply keeps_account_pick_loop|].
  intros [keys' [r_candidate|]]; [|done].
  apply keeps_account_bind; [|done]. keeps.
Qed.

Lemma keeps_account_deactivate_last svc keys_by_id :
  keeps_account (deactivate_last svc keys_by_id).
Proof.
  unfold deactivate_last. case_bool_decide; [|done].
  destruct (dict_values keys_by_id); [done|]. keeps.
Qed.

Lemma keeps_account_update_user_group_membership svc iter u g :
  keeps_account (_update_user_group_membership svc iter u g).
Proof.
  unfold _update_user_group_membership.
  apply keeps_account_bind.
  - apply keeps_account_try.
    + apply keeps_account_bind; [keeps|done].
    + intros e. by apply keeps_account_bind.
  - intros [current|]; [|done].
    apply keeps_account_bind; [|intros _];
      apply keeps_account_for_each; intros x;
      by apply keeps_account_try; [keeps|].
Qed.

Lemma keeps_account_returned {A} (m : M A) st r st' :
  keeps_account m → m st = (r, st') → _account_id st' = _account_id st.
Proof. intros Hm Hrun. specialize (Hm st). by rewrite Hrun in Hm. Qed.

(** The calls that change the groups of a user, and the ones that change
    the attached policies. *)
Definition is_group_change (c : call) : bool :=
  match c with
  | remove_user_from_group _ _ | add_user_to_group _ _ => true
  | _ => false
  end.

Definition is_policy_change (c : call) : bool :=
  match c with
  | attach_user_policy _ _ | detach_user_policy _ _ => true
  | _ => false
  end.

Definition is_membership (c : call) : bool :=
  is_group_change c || is_policy_change c.

Definition membership_calls (evs : list event) : list call :=
  filter (λ c, is_membership c = true) (calls_of evs).

Lemma calls_of_app a b : calls_of (a ++ b) = calls_of a ++ calls_of b.
Proof. apply omap_app. Qed.

(** A stretch of history all of whose calls are in [P]. *)
Definition only (P : call → Prop) (evs : list event) : Prop :=
  Forall P (calls_of evs).

Global Instance only_closed P : Closed (only P).
Proof.
  split; [by apply Forall_nil_2|]. intros a b Ha Hb. unfold only.
  rewrite calls_of_app. by apply Forall_app.
Qed.

Lemma only_admits svc P : admits svc (only P) P P.
Proof.
  split; [| |done].
  - intros c Hc. by apply Forall_singleton.
  - intros c w Hc _. by apply Forall_singleton.
Qed.

Lemma only_failed P c : P c → only P [Called c false].
Proof. intros Hc. by apply Forall_singleton. Qed.

(** A stretch of history with no call that changes groups or policies. *)
Definition settled : list event → Prop :=
  only (λ c, is_membership c = false).

Global Instance settled_closed : Closed settled.
Proof. apply only_closed. Qed.

Lemma settled_admits svc :
  admits svc settled (λ _, True) (λ c, is_membership c = false).
Proof.
  split; [| |done].
  - intros c Hc. by apply Forall_singleton.
  - intros c w Hc _. by apply Forall_singleton.
Qed.

Lemma returned_stretch {A} T K (m : M A) st a st' :
  tracks T K m → m st = (inr a, st') →
  ∃ new, trace st' = trace st ++ new ∧ T new.
Proof.
  intros Hm Hrun. destruct (Hm st) as (new & Htr & Hnew).
  rewrite Hrun in Htr, Hnew. by exists new.
Qed.

Lemma membership_calls_app a b :
  membership_calls (a ++ b) = membership_calls a ++ membership_calls b.
Proof. unfold membership_calls. by rewrite calls_of_app, filter_app. Qed.

Lemma membership_calls_settled evs : settled evs → membership_calls evs = [].
Proof.
  unfold settled, membership_calls. induction 1 as [|c l Hc _ IH]; [done|].
  rewrite filter_cons_False; [done|]. by rewrite Hc.
Qed.

Lemma membership_calls_all evs :
  Forall (λ c, is_membership c = true) (calls_of evs) →
  membership_calls evs = calls_of evs.
Proof.
  unfold membership_calls. induction 1 as [|c l Hc _ IH]; [done|].
  rewrite filter_cons_True by done. by rewrite IH.
Qed.

Lemma groups_after_unchanged u X evs :
  Forall (λ c, is_group_change c = false) (calls_of evs) →
  groups_after u X evs = X.
Proof.
  unfold groups_after. revert X.
  induction evs as [|[c ok|w] evs IH]; intros X Hevs; simpl in *;
    [done| |by apply IH].
  apply Forall_cons in Hevs as [Hc Hevs]. rewrite IH by done.
  by destruct c, ok.
Qed.

Lemma policies_after_unchanged u X evs :
  Forall (λ c, is_policy_change c = false) (calls_of evs) →
  policies_after u X evs = X.
Proof.
  unfold policies_after. revert X.
  induction evs as [|[c ok|w] evs IH]; intros X Hevs; simpl in *;
    [done| |by apply IH].
  apply Forall_cons in Hevs as [Hc Hevs]. rewrite IH by done.
  by destruct c, ok.
Qed.

Lemma settled_groups evs :
  settled evs → Forall (λ c, is_group_change c = false) (calls_of evs).
Proof.
  intros Hevs. eapply Forall_impl; [exact Hevs|].
  unfold is_membership. intros c. by destruct (is_group_change c).
Qed.

Lemma settled_policies evs :
  settled evs → Forall (λ c, is_policy_change c = false) (calls_of evs).
Proof.
  intros Hevs. eapply Forall_impl; [exact Hevs|].
  unfold is_membership. intros c.
  by destruct (is_group_change c), (is_policy_change c).
Qed.

Lemma settled_lookups sts : Forall is_account_lookup sts → settled sts.
Proof.
  unfold settled. induction 1 as [|ev sts -> _ IH]; [by apply Forall_nil_2|].
  by apply Forall_cons_2.
Qed.

(** No call of the stretch failed, if no call failed at all. *)
Lemma all_ok_calls (P : call → Prop) evs :
  Forall P (calls_of evs) → (∀ c, P c → Called c false ∉ evs) → all_ok evs.
Proof.
  intros Hcalls Hnone. apply Forall_forall. intros [c [|]|w] Hin; try done.
  exfalso. apply (Hnone c); [|done].
  rewrite Forall_forall in Hcalls. apply Hcalls.
  apply list_elem_of_omap. by exists (Called c false).
Qed.

(** The run of the policy reconciler when the account is known and the
    listing answers. *)
Lemma update_user_policies_run (svc : service) (iter : set_order) u
    (policies : list string) account attached st :
  visits_once iter →
  account_known svc st account →
  (∀ h, svc h (list_attached_user_policies u) = inr attached) →
  let S : gset (option string) :=
    list_to_set ((λ p, Some (policy_arn account p)) <$> policies) in
  let C : gset (option string) := list_to_set (PolicyArn <$> attached) in
  ∃ lookups attaches detaches st',
    _update_user_policies svc iter u (list_to_set policies) st = (inr (), st')
    ∧ trace st'
      = trace st ++ lookups ++ [Called (list_attached_user_policies u) true]
        ++ attaches ++ detaches
    ∧ Forall is_account_lookup lookups
    ∧ calls_of attaches = attach_user_policy u <$> iter _ _ _ ((S ∪ C) ∖ C)
    ∧ calls_of detaches = detach_user_policy u <$> iter _ _ _ ((S ∪ C) ∖ S)
    ∧ (all_ok attaches →
       attaches = (λ p, Called (attach_user_policy u p) true)
                  <$> iter _ _ _ ((S ∪ C) ∖ C))
    ∧ (all_ok detaches →
       detaches = (λ p, Called (detach_user_policy u p) true)
                  <$> iter _ _ _ ((S ∪ C) ∖ S)).
Proof.
  intros Hiter Hknown Hlist S C. unfold _update_user_policies.
  destruct (make_policy_arns svc account
              (iter _ _ _ (list_to_set policies)) st Hknown)
    as (lookups & st1 & Harns & Htr1 & Hlookups & _).
  rewrite (bind_inr _ _ _ _ _ Harns).
  assert (list_to_set
            (Some <$> (policy_arn account
                         <$> iter _ _ _ (list_to_set policies : gset string)))
          = S) as ->.
  { unfold S. rewrite <- list_fmap_compose. apply set_eq. intros x.
    rewrite !elem_of_list_to_set, !list_elem_of_fmap.
    split; intros (p & -> & Hp); exists p; split; try done.
    - rewrite (Hiter _ _ _ _), elem_of_elements in Hp.
      by apply elem_of_list_to_set in Hp.
    - rewrite (Hiter _ _ _ _), elem_of_elements.
      by apply elem_of_list_to_set. }
  rewrite (bind_inr _ _ st1 (Some C)
             (extend st1 [Called (list_attached_user_policies u) true])).
  2:{ apply try_except_inr.
      by rewrite (bind_inr _ _ _ _ _
                    (invoke_ok svc (list_attached_user_policies u) st1
                       attached (Hlist _))). }
  destruct (for_each_one_call _ _ (iter _ _ _ ((S ∪ C) ∖ C))
              (one_call_attach svc u)
              (extend st1 [Called (list_attached_user_policies u) true]))
    as (attaches & Hr & Hcr & Hokr).
  rewrite (bind_inr _ _ _ _ _ Hr).
  destruct (for_each_one_call _ _ (iter _ _ _ ((S ∪ C) ∖ S))
              (one_call_detach svc u)
              (extend
                 (extend st1 [Called (list_attached_user_policies u) true])
                 attaches))
    as (detaches & Ha & Hca & Hoka).
  rewrite Ha, !extend_extend. exists lookups, attaches, detaches.
  eexists. split_and!; try done.
  simpl. by rewrite Htr1, <- !app_assoc.
Qed.

(** The groups and the policy ARNs that [rotate] takes from the secret:
    none where [config], [groups] or [policies] is missing, and the one
    group where [groups] is a name. *)
Definition configured_groups (secret : secret) : gset string :=
  list_to_set
    match default (Groups []) (config secret ≫= groups) with
    | Groups l => l
    | Scalar g => [g]
    end.

Definition configured_arns (account : string) (secret : secret)
  : gset (option string) :=
  list_to_set
    ((λ p, Some (policy_arn account p))
       <$> default [] (config secret ≫= policies)).

Definition listed_groups (grps : list string) : gset string :=
  list_to_set grps.

Definition listed_arns (pols : list attached_policy) : gset (option string) :=
  list_to_set (PolicyArn <$> pols).

(** X10.  A rotation on a service on which no aborting call fails, whose
    account is known, and which lists [grps] as the groups of the user and
    [pols] as the attached policies.  The calls of [rotate] that change groups
    or policies are, up to their order: one [remove_user_from_group] for each
    listed group that is not configured, one [add_user_to_group] for each
    configured group that is not listed, one [attach_user_policy] for each
    configured ARN that is not listed and one [detach_user_policy] for each
    listed ARN that is not configured.  If none of these calls fails, the
    user ends with the configured groups and the configured policies: with
    none at all when the secret configures none. *)
Theorem rotate_reconciles_memberships (svc : service) (iter : set_order)
    secret st account grps pols :
  visits_once iter →
  reliable svc →
  account_known svc st account →
  (∀ h, svc h (list_groups_for_user (key secret)) = inr grps) →
  (∀ h, svc h (list_attached_user_policies (key secret)) = inr pols) →
  ∃ new,
    trace (rotate svc iter secret st).2 = trace st ++ new
    ∧ membership_calls new
      ≡ₚ (remove_user_from_group (key secret)
            <$> elements (listed_groups grps ∖ configured_groups secret))
         ++ (add_user_to_group (key secret)
               <$> elements (configured_groups secret ∖ listed_groups grps))
         ++ (attach_user_policy (key secret)
               <$> elements (configured_arns account secret
                               ∖ listed_arns pols))
         ++ (detach_user_policy (key secret)
               <$> elements (listed_arns pols
                               ∖ configured_arns account secret))
    ∧ ((∀ c, is_membership c = true → Called c false ∉ new) →
       groups_after (key secret) (listed_groups grps) new
       = configured_groups secret
       ∧ policies_after (key secret) (listed_arns pols) new
         = configured_arns account secret).
Proof.
  intros Hiter Hrel Hknown Hgrps Hpols.
  destruct (rotate_reliable_stages svc iter secret st Hrel)
    as (st1 & listing & keys' & st3 & st4 & st5 & st6 & aws_secret & Hrun1
        & Hlisting & Hrun3 & Hrun4 & Hrun5 & Hrun6 & _ & Hrotate).
  set (u := key secret) in *.
  unfold configured_groups, configured_arns, listed_groups, listed_arns.
  set (configured := match default (Groups []) (config secret ≫= groups) with
                     | Groups l => l
                     | Scalar g => [g]
                     end).
  set (Sg := list_to_set configured : gset string).
  set (Cg := list_to_set grps : gset string).
  set (Sp := list_to_set ((λ p, Some (policy_arn account p))
                            <$> default [] (config secret ≫= policies))
             : gset (option string)).
  set (Cp := list_to_set (PolicyArn <$> pols) : gset (option string)).
  pose proof (settled_admits svc) as Hadm.
  (* the stages that leave groups and policies alone *)
  destruct (returned_stretch _ _ _ _ _ _
              (tracks_create_user_if_not_available svc settled _ _ Hadm u
                 (config secret) eq_refl eq_refl eq_refl) Hrun1)
    as (new1 & Htr1 & Hs1).
  destruct (returned_stretch _ _ _ _ _ _
              (tracks_kill_if_many svc settled _ _ Hadm _
                 (λ _, eq_refl) (λ _ _, eq_refl)) Hrun3)
    as (new3 & Htr3 & Hs3).
  destruct (returned_stretch _ _ _ _ _ _
              (tracks_deactivate_last svc settled _ _ Hadm _
                 (λ _ _ _, eq_refl)) Hrun4)
    as (new4 & Htr4 & Hs4).
  (* the account, when the policies are reconciled *)
  assert (_account_id st5 = _account_id st) as Hacc.
  { rewrite (keeps_account_returned _ _ _ _
               (keeps_account_update_user_group_membership _ _ _ _) Hrun5).
    rewrite (keeps_account_returned _ _ _ _
               (keeps_account_deactivate_last _ _) Hrun4).
    rewrite (keeps_account_returned _ _ _ _
               (keeps_account_kill_if_many _ _) Hrun3).
    simpl.
    apply (keeps_account_returned _ _ _ _
             (keeps_account_create_user _ _ _) Hrun1). }
  assert (account_known svc st5 account) as Hknown5.
  { unfold account_known in *. by rewrite Hacc. }
  (* the groups *)
  assert (_update_user_group_membership svc iter u (Groups configured) st4
          = (inr (), st5)) as Hrun5'.
  { rewrite <- Hrun5. unfold configured.
    by destruct (default (Groups []) (config secret ≫= groups)). }
  destruct (update_user_group_membership_run svc iter u configured st4 grps
              (Hgrps _))
    as (removes & adds & Hgroups & Hcr & Hca & Hokr & Hoka).
  rewrite Hrun5' in Hgroups. injection Hgroups as ->.
  fold Sg Cg in Hcr, Hca, Hokr, Hoka.
  (* the policies *)
  destruct (update_user_policies_run svc iter u
              (default [] (config secret ≫= policies)) account pols _
              Hiter Hknown5 Hpols)
    as (lookups & attaches & detaches & st6' & Hpolicies & Htr6 & Hlookups
        & Hct & Hcd & Hokt & Hokd).
  rewrite Hrun6 in Hpolicies. injection Hpolicies as <-.
  fold Sp Cp in Hct, Hcd, Hokt, Hokd.
  exists (new1 ++ [Called (list_access_keys u) true] ++ new3 ++ new4
          ++ [Called (list_groups_for_user u) true] ++ removes ++ adds
          ++ lookups ++ [Called (list_attached_user_policies u) true]
          ++ attaches ++ detaches ++ [Called (create_access_key u) true]).
  rewrite Hrotate. split_and!.
  - simpl. rewrite Htr6. simpl. rewrite Htr4, Htr3. simpl. rewrite Htr1.
    rewrite <- !app_assoc. simpl. by rewrite <- !app_assoc.
  - rewrite !membership_calls_app.
    rewrite (membership_calls_settled new1), (membership_calls_settled new3),
      (membership_calls_settled new4),
      (membership_calls_settled lookups) by (done || by apply settled_lookups).
    rewrite (membership_calls_all removes), (membership_calls_all adds),
      (membership_calls_all attaches), (membership_calls_all detaches)
      by (rewrite ?Hcr, ?Hca, ?Hct, ?Hcd; by apply Forall_fmap, Forall_true).
    simpl. rewrite Hcr, Hca, Hct, Hcd, !(Hiter _ _ _ _).
    replace ((Cg ∪ Sg) ∖ Sg) with (Cg ∖ Sg) by set_solver.
    replace ((Cg ∪ Sg) ∖ Cg) with (Sg ∖ Cg) by set_solver.
    replace ((Sp ∪ Cp) ∖ Cp) with (Sp ∖ Cp) by set_solver.
    replace ((Sp ∪ Cp) ∖ Sp) with (Cp ∖ Sp) by set_solver.
    change (membership_calls [Called (create_access_key u) true])
      with (@nil call).
    by rewrite app_nil_r.
  - intros Hnone.
    assert (∀ part, part ⊆ new1 ++ [Called (list_access_keys u) true]
              ++ new3 ++ new4
              ++ [Called (list_groups_for_user u) true] ++ removes ++ adds
              ++ lookups ++ [Called (list_attached_user_policies u) true]
              ++ attaches ++ detaches ++ [Called (create_access_key u) true] →
            Forall (λ c, is_membership c = true) (calls_of part) →
            all_ok part) as Hok.
    { intros part Hsub Hpart.
      apply (all_ok_calls _ _ Hpart). intros c Hc Hin.
      by apply (Hnone c Hc), Hsub. }
    assert (all_ok removes) as Hremoves.
    { apply Hok; [set_solver|].
      rewrite Hcr. by apply Forall_fmap, Forall_true. }
    assert (all_ok adds) as Hadds.
    { apply Hok; [set_solver|].
      rewrite Hca. by apply Forall_fmap, Forall_true. }
    assert (all_ok attaches) as Hattaches.
    { apply Hok; [set_solver|].
      rewrite Hct. by apply Forall_fmap, Forall_true. }
    assert (all_ok detaches) as Hdetaches.
    { apply Hok; [set_solver|].
      rewrite Hcd. by apply Forall_fmap, Forall_true. }
    pose proof (settled_lookups _ Hlookups) as Hs6.
    split.
    + rewrite !groups_after_app.
      rewrite (groups_after_unchanged _ _ new1) by by apply settled_groups.
      rewrite (groups_after_unchanged _ _ [_]) by by apply Forall_singleton.
      rewrite (groups_after_unchanged _ _ new3) by by apply settled_groups.
      rewrite (groups_after_unchanged _ _ new4) by by apply settled_groups.
      rewrite (groups_after_unchanged _ _ [_]) by by apply Forall_singleton.
      rewrite (groups_after_unchanged _ _ [_]) by by apply Forall_singleton.
      rewrite (groups_after_unchanged _ _ detaches)
        by (rewrite Hcd; by apply Forall_fmap, Forall_true).
      rewrite (groups_after_unchanged _ _ attaches)
        by (rewrite Hct; by apply Forall_fmap, Forall_true).
      rewrite (groups_after_unchanged _ _ [_]) by by apply Forall_singleton.
      rewrite (groups_after_unchanged _ _ lookups) by by apply settled_groups.
      rewrite (Hokr Hremoves), (Hoka Hadds).
      rewrite groups_after_removes, groups_after_adds.
      rewrite !(visited_set iter) by done. apply sym_diff_result.
    + rewrite !policies_after_app.
      rewrite (policies_after_unchanged _ _ new1) by by apply settled_policies.
      rewrite (policies_after_unchanged _ _ [_]) by by apply Forall_singleton.
      rewrite (policies_after_unchanged _ _ new3) by by apply settled_policies.
      rewrite (policies_after_unchanged _ _ new4) by by apply settled_policies.
      rewrite (policies_after_unchanged _ _ [_]) by by apply Forall_singleton.
      rewrite (policies_after_unchanged _ _ removes)
        by (rewrite Hcr; by apply Forall_fmap, Forall_true).
      rewrite (policies_after_unchanged _ _ adds)
        by (rewrite Hca; by apply Forall_fmap, Forall_true).
      rewrite (policies_after_unchanged _ _ lookups)
        by by apply settled_policies.
      rewrite (policies_after_unchanged _ _ [_]) by by apply Forall_singleton.
      rewrite (policies_after_unchanged _ _ [_]) by by apply Forall_singleton.
      rewrite (Hokt Hattaches), (Hokd Hdetaches).
      rewrite policies_after_attaches, policies_after_detaches.
      rewrite !(visited_set iter) by done. apply sym_diff_result.
Qed.

(** An account on which [svc-a] exists, with two groups and one policy that
    the secret does not configure. *)
Definition drifted : service :=
  scripted (inr (Some managed)) [] (λ _, None) ["g0"; "g1"]
    [{| PolicyName := "old";
        PolicyArn := Some "arn:aws:iam::123456789012:policy/old" |}].

Lemma rotate_reconciles_memberships_witness :
  visits_once in_order
  ∧ reliable drifted
  ∧ account_known drifted fresh "123456789012"
  ∧ (∀ h, drifted h (list_groups_for_user (key svc_a)) = inr ["g0"; "g1"])
  ∧ (∀ h,
       drifted h (list_attached_user_policies (key svc_a))
       = inr [{| PolicyName := "old";
                 PolicyArn := Some "arn:aws:iam::123456789012:policy/old" |}])
  ∧ ∃ new,
      trace (rotate drifted in_order svc_a fresh).2 = trace fresh ++ new
      ∧ membership_calls new
        ≡ₚ (remove_user_from_group (key svc_a)
              <$> elements (listed_groups ["g0"; "g1"]
                              ∖ configured_groups svc_a))
           ++ (add_user_to_group (key svc_a)
                 <$> elements (configured_groups svc_a
                                 ∖ listed_groups ["g0"; "g1"]))
           ++ (attach_user_policy (key svc_a)
                 <$> elements
                       (configured_arns "123456789012" svc_a
                          ∖ listed_arns
                              [{| PolicyName := "old";
                                  PolicyArn :=
                                    Some "arn:aws:iam::123456789012:policy/old"
                               |}]))
           ++ (detach_user_policy (key svc_a)
                 <$> elements
                       (listed_arns
                          [{| PolicyName := "old";
                              PolicyArn :=
                                Some "arn:aws:iam::123456789012:policy/old" |}]
                          ∖ configured_arns "123456789012" svc_a))
      ∧ ((∀ c, is_membership c = true → Called c false ∉ new) →
         groups_after (key svc_a) (listed_groups ["g0"; "g1"]) new
         = configured_groups svc_a
         ∧ policies_after (key svc_a)
             (listed_arns
                [{| PolicyName := "old";
                    PolicyArn := Some "arn:aws:iam::123456789012:policy/old"
                 |}]) new
           = configured_arns "123456789012" svc_a).
Proof.
  split; [exact in_order_visits_once|].
  split; [apply scripted_reliable|].
  split; [by right|]. split; [done|]. split; [done|].
  apply (rotate_reconciles_memberships drifted in_order svc_a fresh
           "123456789012" ["g0"; "g1"]
           [{| PolicyName := "old";
               PolicyArn := Some "arn:aws:iam::123456789012:policy/old" |}]
           in_order_visits_once (scripted_reliable _ _ _ _ _)).
  - by right.
  - done.
  - done.
Defined.

(** The same, run: [g0] goes, [g1] stays, [p1] comes and [old] goes. *)
Example rotate_on_a_drifted_account :
  membership_calls (trace (rotate drifted in_order svc_a fresh).2)
  = [remove_user_from_group "svc-a" "g0";
     attach_user_policy "svc-a" (Some "arn:aws:iam::123456789012:policy/p1");
     detach_user_policy "svc-a" (Some "arn:aws:iam::123456789012:policy/old")].
Proof. vm_compute. reflexivity. Qed.

(** ** The account lookup of the policy reconciler *)

(** [_update_user_policies] once the expected ARNs are made. *)
Definition reconcile_arns (svc : service) (iter : set_order)
    (username : string) (expected_policy_arns : gset (option string))
  : M unit :=
  fetched ← try_except
    (r ← invoke svc (list_attached_user_policies username);
     mret (Some (list_to_set (PolicyArn <$> r) : gset (option string))))
    (λ e, warn (failed_to_fetch_policies username e);; mret None);
  match fetched with
  | None => mret ()
  | Some current_policy_arns =>
      let union_policy_arns := expected_policy_arns ∪ current_policy_arns in
      for_each (iter _ _ _ (union_policy_arns ∖ current_policy_arns))
        (λ policy_arn, _attach_policy_to_user svc policy_arn username);;
      for_each (iter _ _ _ (union_policy_arns ∖ expected_policy_arns))
        (λ policy_arn, _detach_policy_from_user svc policy_arn username)
  end.

Lemma update_user_policies_parts svc iter u p :
  _update_user_policies svc iter u p
  = (arns ← for_map (iter _ _ _ p) (_make_policy_arn svc);
     reconcile_arns svc iter u (list_to_set (Some <$> arns))).
Proof. reflexivity. Qed.

Section reconcile_arns.
Context (svc : service) (iter : set_order).
Context (T : list event → Prop) `{!Closed T} (K S : call → Prop).
Hypothesis admitted : admits svc T K S.

Lemma tracks_reconcile_arns u arns :
  S (list_attached_user_policies u) →
  (∀ x, S (attach_user_policy u x)) → (∀ x, S (detach_user_policy u x)) →
  tracks T K (reconcile_arns svc iter u arns).
Proof.
  intros Hlist Hattach Hdetach. unfold reconcile_arns.
  apply tracks_bind; [done| |].
  - apply (tracks_try_warn T (λ c, c = list_attached_user_policies u) K _
             (λ e, failed_to_fetch_policies u e) (λ _, mret None)); [| |].
    + apply tracks_bind; [done| |intros r; by apply tracks_ret].
      by apply (tracks_caught_call svc T K S admitted _
                  (list_attached_user_policies u)).
    + intros c e ->.
      apply (admits_caught svc T K S admitted); [done|constructor].
    + intros _. by apply tracks_ret.
  - intros [current|]; [|by apply tracks_ret].
    apply tracks_bind; [done| |intros _]; apply tracks_for_each; try done.
    + intros x. unfold _attach_policy_to_user.
      apply (tracks_try_warn_only T (λ c, c = attach_user_policy u x) K _
               (λ e, failed_attaching_policy x u e)); [|].
      * by apply (tracks_caught_call svc T K S admitted _
                    (attach_user_policy u x)).
      * intros c e ->.
        apply (admits_caught svc T K S admitted); [done|constructor].
    + intros x. unfold _detach_policy_from_user.
      apply (tracks_try_warn_only T (λ c, c = detach_user_policy u x) K _
               (λ e, failed_detaching_policy x u e)); [|].
      * by apply (tracks_caught_call svc T K S admitted _
                    (detach_user_policy u x)).
      * intros c e ->.
        apply (admits_caught svc T K S admitted); [done|constructor].
Qed.
End reconcile_arns.

Lemma keeps_account_reconcile_arns svc iter u arns :
  keeps_account (reconcile_arns svc iter u arns).
Proof.
  unfold reconcile_arns. apply keeps_account_bind.
  - apply keeps_account_try.
    + apply keeps_account_bind; [keeps|done].
    + intros e. by apply keeps_account_bind.
  - intros [current|]; [|done].
    apply keeps_account_bind; [|intros _];
      apply keeps_account_for_each; intros x;
      by apply keeps_account_try; [keeps|].
Qed.

Definition is_sts (c : call) : bool :=
  match c with get_caller_identity => true | _ => false end.

(** The calls of a stretch of history that go to STS. *)
Definition sts_calls (evs : list event) : list call :=
  filter (λ c, is_sts c = true) (calls_of evs).

Lemma sts_calls_app a b : sts_calls (a ++ b) = sts_calls a ++ sts_calls b.
Proof. unfold sts_calls. by rewrite calls_of_app, filter_app. Qed.

Lemma sts_calls_only evs :
  only (λ c, is_sts c = false) evs → sts_calls evs = [].
Proof.
  unfold only, sts_calls. induction 1 as [|c l Hc _ IH]; [done|].
  rewrite filter_cons_False; [done|]. by rewrite Hc.
Qed.

Lemma get_aws_account_id_cached svc st a :
  _account_id st = Some a → _get_aws_account_id svc st = (inr (Some a), st).
Proof.
  intros Hc.
  unfold _get_aws_account_id, read_account_id, mbind, M_bind. simpl.
  rewrite Hc. simpl. by rewrite Hc.
Qed.

Lemma get_aws_account_id_first (svc : service) st account :
  _account_id st = None →
  svc (trace st) get_caller_identity = inr (Some account) →
  _get_aws_account_id svc st
  = (inr (Some account),
     {| trace := trace st ++ [Called get_caller_identity true];
        _account_id := Some account |}).
Proof.
  intros Hc Hsts.
  unfold _get_aws_account_id, read_account_id, write_account_id, mbind,
    M_bind, invoke. simpl.
  by rewrite Hc, Hsts.
Qed.

Lemma make_policy_arns_cached svc a l :
  ∀ st, _account_id st = Some a →
    for_map l (_make_policy_arn svc) st = (inr (policy_arn a <$> l), st).
Proof.
  induction l as [|p l IH]; intros st Hc; [done|]. simpl.
  assert (_make_policy_arn svc p st = (inr (policy_arn a p), st)) as Hp.
  { unfold _make_policy_arn.
    by rewrite (bind_inr _ _ _ _ _ (get_aws_account_id_cached svc st a Hc)). }
  rewrite (bind_inr _ _ _ _ _ Hp).
  by rewrite (bind_inr _ _ _ _ _ (IH st Hc)).
Qed.

(** X11.  On a service whose STS answers with an account,
    [_update_user_policies] asks for the account once, however many policies
    are configured, and only if it has to: not when the client has an
    account cached, and not when no policy is configured.  After a run with
    a policy configured the client has an account cached. *)
Theorem update_user_policies_asks_for_the_account_once (svc : service)
    (iter : set_order) u (policies : gset string) st account :
  visits_once iter →
  (∀ h, svc h get_caller_identity = inr (Some account)) →
  ∃ new,
    trace (_update_user_policies svc iter u policies st).2 = trace st ++ new
    ∧ sts_calls new
      = (if bool_decide (_account_id st = None ∧ policies ≠ ∅)
         then [get_caller_identity] else [])
    ∧ (policies ≠ ∅ →
       is_Some (_account_id (_update_user_policies svc iter u policies st).2)).
Proof.
  intros Hiter Hsts. rewrite update_user_policies_parts.
  pose proof (only_admits svc (λ c, is_sts c = false)) as Hadm.
  assert (∀ arns st1,
            ∃ new,
              trace (reconcile_arns svc iter u arns st1).2 = trace st1 ++ new
              ∧ sts_calls new = []
              ∧ _account_id (reconcile_arns svc iter u arns st1).2
                = _account_id st1) as Hrest.
  { intros arns st1.
    destruct (tracks_reconcile_arns svc iter _ _ _ Hadm u arns eq_refl
                (λ _, eq_refl) (λ _, eq_refl) st1) as (new & Htr & Hnew).
    exists new. split_and!; [done| |apply keeps_account_reconcile_arns].
    apply sts_calls_only.
    destruct (reconcile_arns svc iter u arns st1).1 as [e|[]]; [|done].
    destruct Hnew as (code & c & pre & _ & -> & Hc & Hpre).
    apply closed_app; [done|by apply only_failed]. }
  destruct (_account_id st) as [a|] eqn:Hacc.
  - (* cached *)
    rewrite (bind_inr _ _ _ _ _ (make_policy_arns_cached svc a _ st Hacc)).
    destruct (Hrest (list_to_set (Some <$> (policy_arn a
                                              <$> iter _ _ _ policies))) st)
      as (new & Htr & Hnone & Hkept).
    exists new. rewrite bool_decide_eq_false_2 by (by intros [? _]).
    split_and!; [done..|]. intros _. by rewrite Hkept, Hacc.
  - destruct (iter _ _ _ policies) as [|p l] eqn:Hl.
    + (* nothing configured *)
      assert (policies = ∅) as ->.
      { apply leibniz_equiv, elements_empty_inv, Permutation_nil_r.
        by rewrite <- (Hiter _ _ _ policies), Hl. }
      simpl. rewrite (bind_inr _ _ st [] st) by done.
      destruct (Hrest (list_to_set (Some <$> [])) st)
        as (new & Htr & Hnone & Hkept).
      exists new. rewrite bool_decide_eq_false_2 by (by intros [_ ?]).
      by split_and!.
    + (* the first policy asks, the others find the answer *)
      assert (policies ≠ ∅) as Hsome.
      { intros ->. pose proof (Hiter _ _ _ (∅ : gset string)) as Hperm.
        rewrite Hl, elements_empty in Hperm.
        by apply Permutation_nil_r in Hperm. }
      set (st1 := {| trace := trace st ++ [Called get_caller_identity true];
                     _account_id := Some account |}).
      assert (for_map (p :: l) (_make_policy_arn svc) st
              = (inr (policy_arn account <$> p :: l), st1)) as Harns.
      { simpl.
        assert (_make_policy_arn svc p st = (inr (policy_arn account p), st1))
          as Hp.
        { unfold _make_policy_arn.
          by rewrite (bind_inr _ _ _ _ _
                        (get_aws_account_id_first svc st account Hacc
                           (Hsts _))). }
        rewrite (bind_inr _ _ _ _ _ Hp).
        by rewrite (bind_inr _ _ _ _ _
                      (make_policy_arns_cached svc account l st1 eq_refl)). }
      rewrite (bind_inr _ _ _ _ _ Harns).
      destruct (Hrest (list_to_set (Some <$> (policy_arn account <$> p :: l)))
                  st1)
        as (new & Htr & Hnone & Hkept).
      exists ([Called get_caller_identity true] ++ new).
      rewrite bool_decide_eq_true_2 by done.
      split_and!.
      * rewrite Htr. simpl. by rewrite <- app_assoc.
      * by rewrite sts_calls_app, Hnone.
      * intros _. by rewrite Hkept.
Qed.

Lemma update_user_policies_asks_for_the_account_once_witness :
  visits_once in_order
  ∧ (∀ h,
       scripted (inr None) [] (λ _, None) [] [] h get_caller_identity
       = inr (Some "123456789012"))
  ∧ ∃ new,
      trace (_update_user_policies
               (scripted (inr None) [] (λ _, None) [] []) in_order "svc-a"
               (list_to_set ["p1"; "p2"; "p3"]) fresh).2
      = trace fresh ++ new
      ∧ sts_calls new
        = (if bool_decide
                (_account_id fresh = None
                 ∧ (list_to_set ["p1"; "p2"; "p3"] : gset string) ≠ ∅)
           then [get_caller_identity] else [])
      ∧ ((list_to_set ["p1"; "p2"; "p3"] : gset string) ≠ ∅ →
         is_Some
           (_account_id
              (_update_user_policies
                 (scripted (inr None) [] (λ _, None) [] []) in_order "svc-a"
                 (list_to_set ["p1"; "p2"; "p3"]) fresh).2)).
Proof.
  split; [exact in_order_visits_once|]. split; [done|].
  apply (update_user_policies_asks_for_the_account_once
           (scripted (inr None) [] (λ _, None) [] []) in_order "svc-a"
           (list_to_set ["p1"; "p2"; "p3"]) fresh "123456789012"
           in_order_visits_once).
  done.
Defined.

(** The same, run: one lookup for three policies. *)
Example three_policies_one_lookup :
  sts_calls
    (trace (_update_user_policies
              (scripted (inr None) [] (λ _, None) [] []) in_order "svc-a"
              (list_to_set ["p1"; "p2"; "p3"]) fresh).2)
  = [get_caller_identity].
Proof. vm_compute. reflexivity. Qed.

(** ** A listing that fails *)

Lemma only_admits_failed svc P :
  admits svc (only P) (λ c, only P [Called c false]) P.
Proof.
  split.
  - intros c Hc. by apply Forall_singleton.
  - intros c w Hc _. by apply Forall_singleton.
  - intros c h code Hc _ _. by apply only_failed.
Qed.

(** [rotate_body] tracks what its stages track. *)
Lemma tracks_stages svc iter T `{!Closed T} K secret :
  tracks T K (_create_user_if_not_available svc (key secret) (config secret)) →
  tracks T K (_fetch_access_keys svc (key secret)) →
  (∀ keys_by_id, tracks T K (kill_if_many svc keys_by_id)) →
  (∀ keys_by_id, tracks T K (deactivate_last svc keys_by_id)) →
  tracks T K
    (_update_user_group_membership svc iter (key secret)
       (default (Groups []) (config secret ≫= groups))) →
  tracks T K
    (_update_user_policies svc iter (key secret)
       (list_to_set (default [] (config secret ≫= policies)))) →
  tracks T K (_create_access_key svc (key secret)) →
  tracks T K (rotate_body svc iter secret).
Proof.
  intros H1 H2 H3 H4 H5 H6 H7. rewrite rotate_body_stages.
  apply tracks_bind; [done|done|intros _].
  apply tracks_bind; [done|done|intros keys_by_id].
  apply tracks_bind; [done|done|intros keys'].
  apply tracks_bind; [done|done|intros _].
  apply tracks_bind; [done|done|intros _].
  apply tracks_bind; [done|done|intros _].
  apply tracks_bind; [done|done|intros aws_secret]. by apply tracks_ret.
Qed.

(** What [rotate] adds to the history, when a failed call is as good as
    another for [T]. *)
Lemma rotate_stretch svc iter T `{!Closed T} secret st :
  tracks T (λ c, T [Called c false]) (rotate_body svc iter secret) →
  ∃ new, trace (rotate svc iter secret st).2 = trace st ++ new ∧ T new.
Proof.
  intros Hbody. destruct (Hbody st) as (new & Htr & Hnew).
  unfold rotate, try_except.
  destruct (rotate_body svc iter secret st) as [[e|r] st1]; simpl in *.
  - destruct Hnew as (code & c & pre & -> & -> & Hc & Hpre). simpl.
    exists (pre ++ [Called c false]). split; [done|]. by apply closed_app.
  - by exists new.
Qed.

Lemma tracks_groups_unlisted (svc : service) iter T K u g code :
  (∀ h, svc h (list_groups_for_user u) = inl code) →
  T [Called (list_groups_for_user u) false;
     Logged (not_able_to_list_groups u code)] →
  tracks T K (_update_user_group_membership svc iter u g).
Proof.
  intros Hfail HT st.
  exists [Called (list_groups_for_user u) false;
          Logged (not_able_to_list_groups u code)].
  unfold _update_user_group_membership, mbind, M_bind, try_except, invoke.
  rewrite Hfail. simpl. split; [by rewrite <- app_assoc|done].
Qed.

Lemma tracks_arns_unlisted (svc : service) iter T K u arns code :
  (∀ h, svc h (list_attached_user_policies u) = inl code) →
  T [Called (list_attached_user_policies u) false;
     Logged (failed_to_fetch_policies u code)] →
  tracks T K (reconcile_arns svc iter u arns).
Proof.
  intros Hfail HT st.
  exists [Called (list_attached_user_policies u) false;
          Logged (failed_to_fetch_policies u code)].
  unfold reconcile_arns, mbind, M_bind, try_except, invoke.
  rewrite Hfail. simpl. split; [by rewrite <- app_assoc|done].
Qed.

(** X12.  If the groups of the user cannot be listed, a rotation changes
    none: on every service, whatever else fails, [rotate] makes no
    [remove_user_from_group] and no [add_user_to_group] call, so the groups
    of the user are after the rotation what they were before. *)
Theorem rotate_leaves_groups_it_cannot_list (svc : service)
    (iter : set_order) secret st code :
  (∀ h, svc h (list_groups_for_user (key secret)) = inl code) →
  ∃ new,
    trace (rotate svc iter secret st).2 = trace st ++ new
    ∧ only (λ c, is_group_change c = false) new
    ∧ ∀ X, groups_after (key secret) X new = X.
Proof.
  intros Hfail.
  pose proof (only_admits_failed svc (λ c, is_group_change c = false))
    as Hadm.
  destruct (rotate_stretch svc iter (only (λ c, is_group_change c = false))
              secret st) as (new & Htr & Hnew).
  { apply tracks_stages; [apply _|..].
    - by apply (tracks_create_user_if_not_available svc _ _ _ Hadm).
    - by apply (tracks_fetch_access_keys svc _ _ _ Hadm).
    - intros d. by apply (tracks_kill_if_many svc _ _ _ Hadm).
    - intros d. by apply (tracks_deactivate_last svc _ _ _ Hadm).
    - apply (tracks_groups_unlisted svc iter _ _ _ _ code Hfail).
      by apply Forall_singleton.
    - by apply (tracks_update_user_policies svc iter _ _ _ Hadm).
    - by apply (tracks_call svc _ _ _ Hadm (create_access_key _)). }
  exists new. split_and!; [done..|].
  intros X. by apply groups_after_unchanged.
Qed.

Definition cannot_list_groups : service :=
  failing (λ c, if c is list_groups_for_user _ then true else false)
    (scripted (inr (Some managed)) [] (λ _, None) ["g0"] []).

Lemma rotate_leaves_groups_it_cannot_list_witness :
  (∀ h, cannot_list_groups h (list_groups_for_user (key svc_a))
        = inl "AccessDenied")
  ∧ ∃ new,
      trace (rotate cannot_list_groups in_order svc_a fresh).2
      = trace fresh ++ new
      ∧ only (λ c, is_group_change c = false) new
      ∧ ∀ X, groups_after (key svc_a) X new = X.
Proof.
  split; [done|].
  apply (rotate_leaves_groups_it_cannot_list cannot_list_groups in_order
           svc_a fresh "AccessDenied").
  done.
Defined.

(** X13.  If the attached policies of the user cannot be listed, a rotation
    changes none: on every service, whatever else fails, [rotate] makes no
    [attach_user_policy] and no [detach_user_policy] call, so the policies
    of the user are after the rotation what they were before. *)
Theorem rotate_leaves_policies_it_cannot_list (svc : service)
    (iter : set_order) secret st code :
  (∀ h, svc h (list_attached_user_policies (key secret)) = inl code) →
  ∃ new,
    trace (rotate svc iter secret st).2 = trace st ++ new
    ∧ only (λ c, is_policy_change c = false) new
    ∧ ∀ X, policies_after (key secret) X new = X.
Proof.
  intros Hfail.
  pose proof (only_admits_failed svc (λ c, is_policy_change c = false))
    as Hadm.
  destruct (rotate_stretch svc iter (only (λ c, is_policy_change c = false))
              secret st) as (new & Htr & Hnew).
  { apply tracks_stages; [apply _|..].
    - by apply (tracks_create_user_if_not_available svc _ _ _ Hadm).
    - by apply (tracks_fetch_access_keys svc _ _ _ Hadm).
    - intros d. by apply (tracks_kill_if_many svc _ _ _ Hadm).
    - intros d. by apply (tracks_deactivate_last svc _ _ _ Hadm).
    - by apply (tracks_update_user_group_membership svc iter _ _ _ Hadm).
    - rewrite update_user_policies_parts. apply tracks_bind; [apply _| |].
      + apply tracks_for_map; [apply _|]. intros p. unfold _make_policy_arn.
        apply tracks_bind; [apply _| |intros a; apply tracks_ret, _].
        by apply (tracks_get_aws_account_id svc _ _ _ Hadm).
      + intros arns.
        apply (tracks_arns_unlisted svc iter _ _ _ _ code Hfail).
        by apply Forall_singleton.
    - by apply (tracks_call svc _ _ _ Hadm (create_access_key _)). }
  exists new. split_and!; [done..|].
  intros X. by apply policies_after_unchanged.
Qed.

Definition cannot_list_policies : service :=
  failing (λ c, if c is list_attached_user_policies _ then true else false)
    (scripted (inr (Some managed)) [] (λ _, None) []
       [{| PolicyName := "old";
           PolicyArn := Some "arn:aws:iam::123456789012:policy/old" |}]).

Lemma rotate_leaves_policies_it_cannot_list_witness :
  (∀ h, cannot_list_policies h (list_attached_user_policies (key svc_a))
        = inl "AccessDenied")
  ∧ ∃ new,
      trace (rotate cannot_list_policies in_order svc_a fresh).2
      = trace fresh ++ new
      ∧ only (λ c, is_policy_change c = false) new
      ∧ ∀ X, policies_after (key svc_a) X new = X.
Proof.
  split; [done|].
  apply (rotate_leaves_policies_it_cannot_list cannot_list_policies in_order
           svc_a fresh "AccessDenied").
  done.
Defined.

(** The same, run: the account is looked up for the ARN of [p1], the listing
    fails, and the new key is made. *)
Example rotate_without_the_policy_listing :
  rotate cannot_list_policies in_order svc_a fresh
  = (inr [("provider", "iam"); ("key", "AKIANEW"); ("secret", "s3cr3t")],
     {| trace :=
          [Called (get_user "svc-a") true;
           Called (list_access_keys "svc-a") true;
           Called (list_groups_for_user "svc-a") true;
           Called (add_user_to_group "svc-a" "g1") true;
           Called get_caller_identity true;
           Called (list_attached_user_policies "svc-a") false;
           Logged (failed_to_fetch_policies "svc-a" "AccessDenied");
           Called (create_access_key "svc-a") true];
        _account_id := Some "123456789012" |}).
Proof. vm_compute. reflexivity. Qed.

(** ** The errors of [rotate] *)








